(** * Phylogeny utilities of ALifeStdDev ([phylogeny/utils.py])

    A shallow embedding of the graph queries, the extant-taxa filter, the
    lineage extractor and the lineage abstractor, together with the
    statements the specification makes about them.

    Conventions of the embedding.
    - Python values that occur as node ids, attribute values and times are
      integers and strings ([value]).
    - A node's attribute dictionary is a mutable object: the graph stores a
      reference ([loc]) to it and the dictionaries live in a [store].
    - A computation either returns, raises, or exhausts the fuel that bounds
      its [while True] loops ([outcome]). *)

From Stdlib Require Import ZArith String.
From stdpp Require Import base decidable option list relations gmap strings.

Local Open Scope string_scope.
Local Open Scope list_scope.
Local Open Scope nat_scope.

(** ** Python values *)

Inductive value : Type :=
  | VInt (z : Z)
  | VStr (s : string).

#[global] Instance value_eq_dec : EqDecision value.
Proof. solve_decision. Defined.

#[global] Instance value_countable : Countable value.
Proof.
  refine (inj_countable'
            (λ v, match v with VInt z => inl z | VStr s => inr s end)
            (λ x, match x with inl z => VInt z | inr s => VStr s end) _).
  by intros [].
Defined.

#[global] Instance value_inhabited : Inhabited value := populate (VInt 0).

(** ** Exceptions and outcomes *)

Inductive exn : Type :=
  | KeyError (key : value)
  | IndexError
  | TypeError
  | MissingAttribute (attribute : string)
      (* Exception "Not all taxa have '<attribute>' data" *)
  | TaxonNotFound (taxa_id : value)
      (* Exception "Failed to find given taxa (<taxa_id>) in phylogeny" *)
  | NotAsexual
      (* Exception "Given phylogeny is not asexual" *)
  | NotAsexualLineage
      (* Exception "the given lineage is not an asexual lineage" *)
  | AttributesNotUniversal
      (* Exception "given attributes are not universal among all taxa ..." *)
  | ReservedAttribute (name : string)
      (* Exception "'<name>' is a reserved attribute when using this function" *)
  | NetworkXPointlessConcept.
      (* networkx: "Connectivity is undefined for the null graph." *)

Inductive outcome (A : Type) : Type :=
  | Ret (a : A)
  | Raise (e : exn)
  | OutOfFuel.
Arguments Ret {A} a.
Arguments Raise {A} e.
Arguments OutOfFuel {A}.

#[global] Instance outcome_ret : MRet outcome := λ A a, Ret a.
#[global] Instance outcome_bind : MBind outcome := λ A B f m,
  match m with
  | Ret a => f a
  | Raise e => Raise e
  | OutOfFuel => OutOfFuel
  end.

(** A list comprehension [[x for x in l if f x]] whose test may raise. *)
Fixpoint filter_out {A} (f : A → outcome bool) (l : list A) : outcome (list A) :=
  match l with
  | [] => Ret []
  | x :: l' =>
      b ← f x;
      r ← filter_out f l';
      Ret (if b : bool then x :: r else r)
  end.

(** A list comprehension [[f x for x in l]] whose body may raise. *)
Fixpoint map_out {A B} (f : A → outcome B) (l : list A) : outcome (list B) :=
  match l with
  | [] => Ret []
  | x :: l' => y ← f x; r ← map_out f l'; Ret (y :: r)
  end.

(** A [for x in l: acc = f acc x] loop whose body may raise. *)
Fixpoint fold_out {A B} (f : B → A → outcome B) (acc : B) (l : list A) : outcome B :=
  match l with
  | [] => Ret acc
  | x :: l' => acc' ← f acc x; fold_out f acc' l'
  end.

(** ** Comparisons *)

(** [a == b]: values of different types are unequal. *)
Definition py_eq (a b : value) : bool := bool_decide (a = b).

(** [a < b]: integers by value, strings lexicographically, and a
    [TypeError] between an integer and a string. *)
Definition py_lt (a b : value) : outcome bool :=
  match a, b with
  | VInt x, VInt y => Ret (x <? y)%Z
  | VStr s, VStr t => Ret (String.ltb s t)
  | _, _ => Raise TypeError
  end.

Definition py_gt (a b : value) : outcome bool := py_lt b a.

(** ** Attribute dictionaries, store, graphs *)

Abbreviation attrs := (gmap string value).
Abbreviation loc := nat (only parsing).
Abbreviation store := (list (gmap string value)) (only parsing).

(** [d[key]] *)
Definition getitem (d : attrs) (key : string) : outcome value :=
  match d !! key with
  | Some v => Ret v
  | None => Raise (KeyError (VStr key))
  end.

(** A [networkx.DiGraph]: the node table in insertion order, each node with
    its attribute object, and the edges in insertion order. *)
Record DiGraph (A : Type) : Type := mkDiGraph {
  nodes : list (value * A);
  edges : list (value * value)
}.
Arguments mkDiGraph {A} nodes edges.
Arguments nodes {A} _.
Arguments edges {A} _.

Section graph.
Context {A : Type}.
Implicit Types (g : DiGraph A) (n u v : value).

Definition node_ids g : list value := (nodes g).*1.

Definition node_lookup g n : option A :=
  (λ r, r.2.2) <$> list_find (λ p, p.1 = n) (nodes g).

Definition predecessors g n : list value :=
  (filter (λ e, e.2 = n) (edges g)).*1.

Definition successors g n : list value :=
  (filter (λ e, e.1 = n) (edges g)).*2.

Definition edge g : relation value := λ u v, (u, v) ∈ edges g.

(** What networkx maintains for every graph. *)
Definition graph_wf g : Prop :=
  NoDup (node_ids g) ∧ NoDup (edges g) ∧
  ∀ u v, edge g u v → u ∈ node_ids g ∧ v ∈ node_ids g.

(** The standing assumption on phylogenies. *)
Definition acyclic g : Prop := ∀ n, ¬ tc (edge g) n n.
End graph.

(** The attribute dictionaries of a phylogeny are objects of the store, one
    per node. *)
Definition world_wf (σ : store) (g : DiGraph loc) : Prop :=
  graph_wf g ∧ NoDup (nodes g).*2 ∧ ∀ l, l ∈ (nodes g).*2 → (l < length σ)%nat.

(** [phylogeny.nodes[node]] *)
Definition node_attrs (σ : store) (g : DiGraph loc) (n : value) : outcome attrs :=
  match node_lookup g n with
  | Some l => Ret (σ !!! l)
  | None => Raise (KeyError n)
  end.

(** ** Verification *)

Definition all_taxa_have_attribute (σ : store) (phylogeny : DiGraph loc)
    (attribute : string) : bool :=
  forallb (λ p, bool_decide (is_Some ((σ !!! p.2 : attrs) !! attribute)))
          (nodes phylogeny).

Definition all_taxa_have_attributes (σ : store) (phylogeny : DiGraph loc)
    (attribute_list : list string) : bool :=
  forallb (λ p, forallb (λ attribute,
                   bool_decide (is_Some ((σ !!! p.2 : attrs) !! attribute)))
                 attribute_list)
          (nodes phylogeny).

Definition is_asexual {A} (phylogeny : DiGraph A) : bool :=
  forallb (λ node, bool_decide (length (predecessors phylogeny node) ≤ 1)%nat)
          (node_ids phylogeny).

Definition get_root_ids {A} (phylogeny : DiGraph A) : list value :=
  filter (λ node, length (predecessors phylogeny node) = 0%nat) (node_ids phylogeny).

Definition get_leaf_taxa_ids {A} (phylogeny : DiGraph A) : list value :=
  filter (λ node, length (successors phylogeny node) = 0%nat) (node_ids phylogeny).

Definition get_num_roots {A} (phylogeny : DiGraph A) : Z :=
  Z.of_nat (length (get_root_ids phylogeny)).

(** ** Extant taxa *)

Definition taxon_is_alive (node : attrs) (time not_destroyed_value : value)
    (destruction_attribute origin_attribute : string) : outcome bool :=
  d0 ← getitem node "destruction_time";
  not_dead ← (if py_eq d0 not_destroyed_value then Ret true
              else d ← getitem node destruction_attribute; py_gt d time);
  if not_dead : bool then
    if py_eq time (VStr "present") then Ret true
    else o ← getitem node origin_attribute; py_lt o time
  else Ret false.

Definition validate_destruction_time (σ : store) (phylogeny : DiGraph loc)
    (attribute : string) : outcome unit :=
  if all_taxa_have_attribute σ phylogeny attribute then Ret tt
  else Raise (MissingAttribute attribute).

Definition validate_origin_time (σ : store) (phylogeny : DiGraph loc)
    (attribute : string) : outcome unit :=
  if all_taxa_have_attribute σ phylogeny attribute then Ret tt
  else Raise (MissingAttribute attribute).

Definition get_extant_taxa_ids (σ : store) (phylogeny : DiGraph loc)
    (time not_destroyed_value : value)
    (destruction_attribute origin_attribute : string) : outcome (list value) :=
  validate_destruction_time σ phylogeny destruction_attribute ;;
  (if negb (py_eq time (VStr "present"))
   then validate_origin_time σ phylogeny origin_attribute else Ret tt) ;;
  filter_out (λ node,
      a ← node_attrs σ phylogeny node;
      taxon_is_alive a time not_destroyed_value
                     destruction_attribute origin_attribute)
    (node_ids phylogeny).

(** ** Queries that annotate the attribute objects they return *)

(** [for r in d: d[r]["id"] = r], for a dictionary [d] from node ids to the
    attribute objects of the graph. *)
Definition annotate_ids (d : list (value * loc)) (σ : store) : store :=
  foldl (λ σ p, <[p.2 := <["id" := p.1]> (σ !!! p.2 : attrs)]> σ) σ d.

Definition get_roots (σ : store) (phylogeny : DiGraph loc)
    : list (value * loc) * store :=
  let roots :=
    filter (λ p, length (predecessors phylogeny p.1) = 0%nat) (nodes phylogeny) in
  (roots, annotate_ids roots σ).

Definition get_leaf_taxa (σ : store) (phylogeny : DiGraph loc)
    : list (value * loc) * store :=
  let extant :=
    filter (λ p, length (successors phylogeny p.1) = 0%nat) (nodes phylogeny) in
  (extant, annotate_ids extant σ).

Definition get_extant_taxa (σ : store) (phylogeny : DiGraph loc)
    (time not_destroyed_value : value)
    (destruction_attribute origin_attribute : string)
    : outcome (list (value * loc) * store) :=
  validate_destruction_time σ phylogeny destruction_attribute ;;
  (if negb (py_eq time (VStr "present"))
   then validate_origin_time σ phylogeny origin_attribute else Ret tt) ;;
  extant ← filter_out (λ p,
      taxon_is_alive (σ !!! p.2) time not_destroyed_value
                     destruction_attribute origin_attribute)
    (nodes phylogeny);
  Ret (extant, annotate_ids extant σ).

(** ** Lineages *)

(** The loop of [is_asexual_lineage]; [lineage_ids] is never empty. *)
Fixpoint lineage_walk {A} (fuel : nat) (phylogeny : DiGraph A)
    (lineage_ids : list value) : outcome bool :=
  match fuel with
  | O => OutOfFuel
  | S fuel' =>
      match last lineage_ids with
      | None => Raise IndexError
      | Some tip =>
          let successor_ids := successors phylogeny tip in
          if bool_decide (1 < length successor_ids)%nat then Ret false
          else match successor_ids with
               | [] => Ret true
               | s :: _ => lineage_walk fuel' phylogeny (lineage_ids ++ [s])
               end
      end
  end.

Definition is_asexual_lineage {A} (fuel : nat) (phylogeny : DiGraph A)
    : outcome bool :=
  let lineage_ids := get_root_ids phylogeny in
  if bool_decide (length lineage_ids ≠ 1%nat) then Ret false
  else lineage_walk fuel phylogeny lineage_ids.

(** The loop of [extract_asexual_lineage]. *)
Fixpoint ancestor_walk {A} (fuel : nat) (phylogeny : DiGraph A)
    (ids_on_lineage : list value) : outcome (list value) :=
  match fuel with
  | O => OutOfFuel
  | S fuel' =>
      match last ids_on_lineage with
      | None => Raise IndexError
      | Some tip =>
          match predecessors phylogeny tip with
          | [] => Ret ids_on_lineage
          | a :: _ => ancestor_walk fuel' phylogeny (ids_on_lineage ++ [a])
          end
      end
  end.

(** [phylogeny.subgraph(ids).copy()]: the nodes of [ids] and the edges
    between them, every attribute dictionary copied into a new object. *)
Definition subgraph_copy (σ : store) (phylogeny : DiGraph loc) (ids : list value)
    : DiGraph loc * store :=
  let kept := filter (λ p, p.1 ∈ ids) (nodes phylogeny) in
  (mkDiGraph (zip kept.*1 (seq (length σ) (length kept)))
             (filter (λ e, e.1 ∈ ids ∧ e.2 ∈ ids) (edges phylogeny)),
   σ ++ ((λ p, σ !!! p.2 : attrs) <$> kept)).

Definition extract_asexual_lineage (fuel : nat) (σ : store)
    (phylogeny : DiGraph loc) (taxa_id : value)
    : outcome (DiGraph loc * store) :=
  if negb (bool_decide (taxa_id ∈ node_ids phylogeny))
  then Raise (TaxonNotFound taxa_id)
  else if negb (is_asexual phylogeny) then Raise NotAsexual
  else
    ids_on_lineage ← ancestor_walk fuel phylogeny [taxa_id];
    Ret (subgraph_copy σ phylogeny ids_on_lineage).

(** ** Abstract lineages *)

(** The values held by the attribute dictionary of a state. *)
Inductive svalue : Type :=
  | SVal (v : value)
  | SList (l : list value)
  | SMembers (m : gmap value loc).

Abbreviation sattrs := (gmap string svalue).

(** [G.add_node(n)] *)
Definition add_node (g : DiGraph sattrs) (n : value) : DiGraph sattrs :=
  if bool_decide (n ∈ node_ids g) then g
  else mkDiGraph (nodes g ++ [(n, ∅)]) (edges g).

(** [G.add_edge(u, v)] *)
Definition add_edge (g : DiGraph sattrs) (u v : value) : DiGraph sattrs :=
  let g := add_node (add_node g u) v in
  if bool_decide ((u, v) ∈ edges g) then g
  else mkDiGraph (nodes g) (edges g ++ [(u, v)]).

(** [G.nodes[n][key] = x] *)
Definition node_set (g : DiGraph sattrs) (n : value) (key : string) (x : svalue)
    : outcome (DiGraph sattrs) :=
  if bool_decide (n ∈ node_ids g) then
    Ret (mkDiGraph
           ((λ p, if decide (p.1 = n) then (p.1, <[key := x]> p.2) else p)
              <$> nodes g)
           (edges g))
  else Raise (KeyError n).

(** [G.nodes[n][key]] *)
Definition node_get (g : DiGraph sattrs) (n : value) (key : string)
    : outcome svalue :=
  match node_lookup g n with
  | None => Raise (KeyError n)
  | Some d =>
      match d !! key with
      | Some x => Ret x
      | None => Raise (KeyError (VStr key))
      end
  end.

(** The reference [lineage.nodes[n]] itself. *)
Definition node_ref (g : DiGraph loc) (n : value) : outcome loc :=
  match node_lookup g n with
  | Some l => Ret l
  | None => Raise (KeyError n)
  end.

(** [[taxon[attr] for attr in attribute_list]] *)
Definition project (taxon : attrs) (attribute_list : list string)
    : outcome (list value) :=
  map_out (getitem taxon) attribute_list.

(** [for attr in attribute_list: G.nodes[n][attr] = taxon[attr]] *)
Definition copy_attrs (g : DiGraph sattrs) (n : value) (taxon : attrs)
    (attribute_list : list string) : outcome (DiGraph sattrs) :=
  fold_out (λ g attr, x ← getitem taxon attr; node_set g n attr (SVal x))
           g attribute_list.

(** [node_state == state], for the stored [node_state]. *)
Definition state_eq (stored : svalue) (state : list value) : bool :=
  match stored with
  | SList l => bool_decide (l = state)
  | _ => false
  end.

Section abstract.
Context (σ : store) (lineage : DiGraph loc) (attribute_list : list string)
        (origin_time_attr destruction_time_attr : string)
        (track_origin track_destruction : bool).

(** The taxon joins the open state. *)
Definition join_state (al : DiGraph sattrs) (state_id : Z)
    (lineage_id : value) (l : loc) : outcome (DiGraph sattrs) :=
  ms ← node_get al (VInt state_id) "members";
  al ← match ms with
       | SMembers m =>
           node_set al (VInt state_id) "members" (SMembers (<[lineage_id := l]> m))
       | _ => Raise TypeError
       end;
  if track_destruction then
    d ← getitem (σ !!! l) destruction_time_attr;
    node_set al (VInt state_id) "destruction_time" (SVal d)
  else Ret al.

(** A new state is opened from the taxon. *)
Definition new_state (al : DiGraph sattrs) (state_id : Z)
    (lineage_id : value) (l : loc) : outcome (DiGraph sattrs) :=
  let al := add_node al (VInt state_id) in
  let al := add_edge al (VInt (state_id - 1)) (VInt state_id) in
  al ← node_set al (VInt state_id) "state_id" (SVal (VInt state_id));
  ns ← project (σ !!! l) attribute_list;
  al ← node_set al (VInt state_id) "node_state" (SList ns);
  al ← (if track_origin then
          o ← getitem (σ !!! l) origin_time_attr;
          node_set al (VInt state_id) "origin_time" (SVal o)
        else Ret al);
  al ← copy_attrs al (VInt state_id) (σ !!! l) attribute_list;
  node_set al (VInt state_id) "members" (SMembers {[lineage_id := l]}).

(** The first state is opened from the root. *)
Definition root_state (root_id : value) (l : loc) : outcome (DiGraph sattrs) :=
  let state_id := 0%Z in
  let al := add_node (mkDiGraph [] []) (VInt state_id) in
  al ← node_set al (VInt state_id) "state_id" (SVal (VInt state_id));
  ns ← project (σ !!! l) attribute_list;
  al ← node_set al (VInt state_id) "node_state" (SList ns);
  al ← copy_attrs al (VInt state_id) (σ !!! l) attribute_list;
  al ← (if track_origin then
          o ← getitem (σ !!! l) origin_time_attr;
          node_set al (VInt state_id) "origin_time" (SVal o)
        else Ret al);
  al ← (if track_destruction then
          d ← getitem (σ !!! l) destruction_time_attr;
          node_set al (VInt state_id) "destruction_time" (SVal d)
        else Ret al);
  node_set al (VInt state_id) "members" (SMembers {[root_id := l]}).

Fixpoint abstract_loop (fuel : nat) (al : DiGraph sattrs) (state_id : Z)
    (lineage_id : value) : outcome (DiGraph sattrs) :=
  match fuel with
  | O => OutOfFuel
  | S fuel' =>
      match successors lineage lineage_id with
      | [] => Ret al
      | lineage_id :: _ =>
          l ← node_ref lineage lineage_id;
          state ← project (σ !!! l) attribute_list;
          stored ← node_get al (VInt state_id) "node_state";
          if state_eq stored state then
            al ← join_state al state_id lineage_id l;
            abstract_loop fuel' al state_id lineage_id
          else
            let state_id := (state_id + 1)%Z in
            al ← new_state al state_id lineage_id l;
            abstract_loop fuel' al state_id lineage_id
      end
  end.
End abstract.

Definition abstract_asexual_lineage (fuel : nat) (σ : store)
    (lineage : DiGraph loc) (attribute_list : list string)
    (origin_time_attr destruction_time_attr : string)
    : outcome (DiGraph sattrs) :=
  ok ← is_asexual_lineage fuel lineage;
  if negb ok then Raise NotAsexualLineage
  else if negb (all_taxa_have_attributes σ lineage attribute_list)
  then Raise AttributesNotUniversal
  else if bool_decide ("node_state" ∈ attribute_list)
  then Raise (ReservedAttribute "node_state")
  else if bool_decide ("members" ∈ attribute_list)
  then Raise (ReservedAttribute "members")
  else if bool_decide ("state_id" ∈ attribute_list)
  then Raise (ReservedAttribute "state_id")
  else
    let track_origin := all_taxa_have_attribute σ lineage origin_time_attr in
    let track_destruction :=
      all_taxa_have_attribute σ lineage destruction_time_attr in
    match get_root_ids lineage with
    | [] => Raise IndexError
    | root_id :: _ =>
        l ← node_ref lineage root_id;
        al ← root_state σ attribute_list origin_time_attr destruction_time_attr
                        track_origin track_destruction root_id l;
        abstract_loop σ lineage attribute_list origin_time_attr
                      destruction_time_attr track_origin track_destruction
                      fuel al 0 root_id
    end.

(** Reading a returned abstract lineage. *)
Definition attr_of {A} (g : DiGraph (gmap string A)) (n : value) (key : string)
    : option A :=
  node_lookup g n ≫= λ d, d !! key.

Definition state_attr (al : DiGraph sattrs) (state_id : Z) (key : string)
    : option svalue :=
  attr_of al (VInt state_id) key.

Definition members_of (al : DiGraph sattrs) (state_id : Z)
    : option (gmap value loc) :=
  match state_attr al state_id "members" with
  | Some (SMembers m) => Some m
  | _ => None
  end.

(** ** Rootedness

    [has_single_root] and [get_num_independent_phylogenies] wrap two networkx
    functions.  Module [nx] follows networkx: the components are found by a
    breadth-first search over successors and predecessors, one search from
    every node not seen before; [is_weakly_connected] refuses the null graph
    and otherwise compares the size of the first component with the size of
    the graph; [number_weakly_connected_components] counts the components. *)

Module nx.
Section wcc.
Context {A : Type}.
Implicit Types (G : DiGraph A).

(** Marks and queues those of [ws] that were not seen before. *)
Definition visit (ws : list value) (st : list value * list value)
    : list value * list value :=
  foldl (λ st w,
           if bool_decide (w ∈ st.1) then st
           else (st.1 ++ [w], st.2 ++ [w]))
        st ws.

Fixpoint bfs_levels (fuel : nat) G (seen thislevel : list value)
    : list value :=
  match fuel with
  | O => seen
  | S fuel' =>
      match thislevel with
      | [] => seen
      | _ =>
          let st :=
            foldl (λ st v, visit (successors G v ++ predecessors G v) st)
                  (seen, []) thislevel in
          bfs_levels fuel' G st.1 st.2
      end
  end.

(** Every level but the last marks a new node, so the search needs no
    more levels than the graph has nodes. *)
Definition plain_bfs G (source : value) : list value :=
  bfs_levels (length (nodes G)) G [source] [source].

Fixpoint components_from G (vs seen : list value) : list (list value) :=
  match vs with
  | [] => []
  | v :: vs' =>
      if bool_decide (v ∈ seen) then components_from G vs' seen
      else let c := plain_bfs G v in c :: components_from G vs' (seen ++ c)
  end.

Definition weakly_connected_components G : list (list value) :=
  components_from G (node_ids G) [].

Definition is_weakly_connected G : outcome bool :=
  if bool_decide (length (nodes G) = 0%nat) then Raise NetworkXPointlessConcept
  else
    match weakly_connected_components G with
    | [] => Raise IndexError
    | c :: _ => Ret (bool_decide (length c = length (nodes G)))
    end.

Definition number_weakly_connected_components G : Z :=
  Z.of_nat (length (weakly_connected_components G)).
End wcc.
End nx.

Definition has_single_root {A} (phylogeny : DiGraph A) : outcome bool :=
  nx.is_weakly_connected phylogeny.

Definition get_num_independent_phylogenies {A} (phylogeny : DiGraph A) : Z :=
  nx.number_weakly_connected_components phylogeny.

(** ** The trail of a walk

    [trail next fuel x] lists the nodes visited from [x] by moving to the
    first element of [next] until a node has none.  The loops of
    [is_asexual_lineage], [extract_asexual_lineage] and
    [abstract_asexual_lineage] are related to it below. *)

Fixpoint trail (next : value → list value) (fuel : nat) (x : value)
    : option (list value) :=
  match fuel with
  | O => None
  | S fuel' =>
      match next x with
      | [] => Some [x]
      | y :: _ => (x ::.) <$> trail next fuel' y
      end
  end.

Definition returns_or_raises {A} (m : outcome A) : Prop := m ≠ OutOfFuel.

(** ** The graphs of the examples *)

(** The chain A → B → C → D. *)
Definition chain_ABCD : DiGraph loc :=
  mkDiGraph
    [(VStr "A", 0); (VStr "B", 1); (VStr "C", 2); (VStr "D", 3)]
    [(VStr "A", VStr "B"); (VStr "B", VStr "C"); (VStr "C", VStr "D")].

(** ** The abstract lineage under construction *)

(** The node of state [i]. *)
Definition sid (i : nat) : value := VInt (Z.of_nat i).

(** The members of the states [0..k] are not empty and split the taxa
    [visited] between them. *)
Definition members_inv (M : nat → option (gmap value loc)) (k : nat)
    (visited : list value) : Prop :=
  (∀ i, i ≤ k → ∃ m, M i = Some m ∧ m ≠ ∅) ∧
  (∀ n, n ∈ visited ↔ ∃ i m, i ≤ k ∧ M i = Some m ∧ is_Some (m !! n)) ∧
  (∀ i j m m' n, i ≤ k → j ≤ k → M i = Some m → M j = Some m' →
                 is_Some (m !! n) → is_Some (m' !! n) → i = j).

(** Only the dictionary of node [s] differs between [g] and [g'], and in it
    no key that satisfies [P]. *)
Definition frame (s : value) (P : string → Prop) (g g' : DiGraph sattrs) : Prop :=
  node_ids g' = node_ids g ∧ edges g' = edges g ∧
  ∀ m key, m ≠ s ∨ P key → attr_of g' m key = attr_of g m key.

(** The runs of taxa with equal projections, as member dictionaries: [cur]
    holds the members of the open state, whose projection is [state], and
    [rest] lists the taxa still to come, each with its attribute object and
    its projection. *)
Fixpoint runs (state : list value) (cur : gmap value loc)
    (rest : list (value * loc * list value)) : list (gmap value loc) :=
  match rest with
  | [] => [cur]
  | (y, l, s) :: rest' =>
      if bool_decide (state = s) then runs state (<[y := l]> cur) rest'
      else cur :: runs s {[y := l]} rest'
  end.

(** The abstract lineage with open state [k], the members of its states
    listed by [Ms] and the projection [ns] of the open state. *)
Definition abstract_at (al : DiGraph sattrs) (k : nat)
    (Ms : list (gmap value loc)) (ns : list value) : Prop :=
  node_ids al = sid <$> seq 0 (S k) ∧
  edges al = (λ i, (sid i, sid (S i))) <$> seq 0 k ∧
  length Ms = S k ∧
  (∀ i, members_of al (Z.of_nat i) = Ms !! i) ∧
  (∀ i, i ≤ k → state_attr al (Z.of_nat i) "state_id" = Some (SVal (sid i))) ∧
  state_attr al (Z.of_nat k) "node_state" = Some (SList ns).

(** The taxon [y] of a lineage with its attribute object and its
    projection. *)
Definition row_of (σ : store) (lineage : DiGraph loc)
    (attribute_list : list string) (y : value)
    (r : value * loc * list value) : Prop :=
  r.1.1 = y ∧ node_lookup lineage y = Some r.1.2 ∧
  project (σ !!! r.1.2) attribute_list = Ret r.2.

(** One taxon, destroyed at time 5. *)
Definition destroyed_store : store :=
  [ <["destruction_time" := VInt 5]> (<["origin_time" := VInt 1]> ∅) ].
Definition one_taxon : DiGraph loc := mkDiGraph [(VInt 1, 0)] [].

(** One taxon whose destruction value is a string other than the sentinel. *)
Definition destroyed_late_store : store :=
  [ <["destruction_time" := VStr "zeta"]> (<["origin_time" := VInt 1]> ∅) ].

(** One taxon, not destroyed, that records its destruction under [death]
    and has no [destruction_time]. *)
Definition death_store : store :=
  [ <["death" := VStr "none"]> (<["origin_time" := VInt 1]> ∅) ].

(** One taxon destroyed at time 3 according to [death], with a stale
    [destruction_time]. *)
Definition stale_store : store :=
  [ <["death" := VInt 3]>
      (<["destruction_time" := VStr "none"]> (<["origin_time" := VInt 1]> ∅)) ].

(** The aliveness test as the specification words it: the sentinel is
    compared with the value of [destruction_attribute]. *)
Definition taxon_is_alive_as_specified (node : attrs)
    (time not_destroyed_value : value)
    (destruction_attribute origin_attribute : string) : outcome bool :=
  d ← getitem node destruction_attribute;
  not_dead ← (if py_eq d not_destroyed_value then Ret true else py_gt d time);
  if not_dead : bool then
    if py_eq time (VStr "present") then Ret true
    else o ← getitem node origin_attribute; py_lt o time
  else Ret false.

(** Two taxa a → b with different traits, both with a destruction time. *)
Definition two_states_store : store :=
  [ <["trait" := VStr "x"]> (<["destruction_time" := VInt 4]> ∅);
    <["trait" := VStr "y"]> (<["destruction_time" := VInt 9]> ∅) ].
Definition two_states : DiGraph loc :=
  mkDiGraph [(VStr "a", 0); (VStr "b", 1)] [(VStr "a", VStr "b")].

(** A lineage r → a beside a cycle b ⇄ c. *)
Definition stray_store : store := [∅; ∅; ∅; ∅].
Definition stray_cycle : DiGraph loc :=
  mkDiGraph [(VStr "r", 0); (VStr "a", 1); (VStr "b", 2); (VStr "c", 3)]
            [(VStr "r", VStr "a"); (VStr "b", VStr "c"); (VStr "c", VStr "b")].

(** The graph without nodes. *)
Definition null_graph : DiGraph loc := mkDiGraph [] [].

(** ** Weak connectivity *)

(** Two nodes are linked when an edge joins them in either direction. *)
Definition linked {A} (g : DiGraph A) : relation value :=
  λ u v, edge g u v ∨ edge g v u.

(** The graph, taken as undirected, is one connected component. *)
Definition weakly_connected {A} (g : DiGraph A) : Prop :=
  ∀ u v, u ∈ node_ids g → v ∈ node_ids g → rtc (linked g) u v.

(** Attribute objects for the chain A → B → C → D. *)
Definition taxon_attrs (trait : string) (origin destruction : Z) : attrs :=
  <["trait" := VStr trait]>
    (<["origin_time" := VInt origin]>
       (<["destruction_time" := VInt destruction]> ∅)).

Definition chain_store : store :=
  [taxon_attrs "x" 0 1; taxon_attrs "x" 1 2;
   taxon_attrs "y" 2 3; taxon_attrs "z" 3 4].

(** The position of a node in a list, a rank that grows along the edges of
    the example graphs. *)
Definition rank_in (order : list value) (v : value) : nat :=
  default 0 (fst <$> list_find (λ x, x = v) order).

(** Six attribute objects with the traits x, x, y, y, y, z. *)
Definition six_store : store :=
  [taxon_attrs "x" 0 1; taxon_attrs "x" 1 2; taxon_attrs "y" 2 3;
   taxon_attrs "y" 3 4; taxon_attrs "y" 4 5; taxon_attrs "z" 5 6].

(** ** Graphs with cycles *)

(** A root r whose descendants a → b → a form a cycle. *)
Definition rooted_cycle : DiGraph loc :=
  mkDiGraph [(VStr "r", 0); (VStr "a", 1); (VStr "b", 2)]
            [(VStr "r", VStr "a"); (VStr "a", VStr "b"); (VStr "b", VStr "a")].

(** A cycle a → b → c → a with the descendant c → d. *)
Definition cycle_tail : DiGraph loc :=
  mkDiGraph [(VStr "a", 0); (VStr "b", 1); (VStr "c", 2); (VStr "d", 3)]
            [(VStr "a", VStr "b"); (VStr "b", VStr "c"); (VStr "c", VStr "a");
             (VStr "c", VStr "d")].

(** The cycle a → b → a, in which every taxon has exactly one parent. *)
Definition two_cycle : DiGraph loc :=
  mkDiGraph [(VStr "a", 0); (VStr "b", 1)]
            [(VStr "a", VStr "b"); (VStr "b", VStr "a")].

(** ** Independent phylogenies *)

(** [sorted(components, key=len, reverse=True)].  Python's sort is stable,
    also in reverse: components of equal size keep their order.  A component
    is placed before the components after it that are not larger. *)
Fixpoint insert_by_size (c : list value) (sorted : list (list value))
    : list (list value) :=
  match sorted with
  | [] => [c]
  | c' :: rest =>
      if bool_decide (length c' ≤ length c) then c :: sorted
      else c' :: insert_by_size c rest
  end.

Definition sorted_by_size (components : list (list value))
    : list (list value) :=
  foldr insert_by_size [] components.

(** [[phylogeny.subgraph(comp).copy() for comp in components]] *)
Fixpoint subgraph_copies (σ : store) (phylogeny : DiGraph loc)
    (components : list (list value)) : list (DiGraph loc) * store :=
  match components with
  | [] => ([], σ)
  | comp :: rest =>
      let c := subgraph_copy σ phylogeny comp in
      let r := subgraph_copies c.2 phylogeny rest in
      (c.1 :: r.1, r.2)
  end.

Definition get_independent_phylogenies (σ : store) (phylogeny : DiGraph loc)
    : list (DiGraph loc) * store :=
  let components :=
    sorted_by_size (nx.weakly_connected_components phylogeny) in
  subgraph_copies σ phylogeny components.

(** From the largest to the smallest. *)
Fixpoint descending (l : list (list value)) : Prop :=
  match l with
  | [] => True
  | c :: l' => Forall (λ c', length c' ≤ length c) l' ∧ descending l'
  end.

(** Two parents a → c ← b, and a taxon d on its own. *)
Definition forest_store : store :=
  [taxon_attrs "x" 0 1; taxon_attrs "y" 0 2; taxon_attrs "z" 3 4;
   taxon_attrs "w" 5 6].
Definition forest : DiGraph loc :=
  mkDiGraph [(VStr "d", 3); (VStr "a", 0); (VStr "b", 1); (VStr "c", 2)]
            [(VStr "a", VStr "c"); (VStr "b", VStr "c")].

(** ** The root above a taxon *)

(** The end of the walk back from a taxon, with fuel for as many steps as
    the graph has nodes. *)
Definition root_of {A} (g : DiGraph A) (n : value) : option value :=
  trail (predecessors g) (length (nodes g)) n ≫= last.

(** ** The states of an abstract lineage and their members *)

(** The taxa of a lineage from the root to the tip, each with its attribute
    object and its projection, cut where the projection changes: [open]
    holds the taxa of the open state, whose projection is [state], and
    [rest] the taxa still to come. *)
Fixpoint segments (open : list (value * loc * list value))
    (state : list value) (rest : list (value * loc * list value))
    : list (list (value * loc * list value)) :=
  match rest with
  | [] => [open]
  | r :: rest' =>
      if bool_decide (state = r.2) then segments (open ++ [r]) state rest'
      else open :: segments [r] r.2 rest'
  end.

(** State [i] of [al] is as it was opened from the taxon of the row [h]: its
    [node_state] is the projection of the taxon; its listed attributes have
    the values of the taxon, apart from [origin_time] and
    [destruction_time], for which the function has writes of its own; and
    its [origin_time], when origin times are tracked and [origin_time] is
    not a listed attribute, is the origin time of the taxon. *)
Definition opened_from (σ : store) (attribute_list : list string)
    (origin_time_attr : string) (track_origin : bool)
    (al : DiGraph sattrs) (i : nat) (h : value * loc * list value) : Prop :=
  state_attr al (Z.of_nat i) "node_state" = Some (SList h.2) ∧
  (∀ a, a ∈ attribute_list → a ≠ "origin_time" → a ≠ "destruction_time" →
     state_attr al (Z.of_nat i) a
     = SVal <$> ((σ !!! h.1.2 : attrs) !! a)) ∧
  (track_origin = true → "origin_time" ∉ attribute_list →
     state_attr al (Z.of_nat i) "origin_time"
     = SVal <$> ((σ !!! h.1.2 : attrs) !! origin_time_attr)).

(** The [destruction_time] of state [i], whose run of taxa is [seg]: when
    destruction times are tracked, the first state and every state with two
    or more taxa have that of the last taxon of the run; the other states
    have none, unless [destruction_time] is a listed attribute. *)
Definition destruction_from (σ : store) (attribute_list : list string)
    (destruction_time_attr : string)
    (track_destruction : bool) (al : DiGraph sattrs) (i : nat)
    (seg : list (value * loc * list value)) : Prop :=
  if track_destruction && bool_decide (i = 0 ∨ 2 ≤ length seg)
  then state_attr al (Z.of_nat i) "destruction_time"
       = last seg ≫= λ r,
           SVal <$> ((σ !!! r.1.2 : attrs) !! destruction_time_attr)
  else "destruction_time" ∉ attribute_list →
       state_attr al (Z.of_nat i) "destruction_time" = None.
(** * Properties *)

(** ** Monadic plumbing *)

Lemma bind_Ret {A B} (m : outcome A) (f : A → outcome B) (b : B) :
  m ≫= f = Ret b ↔ ∃ a, m = Ret a ∧ f a = Ret b.
Proof.
  destruct m as [a| |]; simpl; split.
  - intros H. by exists a.
  - by intros (a' & [= <-] & H).
  - done.
  - by intros (a' & [=] & _).
  - done.
  - by intros (a' & [=] & _).
Qed.

Lemma bind_returns_or_raises {A B} (m : outcome A) (f : A → outcome B) :
  returns_or_raises m →
  (∀ a, m = Ret a → returns_or_raises (f a)) →
  returns_or_raises (m ≫= f).
Proof. destruct m; simpl; intros Hm Hf; [by apply Hf | done | done]. Qed.

(** ** Edges, successors and predecessors *)

Section graph_facts.
Context {A : Type}.
Implicit Types (g : DiGraph A) (n u v : value).

Lemma elem_of_successors g u v : v ∈ successors g u ↔ edge g u v.
Proof.
  unfold successors, edge. rewrite list_elem_of_fmap. split.
  - intros [[a b] [-> [Ha Hin]%list_elem_of_filter]]. simpl in *. by subst.
  - intros H. exists (u, v). split; [done|]. by apply list_elem_of_filter.
Qed.

Lemma elem_of_predecessors g u v : u ∈ predecessors g v ↔ edge g u v.
Proof.
  unfold predecessors, edge. rewrite list_elem_of_fmap. split.
  - intros [[a b] [-> [Ha Hin]%list_elem_of_filter]]. simpl in *. by subst.
  - intros H. exists (u, v). split; [done|]. by apply list_elem_of_filter.
Qed.

Lemma ranked_acyclic g (rank : value → nat) :
  (∀ u v, edge g u v → rank u < rank v) → acyclic g.
Proof.
  intros Hrank n Hn.
  assert (∀ u v, tc (edge g) u v → rank u < rank v) as Htc.
  { induction 1 as [u v Huv | u v w Huv _ IH].
    - by apply Hrank.
    - apply Hrank in Huv. lia. }
  apply Htc in Hn. lia.
Qed.

Lemma tc_flip_edge g u v : tc (flip (edge g)) u v → tc (edge g) v u.
Proof.
  induction 1 as [u v Huv | u v w Huv _ IH].
  - by apply tc_once.
  - eapply tc_r; eauto.
Qed.
End graph_facts.

(** ** Trails are finite in an acyclic graph *)

Section trail_facts.
Context (next : value → list value) (U : list value).
Let R : relation value := λ x y, y ∈ next x.
Hypothesis next_closed : ∀ x y, R x y → y ∈ U.
Hypothesis next_acyclic : ∀ n, ¬ tc R n n.

Lemma trail_fuel_visited fuel vs x :
  NoDup vs → (∀ v, v ∈ vs → v ∈ U ∧ tc R v x) → x ∈ U →
  length U ≤ fuel + length vs →
  is_Some (trail next fuel x).
Proof using next_closed next_acyclic.
  revert vs x. induction fuel as [|fuel IH]; intros vs x Hnd Hvs Hx Hlen.
  - exfalso.
    assert (x ∉ vs) as Hfresh.
    { intros Hin. apply (next_acyclic x). by apply Hvs. }
    assert (length (x :: vs) ≤ length U) as Hle.
    { apply submseteq_length, NoDup_submseteq.
      - by constructor.
      - intros y [->|Hy]%elem_of_cons; [done|]. by apply Hvs. }
    simpl in *. lia.
  - simpl. destruct (next x) as [|y ys] eqn:Hnext; [by eexists|].
    assert (R x y) as Hxy by (unfold R; rewrite Hnext; left).
    assert (x ∉ vs) as Hfresh.
    { intros Hin. apply (next_acyclic x). by apply Hvs. }
    destruct (IH (x :: vs) y) as [t Ht].
    + by constructor.
    + intros v [->|Hv]%elem_of_cons.
      * split; [done|]. by apply tc_once.
      * split; [by apply Hvs|]. eapply tc_r; [by apply Hvs|done].
    + by eapply next_closed.
    + simpl. lia.
    + rewrite Ht. by eexists.
Qed.

Lemma trail_terminates fuel x :
  x ∈ U → length U ≤ fuel → is_Some (trail next fuel x).
Proof using next_closed next_acyclic.
  intros Hx Hlen. apply (trail_fuel_visited fuel [] x); simpl.
  - constructor.
  - intros v Hv. by apply elem_of_nil in Hv.
  - done.
  - lia.
Qed.
End trail_facts.

Section trail_shape.
Context (next : value → list value).

Lemma trail_fuel_mono fuel fuel' x t :
  trail next fuel x = Some t → fuel ≤ fuel' → trail next fuel' x = Some t.
Proof.
  revert fuel' x t. induction fuel as [|fuel IH]; intros fuel' x t Ht Hle; [done|].
  destruct fuel' as [|fuel']; [lia|]. simpl in *.
  destruct (next x) as [|y ys]; [done|].
  destruct (trail next fuel y) as [t'|] eqn:Hy; [|done].
  rewrite (IH fuel' y t'); [done|done|lia].
Qed.

Lemma trail_start fuel x t :
  trail next fuel x = Some t → ∃ t', t = x :: t'.
Proof.
  destruct fuel as [|fuel]; [done|]. simpl.
  destruct (next x) as [|y ys]; [intros [= <-]; by eexists|].
  destruct (trail next fuel y); intros [= <-]. by eexists.
Qed.

Lemma trail_length fuel x t :
  trail next fuel x = Some t → length t ≤ fuel.
Proof.
  revert x t. induction fuel as [|fuel IH]; intros x t; [done|]. simpl.
  destruct (next x) as [|y ys]; [intros [= <-]; simpl; lia|].
  destruct (trail next fuel y) as [t'|] eqn:Hy; intros [= <-].
  apply IH in Hy. simpl. lia.
Qed.

Lemma trail_end fuel x t :
  trail next fuel x = Some t → ∃ z, last t = Some z ∧ next z = [].
Proof.
  revert x t. induction fuel as [|fuel IH]; intros x t; [done|]. simpl.
  destruct (next x) as [|y ys] eqn:Hx; [intros [= <-]; by exists x|].
  destruct (trail next fuel y) as [t'|] eqn:Hy; intros [= <-].
  destruct (IH _ _ Hy) as (z & Hz & Hnz). exists z. split; [|done].
  destruct (trail_start _ _ _ Hy) as [t'' ->]. by rewrite last_cons_cons.
Qed.

(** Every node of a trail but the first is reached from the first. *)
Lemma trail_reach fuel x t y :
  trail next fuel x = Some t → y ∈ t → y = x ∨ tc (λ a b, b ∈ next a) x y.
Proof.
  revert x t. induction fuel as [|fuel IH]; intros x t; [done|]. simpl.
  destruct (next x) as [|z zs] eqn:Hx.
  { intros [= <-] ->%list_elem_of_singleton. by left. }
  destruct (trail next fuel z) as [t'|] eqn:Hz; intros [= <-].
  intros [->|Hy]%elem_of_cons; [by left|]. right.
  assert (z ∈ next x) as Hxz by (rewrite Hx; left).
  destruct (IH _ _ Hz Hy) as [->|Htc].
  - by apply tc_once.
  - by eapply tc_l.
Qed.

Lemma trail_NoDup fuel x t :
  (∀ n, ¬ tc (λ a b, b ∈ next a) n n) →
  trail next fuel x = Some t → NoDup t.
Proof.
  intros Hacyc. revert x t. induction fuel as [|fuel IH]; intros x t; [done|].
  simpl. destruct (next x) as [|z zs] eqn:Hx.
  { intros [= <-]. apply NoDup_singleton. }
  destruct (trail next fuel z) as [t'|] eqn:Hz; intros [= <-].
  constructor; [|by eapply IH].
  intros Hin. apply (Hacyc x).
  assert (z ∈ next x) as Hxz by (rewrite Hx; left).
  destruct (trail_reach _ _ _ _ Hz Hin) as [->|Htc].
  - by apply tc_once.
  - by eapply tc_l.
Qed.

(** Two neighbours on a trail: the second is the first choice of [next]
    at the first. *)
Lemma trail_link fuel x t i a b :
  trail next fuel x = Some t →
  t !! i = Some a → t !! S i = Some b → head (next a) = Some b.
Proof.
  revert x t i. induction fuel as [|fuel IH]; intros x t i; [done|]. simpl.
  destruct (next x) as [|z zs] eqn:Hx.
  { intros [= <-]. by destruct i. }
  destruct (trail next fuel z) as [t'|] eqn:Hz; intros [= <-].
  destruct (trail_start _ _ _ Hz) as [t'' ->].
  destruct i as [|i]; simpl.
  - intros [= <-] [= <-]. by rewrite Hx.
  - intros Ha Hb. by eapply (IH z (z :: t'') i).
Qed.
End trail_shape.

(** ** The loops follow trails *)

Section walks.
Context {A : Type}.
Implicit Types (g : DiGraph A).

Lemma ancestor_walk_trail g fuel pre x :
  ancestor_walk fuel g (pre ++ [x]) =
    match trail (predecessors g) fuel x with
    | Some t => Ret (pre ++ t)
    | None => OutOfFuel
    end.
Proof.
  revert pre x. induction fuel as [|fuel IH]; intros pre x; [done|].
  simpl. rewrite last_snoc.
  destruct (predecessors g x) as [|a l]; [done|].
  rewrite IH. destruct (trail (predecessors g) fuel a); simpl; [|done].
  by rewrite <- app_assoc.
Qed.

Lemma lineage_walk_trail g fuel pre x t :
  trail (successors g) fuel x = Some t →
  lineage_walk fuel g (pre ++ [x]) =
    Ret (forallb (λ y, bool_decide (length (successors g y) ≤ 1)) t).
Proof.
  revert pre x t. induction fuel as [|fuel IH]; intros pre x t; [done|].
  simpl. rewrite last_snoc.
  destruct (successors g x) as [|s l] eqn:Hx.
  { intros [= <-]. simpl. rewrite Hx. done. }
  destruct (trail (successors g) fuel s) as [t'|] eqn:Hs; intros [= <-].
  simpl. rewrite Hx. destruct l as [|s' l]; simpl.
  - rewrite (IH _ _ _ Hs). done.
  - done.
Qed.

Lemma successors_trail_terminates g fuel x :
  graph_wf g → acyclic g → x ∈ node_ids g → length (nodes g) ≤ fuel →
  is_Some (trail (successors g) fuel x).
Proof.
  intros (_ & _ & Hclosed) Hacyc Hx Hlen.
  apply (trail_terminates _ (node_ids g)); [| |done|].
  - intros a b Hab%elem_of_successors. by apply Hclosed in Hab as [_ ?].
  - intros n Hn. apply (Hacyc n).
    eapply tc_congruence with (f := id); [|exact Hn].
    intros a b Hab. by apply elem_of_successors.
  - unfold node_ids. by rewrite length_fmap.
Qed.

Lemma predecessors_trail_terminates g fuel x :
  graph_wf g → acyclic g → x ∈ node_ids g → length (nodes g) ≤ fuel →
  is_Some (trail (predecessors g) fuel x).
Proof.
  intros (_ & _ & Hclosed) Hacyc Hx Hlen.
  apply (trail_terminates _ (node_ids g)); [| |done|].
  - intros a b Hab%elem_of_predecessors. by apply Hclosed in Hab as [? _].
  - intros n Hn. apply (Hacyc n), tc_flip_edge.
    eapply tc_congruence with (f := id); [|exact Hn].
    intros a b Hab. by apply elem_of_predecessors.
  - unfold node_ids. by rewrite length_fmap.
Qed.
End walks.

(** ** No operation outside the loops exhausts fuel *)

Lemma map_out_returns_or_raises {A B} (f : A → outcome B) (l : list A) :
  (∀ x, returns_or_raises (f x)) → returns_or_raises (map_out f l).
Proof.
  intros Hf. induction l as [|x l IH]; simpl; [done|].
  apply bind_returns_or_raises; [done|]. intros y _.
  apply bind_returns_or_raises; [done|]. by intros r _.
Qed.

Lemma fold_out_returns_or_raises {A B} (f : B → A → outcome B) (l : list A) acc :
  (∀ b x, returns_or_raises (f b x)) → returns_or_raises (fold_out f acc l).
Proof.
  intros Hf. revert acc. induction l as [|x l IH]; intros acc; simpl; [done|].
  apply bind_returns_or_raises; [done|]. intros b _. apply IH.
Qed.

Lemma getitem_returns_or_raises d key : returns_or_raises (getitem d key).
Proof. unfold getitem. by destruct (d !! key). Qed.

Lemma node_set_returns_or_raises g n key x : returns_or_raises (node_set g n key x).
Proof. unfold node_set. by case_bool_decide. Qed.

Lemma node_get_returns_or_raises g n key : returns_or_raises (node_get g n key).
Proof.
  unfold node_get. destruct (node_lookup g n) as [d|]; [|done].
  by destruct (d !! key).
Qed.

Lemma node_ref_returns_or_raises g n : returns_or_raises (node_ref g n).
Proof. unfold node_ref. by destruct (node_lookup g n). Qed.

Lemma project_returns_or_raises taxon attribute_list :
  returns_or_raises (project taxon attribute_list).
Proof. apply map_out_returns_or_raises, getitem_returns_or_raises. Qed.

Lemma copy_attrs_returns_or_raises g n taxon attribute_list :
  returns_or_raises (copy_attrs g n taxon attribute_list).
Proof.
  apply fold_out_returns_or_raises. intros b x.
  apply bind_returns_or_raises; [apply getitem_returns_or_raises|].
  intros y _. apply node_set_returns_or_raises.
Qed.

Create HintDb ror.
#[local] Hint Resolve getitem_returns_or_raises node_set_returns_or_raises
  node_get_returns_or_raises node_ref_returns_or_raises
  project_returns_or_raises copy_attrs_returns_or_raises : ror.

Ltac ror_step :=
  first
    [ apply bind_returns_or_raises; [|intros ? _]
    | solve [auto with ror]
    | done ].

Section abstract_terminates.
Context (σ : store) (lineage : DiGraph loc) (attribute_list : list string)
        (origin_time_attr destruction_time_attr : string)
        (track_origin track_destruction : bool).

Lemma join_state_returns_or_raises al state_id lineage_id l :
  returns_or_raises
    (join_state σ destruction_time_attr track_destruction
                al state_id lineage_id l).
Proof.
  unfold join_state. repeat ror_step.
  - destruct a; auto with ror; done.
  - destruct track_destruction; repeat ror_step.
Qed.

Lemma new_state_returns_or_raises al state_id lineage_id l :
  returns_or_raises
    (new_state σ attribute_list origin_time_attr track_origin
               al state_id lineage_id l).
Proof.
  unfold new_state. repeat ror_step.
  destruct track_origin; repeat ror_step.
Qed.

Lemma root_state_returns_or_raises root_id l :
  returns_or_raises
    (root_state σ attribute_list origin_time_attr destruction_time_attr
                track_origin track_destruction root_id l).
Proof.
  unfold root_state. repeat ror_step.
  - destruct track_origin; repeat ror_step.
  - destruct track_destruction; repeat ror_step.
Qed.

Lemma abstract_loop_returns_or_raises fuel al state_id x t :
  trail (successors lineage) fuel x = Some t →
  returns_or_raises
    (abstract_loop σ lineage attribute_list origin_time_attr
                   destruction_time_attr track_origin track_destruction
                   fuel al state_id x).
Proof.
  revert al state_id x t.
  induction fuel as [|fuel IH]; intros al state_id x t; [done|]. simpl.
  destruct (successors lineage x) as [|y ys]; [done|].
  destruct (trail (successors lineage) fuel y) as [t'|] eqn:Hy; [|done].
  intros _. repeat ror_step.
  destruct (state_eq _ _).
  - apply bind_returns_or_raises; [apply join_state_returns_or_raises|].
    intros al' _. by eapply IH.
  - apply bind_returns_or_raises; [apply new_state_returns_or_raises|].
    intros al' _. by eapply IH.
Qed.
End abstract_terminates.

(** The roots are nodes. *)
Lemma get_root_ids_nodes {A} (g : DiGraph A) r :
  r ∈ get_root_ids g → r ∈ node_ids g ∧ predecessors g r = [].
Proof.
  unfold get_root_ids. intros [Hlen Hin]%list_elem_of_filter. split; [done|].
  by destruct (predecessors g r).
Qed.


(** ** The node table *)

Section node_table.
Context {A : Type}.
Implicit Types (g : DiGraph A) (n : value).

Lemma node_lookup_elem_of g n a :
  node_lookup g n = Some a → (n, a) ∈ nodes g.
Proof.
  unfold node_lookup. intros Hfind.
  destruct (list_find _ _) as [[i [k b]]|] eqn:Hf; simplify_eq/=.
  apply list_find_Some in Hf as (Hi & <- & _).
  by eapply list_elem_of_lookup_2.
Qed.

Lemma node_lookup_Some g n a :
  NoDup (node_ids g) → (n, a) ∈ nodes g → node_lookup g n = Some a.
Proof.
  unfold node_lookup, node_ids. intros Hnd Hin.
  destruct (list_find_elem_of (λ p : value * A, p.1 = n) (nodes g) (n, a))
    as [[i [k b]] Hf]; [done..|].
  rewrite Hf. simpl. f_equal.
  apply list_find_Some in Hf as (Hi & Hk & _). simpl in Hk. subst k.
  apply list_elem_of_lookup_1 in Hin as [j Hj].
  assert (i = j) as ->.
  { eapply NoDup_lookup; [exact Hnd|..].
    - by rewrite list_lookup_fmap, Hi.
    - by rewrite list_lookup_fmap, Hj. }
  by simplify_eq.
Qed.

Lemma node_lookup_None g n : n ∉ node_ids g → node_lookup g n = None.
Proof.
  intros Hn. destruct (node_lookup g n) as [a|] eqn:Ha; [|done].
  exfalso. apply Hn. apply node_lookup_elem_of in Ha.
  unfold node_ids. by apply (list_elem_of_fmap_2 fst) in Ha.
Qed.

Lemma node_lookup_is_Some g n : n ∈ node_ids g → is_Some (node_lookup g n).
Proof.
  unfold node_ids, node_lookup.
  intros [[k a] [-> Hin]]%list_elem_of_fmap. simpl.
  destruct (list_find_elem_of (λ p : value * A, p.1 = k) (nodes g) (k, a))
    as [r Hr]; [done..|].
  rewrite Hr. by eexists.
Qed.

Lemma fst_filter_fst (P : value → Prop) `{!∀ x, Decision (P x)}
    (l : list (value * A)) :
  (filter (λ p, P p.1) l).*1 = filter P l.*1.
Proof.
  induction l as [|[k a] l IH]; [done|].
  rewrite fmap_cons, !filter_cons. cbn [fst].
  destruct (decide (P k)); [rewrite fmap_cons|]; by rewrite IH.
Qed.
End node_table.

(** ** Lineage extraction *)

Lemma predecessors_trail_nodes {A} (g : DiGraph A) fuel x t :
  graph_wf g → x ∈ node_ids g → trail (predecessors g) fuel x = Some t →
  ∀ y, y ∈ t → y ∈ node_ids g.
Proof.
  intros (_ & _ & Hclosed) Hx Ht y Hy.
  destruct (trail_reach _ _ _ _ _ Ht Hy) as [->|Htc]; [done|].
  clear Ht Hy Hx. induction Htc as [a b Hab|a b c Hab _ IH]; [|done].
  apply elem_of_predecessors in Hab. by apply Hclosed in Hab as [? _].
Qed.

Section subgraph.
Context (σ : store) (g : DiGraph loc) (ids : list value).
Hypothesis Hwf : world_wf σ g.
Hypothesis Hids : ∀ n, n ∈ ids → n ∈ node_ids g.

Let kept := filter (λ p : value * loc, p.1 ∈ ids) (nodes g).

Lemma subgraph_copy_node_ids :
  node_ids (subgraph_copy σ g ids).1 = filter (.∈ ids) (node_ids g).
Proof.
  unfold subgraph_copy, node_ids. simpl.
  rewrite fst_zip; [|by rewrite length_seq, length_fmap].
  exact (fst_filter_fst (λ x, x ∈ ids) (nodes g)).
Qed.

Lemma subgraph_copy_nodes n :
  n ∈ node_ids (subgraph_copy σ g ids).1 ↔ n ∈ ids.
Proof using Hids.
  rewrite subgraph_copy_node_ids, list_elem_of_filter.
  split; [by intros [? _]|]. intros Hn. split; [done|by apply Hids].
Qed.

Lemma subgraph_copy_edges u v :
  edge (subgraph_copy σ g ids).1 u v ↔ edge g u v ∧ u ∈ ids ∧ v ∈ ids.
Proof.
  unfold edge, subgraph_copy. simpl. rewrite list_elem_of_filter. simpl.
  split; [by intros [[? ?] ?]|by intros (? & ? & ?)].
Qed.

Lemma subgraph_copy_locs :
  ((nodes (subgraph_copy σ g ids).1).*2 : list nat) = seq (length σ) (length kept).
Proof.
  unfold subgraph_copy. simpl.
  rewrite snd_zip; [done|by rewrite length_seq, length_fmap].
Qed.

Lemma subgraph_copy_store_prefix :
  take (length σ) (subgraph_copy σ g ids).2 = σ.
Proof. unfold subgraph_copy. simpl. apply take_app_length. Qed.

Lemma subgraph_copy_wf :
  world_wf (subgraph_copy σ g ids).2 (subgraph_copy σ g ids).1.
Proof using Hwf Hids.
  destruct Hwf as ((Hnd & Hne & Hclosed) & Hlocs & Halloc).
  refine (conj (conj _ (conj _ _)) (conj _ _)).
  - rewrite subgraph_copy_node_ids. by apply NoDup_filter.
  - unfold subgraph_copy. simpl. by apply NoDup_filter.
  - intros u v (Huv & Hu & Hv)%subgraph_copy_edges.
    split; by apply subgraph_copy_nodes.
  - rewrite subgraph_copy_locs. apply NoDup_seq.
  - intros l. rewrite subgraph_copy_locs. intros Hl%elem_of_seq.
    unfold subgraph_copy. simpl. rewrite length_app, length_fmap.
    fold kept. lia.
Qed.

Lemma subgraph_copy_fresh l :
  l ∈ (nodes (subgraph_copy σ g ids).1).*2 → length σ ≤ l.
Proof. rewrite subgraph_copy_locs. intros Hl%elem_of_seq. lia. Qed.

Lemma subgraph_copy_attrs n :
  n ∈ ids →
  node_attrs (subgraph_copy σ g ids).2 (subgraph_copy σ g ids).1 n
  = node_attrs σ g n.
Proof using Hwf Hids.
  intros Hn. destruct Hwf as ((Hnd & Hne & Hclosed) & Hlocs & Halloc).
  assert (n ∈ kept.*1) as Hk.
  { replace (kept.*1) with (filter (λ x, x ∈ ids) (node_ids g)).
    - apply list_elem_of_filter. auto.
    - symmetry. exact (fst_filter_fst (λ x, x ∈ ids) (nodes g)). }
  apply list_elem_of_fmap in Hk as ([k l] & -> & Hk). simpl in *.
  apply list_elem_of_lookup_1 in Hk as [i Hi].
  assert ((k, l) ∈ nodes g) as Hg.
  { apply list_elem_of_lookup_2 in Hi. unfold kept in Hi.
    by apply list_elem_of_filter in Hi as [_ ?]. }
  unfold node_attrs.
  rewrite (node_lookup_Some g k l Hnd Hg).
  rewrite (node_lookup_Some _ k (length σ + i)).
  - f_equal. unfold subgraph_copy. simpl. fold kept.
    rewrite lookup_total_app_r by lia.
    replace (length σ + i - length σ) with i by lia.
    apply list_lookup_total_correct.
    by rewrite list_lookup_fmap, Hi.
  - change (NoDup (node_ids (subgraph_copy σ g ids).1)).
    rewrite subgraph_copy_node_ids. by apply NoDup_filter.
  - simpl. fold kept.
    apply (list_elem_of_lookup_2 _ i).
    apply lookup_zip_with_Some. exists k, (length σ + i). split_and!; [done|..].
    + by rewrite list_lookup_fmap, Hi.
    + apply lookup_seq. split; [done|]. by eapply lookup_lt_Some.
Qed.
End subgraph.

Lemma is_asexual_spec {A} (g : DiGraph A) n :
  is_asexual g = true → n ∈ node_ids g → length (predecessors g n) ≤ 1.
Proof.
  unfold is_asexual. intros Hall Hn.
  apply Is_true_true, forallb_True in Hall.
  rewrite Forall_forall in Hall. apply Hall in Hn.
  by apply bool_decide_unpack in Hn.
Qed.

(** C6.  [extract_asexual_lineage] raises when the taxon is not in the
    graph, and when the graph is not asexual.  Otherwise whatever it
    returns is a copy of the subgraph induced by the ids of the backward
    walk from the taxon: the walk starts at the taxon, moves to the only
    predecessor and stops at a node without predecessors; the copy has
    exactly the walked nodes, exactly the edges of the graph between them in
    their original direction, the same attributes in new objects, and the
    objects of the caller are left as they were.  On an acyclic graph it
    does return.  On the chain A → B → C → D, extraction at D gives the
    nodes A, B, C, D and the edges A → B, B → C, C → D. *)
Theorem extract_asexual_lineage_spec :
  (∀ (σ : store) (g : DiGraph loc) (taxa_id : value) (fuel : nat),
     (taxa_id ∉ node_ids g →
        extract_asexual_lineage fuel σ g taxa_id = Raise (TaxonNotFound taxa_id)) ∧
     (taxa_id ∈ node_ids g → is_asexual g = false →
        extract_asexual_lineage fuel σ g taxa_id = Raise NotAsexual) ∧
     (world_wf σ g → taxa_id ∈ node_ids g → is_asexual g = true →
        (acyclic g → length (nodes g) ≤ fuel →
           ∃ r, extract_asexual_lineage fuel σ g taxa_id = Ret r) ∧
        (∀ lin σ',
           extract_asexual_lineage fuel σ g taxa_id = Ret (lin, σ') →
           ∃ ids,
             ancestor_walk fuel g [taxa_id] = Ret ids ∧
             ids !! 0 = Some taxa_id ∧
             (∀ i a b, ids !! i = Some a → ids !! S i = Some b →
                       predecessors g a = [b]) ∧
             (∃ r, last ids = Some r ∧ predecessors g r = []) ∧
             (∀ n, n ∈ node_ids lin ↔ n ∈ ids) ∧
             (∀ u v, edge lin u v ↔ edge g u v ∧ u ∈ ids ∧ v ∈ ids) ∧
             world_wf σ' lin ∧
             (∀ n, n ∈ ids → node_attrs σ' lin n = node_attrs σ g n) ∧
             (∀ l, l ∈ (nodes lin).*2 → length σ ≤ l) ∧
             take (length σ) σ' = σ))) ∧
  (∀ σ : store,
     ∃ lin σ',
       extract_asexual_lineage 4 σ chain_ABCD (VStr "D") = Ret (lin, σ') ∧
       node_ids lin = [VStr "A"; VStr "B"; VStr "C"; VStr "D"] ∧
       edges lin = [(VStr "A", VStr "B"); (VStr "B", VStr "C");
                    (VStr "C", VStr "D")]).
Proof.
  split.
  - intros σ g taxa_id fuel. unfold extract_asexual_lineage. split_and!.
    + intros Hn. by rewrite bool_decide_eq_false_2.
    + intros Hn Hsex. by rewrite bool_decide_eq_true_2, Hsex.
    + intros Hwf Hn Hsex. rewrite bool_decide_eq_true_2, Hsex by done. simpl.
      change [taxa_id] with ([] ++ [taxa_id]). rewrite ancestor_walk_trail.
      split.
      * intros Hacyc Hfuel.
        destruct (predecessors_trail_terminates g fuel taxa_id) as [t ->];
          [apply Hwf|done..|].
        by eexists.
      * intros lin σ'.
        destruct (trail (predecessors g) fuel taxa_id) as [t|] eqn:Ht; [|done].
        simpl. intros [= <- <-]. exists t.
        assert (∀ y, y ∈ t → y ∈ node_ids g) as Hin.
        { eapply predecessors_trail_nodes; [apply Hwf|done..]. }
        split_and!.
        -- done.
        -- destruct (trail_start _ _ _ _ Ht) as [t' ->]. done.
        -- intros i a b Ha Hb.
           pose proof (trail_link _ _ _ _ _ _ _ Ht Ha Hb) as Hhd.
           assert (length (predecessors g a) ≤ 1) as Hlen.
           { apply is_asexual_spec; [done|].
             apply Hin. by eapply list_elem_of_lookup_2. }
           destruct (predecessors g a) as [|p [|??]]; simplify_eq/=; [done|lia].
        -- by eapply trail_end.
        -- intros n. by apply subgraph_copy_nodes.
        -- intros u v. apply subgraph_copy_edges.
        -- by apply subgraph_copy_wf.
        -- intros n Hnt. by apply subgraph_copy_attrs.
        -- apply subgraph_copy_fresh.
        -- apply subgraph_copy_store_prefix.
  - intros σ. eexists _, _. split; [reflexivity|]. split; reflexivity.
Qed.

(** ** Chains *)

Lemma filter_none {A} (P : A → Prop) `{!∀ x, Decision (P x)} (l : list A) :
  (∀ x, x ∈ l → ¬ P x) → filter P l = [].
Proof.
  induction l as [|a l IH]; intros HP; [done|].
  rewrite filter_cons. destruct (decide (P a)) as [Hp|Hp].
  - exfalso. by apply (HP a); [left|].
  - apply IH. intros x Hx. apply HP. by right.
Qed.

Lemma filter_only {A} (P : A → Prop) `{!∀ x, Decision (P x)} (l : list A) r :
  NoDup l → r ∈ l → (∀ x, x ∈ l → P x ↔ x = r) → filter P l = [r].
Proof.
  induction l as [|a l IH]; intros Hnd Hr HP.
  { by apply elem_of_nil in Hr. }
  apply NoDup_cons in Hnd as [Ha Hnd]. rewrite filter_cons.
  destruct (decide (P a)) as [Hp|Hp].
  - apply HP in Hp as ->; [|left]. f_equal.
    apply filter_none. intros x Hx Hpx.
    apply HP in Hpx; [|by right]. by subst.
  - apply IH; [done| |].
    + apply elem_of_cons in Hr as [->|Hr]; [|done].
      exfalso. apply Hp. by apply HP; [left|].
    + intros x Hx. apply HP. by right.
Qed.

Lemma NoDup_all_equal {A} (l : list A) :
  NoDup l → (∀ a b, a ∈ l → b ∈ l → a = b) → length l ≤ 1.
Proof.
  destruct l as [|a [|b l]]; simpl; [lia..|].
  intros [Ha _]%NoDup_cons Heq. exfalso. apply Ha.
  rewrite (Heq a b); [left|left|right; left].
Qed.

Section chains.
Context {A : Type}.
Implicit Types (g : DiGraph A).

Lemma successors_NoDup g x : NoDup (edges g) → NoDup (successors g x).
Proof.
  intros Hnd. unfold successors. apply NoDup_fmap_2_strong.
  - intros [a b] [c d] [Ha _]%list_elem_of_filter [Hc _]%list_elem_of_filter.
    simpl in *. congruence.
  - by apply NoDup_filter.
Qed.

Lemma acyclic_sub g (h : DiGraph A) :
  (∀ u v, edge h u v → edge g u v) → acyclic g → acyclic h.
Proof.
  intros Hsub Hacyc n Hn. apply (Hacyc n).
  eapply tc_congruence with (f := id); [|exact Hn]. apply Hsub.
Qed.

(** A graph with one root whose nodes have at most one successor each
    passes [is_asexual_lineage]. *)
Lemma is_asexual_lineage_chain g r fuel :
  graph_wf g → acyclic g → get_root_ids g = [r] →
  (∀ x, length (successors g x) ≤ 1) →
  length (nodes g) ≤ fuel →
  is_asexual_lineage fuel g = Ret true.
Proof.
  intros Hwf Hacyc Hroot Hsucc Hfuel. unfold is_asexual_lineage.
  rewrite Hroot. simpl.
  destruct (successors_trail_terminates g fuel r) as [t Ht]; [done..| |done|].
  { eapply get_root_ids_nodes. rewrite Hroot. left. }
  change [r] with ([] ++ [r]). rewrite (lineage_walk_trail _ _ _ _ _ Ht).
  f_equal. apply Is_true_true, forallb_True, Forall_forall.
  intros y _. by apply bool_decide_pack.
Qed.
End chains.

(** ** The extracted lineage is an asexual lineage *)

Section extracted.
Context (σ : store) (g : DiGraph loc) (taxa_id : value) (fuel : nat)
        (t : list value).
Hypothesis Hwf : world_wf σ g.
Hypothesis Hacyc : acyclic g.
Hypothesis Hsex : is_asexual g = true.
Hypothesis Hin : taxa_id ∈ node_ids g.
Hypothesis Ht : trail (predecessors g) fuel taxa_id = Some t.

Let lin := (subgraph_copy σ g t).1.

Lemma back_trail_nodes y : y ∈ t → y ∈ node_ids g.
Proof using Hwf Hin Ht.
  eapply predecessors_trail_nodes; [apply Hwf|done..].
Qed.

Lemma back_trail_NoDup : NoDup t.
Proof using Hacyc Ht.
  eapply trail_NoDup; [|done].
  intros n Hn. apply (Hacyc n), tc_flip_edge.
  eapply tc_congruence with (f := id); [|exact Hn].
  intros a b Hab. by apply elem_of_predecessors.
Qed.

(** A node of the trail is the last one, without predecessors, or is
    followed by its only predecessor. *)
Lemma back_trail_cases i a :
  t !! i = Some a →
  (predecessors g a = [] ∧ last t = Some a) ∨
  (∃ b, t !! S i = Some b ∧ predecessors g a = [b]).
Proof using Hwf Hsex Hin Ht.
  intros Ha. destruct (t !! S i) as [b|] eqn:Hb.
  - right. exists b. split; [done|].
    pose proof (trail_link _ _ _ _ _ _ _ Ht Ha Hb) as Hhd.
    assert (length (predecessors g a) ≤ 1) as Hlen.
    { apply is_asexual_spec; [done|].
      apply back_trail_nodes. by eapply list_elem_of_lookup_2. }
    destruct (predecessors g a) as [|p [|??]]; simplify_eq/=; [done|lia].
  - left. destruct (trail_end _ _ _ _ Ht) as (z & Hz & Hnz).
    assert (last t = Some a) as Hlast.
    { rewrite last_lookup. apply lookup_ge_None in Hb.
      apply lookup_lt_Some in Ha as Hlt.
      replace (pred (length t)) with i by lia. done. }
    split; [|done]. congruence.
Qed.

Lemma extracted_successors_le x : length (successors lin x) ≤ 1.
Proof using Hwf Hacyc Hsex Hin Ht.
  apply NoDup_all_equal.
  { apply successors_NoDup. unfold lin, subgraph_copy. simpl.
    apply NoDup_filter, Hwf. }
  assert (∀ u, u ∈ successors lin x →
            ∃ i, t !! i = Some u ∧ t !! S i = Some x) as Hpos.
  { intros u Hu%elem_of_successors.
    apply subgraph_copy_edges in Hu as (Hxu & _ & Hu).
    apply list_elem_of_lookup_1 in Hu as [i Hi]. exists i. split; [done|].
    apply elem_of_predecessors in Hxu.
    destruct (back_trail_cases i u Hi) as [[Hnil _]|(b & Hb & Hpred)].
    - rewrite Hnil in Hxu. by apply elem_of_nil in Hxu.
    - rewrite Hpred in Hxu. apply list_elem_of_singleton in Hxu. by subst. }
  intros u v Hu Hv.
  destruct (Hpos u Hu) as (i & Hiu & Hix).
  destruct (Hpos v Hv) as (j & Hjv & Hjx).
  assert (S i = S j) as Hij.
  { eapply NoDup_lookup; [apply back_trail_NoDup|done..]. }
  simplify_eq. done.
Qed.

Lemma extracted_roots :
  ∃ r, last t = Some r ∧ get_root_ids lin = [r].
Proof using Hwf Hacyc Hsex Hin Ht.
  destruct (trail_end _ _ _ _ Ht) as (r & Hr & Hnr).
  exists r. split; [done|]. unfold get_root_ids.
  assert (r ∈ t) as Hrt by by apply last_Some_elem_of.
  apply filter_only.
  - apply subgraph_copy_wf; [done|apply back_trail_nodes].
  - apply subgraph_copy_nodes; [apply back_trail_nodes|done].
  - intros x Hx%subgraph_copy_nodes; [|apply back_trail_nodes].
    apply list_elem_of_lookup_1 in Hx as [i Hi].
    destruct (back_trail_cases i x Hi) as [[Hnil Hlast]|(b & Hb & Hpred)].
    + split; [intros _; congruence|]. intros _.
      destruct (predecessors lin x) as [|p ps] eqn:Hp; [done|].
      assert (p ∈ predecessors lin x) as Hpx by (rewrite Hp; left).
      apply elem_of_predecessors, subgraph_copy_edges in Hpx as (Hpx & _).
      apply elem_of_predecessors in Hpx. rewrite Hnil in Hpx.
      by apply elem_of_nil in Hpx.
    + assert (b ∈ predecessors lin x) as Hbx.
      { apply elem_of_predecessors, subgraph_copy_edges. split_and!.
        - apply elem_of_predecessors. rewrite Hpred. left.
        - by eapply list_elem_of_lookup_2.
        - by eapply list_elem_of_lookup_2. }
      split.
      * intros Hlen. destruct (predecessors lin x); [|done].
        by apply elem_of_nil in Hbx.
      * intros ->. rewrite Hnr in Hpred. done.
Qed.

Lemma extracted_is_lineage fuel' :
  length (nodes lin) ≤ fuel' → is_asexual_lineage fuel' lin = Ret true.
Proof using Hwf Hacyc Hsex Hin Ht.
  intros Hfuel. destruct extracted_roots as (r & _ & Hroots).
  apply (is_asexual_lineage_chain lin r); [| |done| |done].
  - apply subgraph_copy_wf; [done|apply back_trail_nodes].
  - eapply acyclic_sub; [|exact Hacyc].
    intros u v Huv. by apply subgraph_copy_edges in Huv as [? _].
  - apply extracted_successors_le.
Qed.

Lemma extracted_is_asexual : is_asexual lin = true.
Proof using Hwf Hsex Hin Ht.
  unfold is_asexual. apply Is_true_true, forallb_True, Forall_forall.
  intros x Hx%subgraph_copy_nodes; [|apply back_trail_nodes].
  apply bool_decide_pack.
  pose proof (is_asexual_spec g x Hsex (back_trail_nodes x Hx)) as Hle.
  etrans; [|exact Hle].
  apply submseteq_length, NoDup_submseteq.
  - unfold predecessors. apply NoDup_fmap_2_strong.
    + intros [a b] [c d] [Ha _]%list_elem_of_filter [Hc _]%list_elem_of_filter.
      simpl in *. congruence.
    + apply NoDup_filter. unfold lin, subgraph_copy. simpl.
      apply NoDup_filter, Hwf.
  - intros u Hu%elem_of_predecessors.
    apply subgraph_copy_edges in Hu as [Hu _]. by apply elem_of_predecessors.
Qed.
End extracted.

(** C10.  On an asexual acyclic graph the lineage extracted at one of its
    nodes has exactly one root, no node of it has more than one successor
    or more than one predecessor, and it passes [is_asexual_lineage], the
    check that [abstract_asexual_lineage] makes of its input. *)
Theorem extracted_lineage_is_asexual_lineage
    (σ : store) (g : DiGraph loc) (taxa_id : value) (fuel : nat) :
  world_wf σ g → acyclic g → is_asexual g = true → taxa_id ∈ node_ids g →
  length (nodes g) ≤ fuel →
  ∃ lin σ',
    extract_asexual_lineage fuel σ g taxa_id = Ret (lin, σ') ∧
    (∃ r, get_root_ids lin = [r]) ∧
    (∀ x, length (successors lin x) ≤ 1) ∧
    is_asexual lin = true ∧
    ∀ fuel', length (nodes lin) ≤ fuel' →
             is_asexual_lineage fuel' lin = Ret true.
Proof.
  intros Hwf Hacyc Hsex Hin Hfuel.
  destruct (predecessors_trail_terminates g fuel taxa_id) as [t Ht];
    [apply Hwf|done..|].
  exists (subgraph_copy σ g t).1, (subgraph_copy σ g t).2. split_and!.
  - unfold extract_asexual_lineage.
    rewrite bool_decide_eq_true_2, Hsex by done. simpl.
    change [taxa_id] with ([] ++ [taxa_id]).
    rewrite ancestor_walk_trail, Ht. reflexivity.
  - destruct (extracted_roots σ g taxa_id fuel t) as (r & _ & Hr); try done.
    by exists r.
  - intros x. by eapply extracted_successors_le.
  - by eapply extracted_is_asexual.
  - intros fuel' Hfuel'. by eapply extracted_is_lineage.
Qed.

(** ** Reading and writing the states of an abstract lineage *)

Lemma node_lookup_cons {A} (k : value) (a : A) ns es m :
  node_lookup (mkDiGraph ((k, a) :: ns) es) m =
    if decide (k = m) then Some a else node_lookup (mkDiGraph ns es) m.
Proof.
  unfold node_lookup. simpl. destruct (decide (k = m)); [done|].
  by destruct (list_find _ ns) as [[? [? ?]]|].
Qed.

Lemma node_lookup_edges_irrel {A} (ns : list (value * A)) es es' m :
  node_lookup (mkDiGraph ns es) m = node_lookup (mkDiGraph ns es') m.
Proof. done. Qed.

Lemma node_lookup_snoc {A} (n : value) (a : A) ns es m :
  node_lookup (mkDiGraph (ns ++ [(n, a)]) es) m =
    match node_lookup (mkDiGraph ns es) m with
    | Some d => Some d
    | None => if decide (n = m) then Some a else None
    end.
Proof.
  induction ns as [|[k b] ns IH].
  - simpl. rewrite node_lookup_cons. by destruct (decide (n = m)).
  - rewrite <- app_comm_cons, !node_lookup_cons.
    by destruct (decide (k = m)).
Qed.

Lemma node_lookup_update (n : value) (key : string) (x : svalue) ns es m :
  node_lookup
    (mkDiGraph
       ((λ p : value * sattrs,
           if decide (p.1 = n) then (p.1, <[key := x]> p.2) else p) <$> ns) es) m
  = (λ d, if decide (m = n) then <[key := x]> d else d)
      <$> node_lookup (mkDiGraph ns es) m.
Proof.
  induction ns as [|[k b] ns IH]; [done|].
  rewrite fmap_cons, (node_lookup_cons k b). simpl.
  destruct (decide (k = n)) as [->|Hkn]; simpl; rewrite node_lookup_cons.
  - destruct (decide (n = m)) as [->|Hnm]; simpl.
    + by rewrite decide_True.
    + rewrite IH. done.
  - destruct (decide (k = m)) as [->|Hkm]; simpl.
    + by rewrite decide_False.
    + rewrite IH. done.
Qed.

Lemma getitem_Some (d : gmap string value) key x :
  d !! key = Some x → getitem d key = Ret x.
Proof. unfold getitem. by intros ->. Qed.

Section abstract_graph.
Implicit Types (g : DiGraph sattrs) (n m : value).

Lemma node_set_spec g n key x :
  n ∈ node_ids g →
  ∃ g', node_set g n key x = Ret g' ∧
        node_ids g' = node_ids g ∧ edges g' = edges g ∧
        ∀ m key', attr_of g' m key' =
                    if decide (m = n ∧ key' = key) then Some x
                    else attr_of g m key'.
Proof.
  intros Hn. unfold node_set. rewrite bool_decide_eq_true_2 by done.
  eexists. split; [done|]. split_and!.
  - unfold node_ids. simpl. rewrite <- list_fmap_compose.
    apply list_fmap_ext. intros i [k d] _. simpl. by destruct (decide (k = n)).
  - done.
  - intros m key'. unfold attr_of. destruct g as [ns es]. simpl.
    rewrite node_lookup_update.
    destruct (node_lookup_is_Some (mkDiGraph ns es) n Hn) as [d Hd].
    destruct (decide (m = n)) as [->|Hmn].
    + rewrite Hd. simpl. destruct (decide (key' = key)) as [->|Hk].
      * rewrite decide_True by done. apply lookup_insert_eq.
      * rewrite decide_False by (by intros [_ ?]). by apply lookup_insert_ne.
    + rewrite decide_False by (by intros [? _]).
      destruct (node_lookup _ m); done.
Qed.

Lemma add_node_spec g n :
  n ∉ node_ids g →
  node_ids (add_node g n) = node_ids g ++ [n] ∧
  edges (add_node g n) = edges g ∧
  ∀ m key, attr_of (add_node g n) m key = attr_of g m key.
Proof.
  intros Hn. unfold add_node. rewrite bool_decide_eq_false_2 by done.
  split_and!.
  - unfold node_ids. simpl. by rewrite fmap_app.
  - done.
  - intros m key. unfold attr_of. destruct g as [ns es]. simpl.
    rewrite node_lookup_snoc.
    destruct (node_lookup (mkDiGraph ns es) m) eqn:Hm; [done|].
    destruct (decide (n = m)); done.
Qed.

Lemma add_edge_spec g u v :
  u ∈ node_ids g → v ∈ node_ids g → (u, v) ∉ edges g →
  add_edge g u v = mkDiGraph (nodes g) (edges g ++ [(u, v)]).
Proof.
  intros Hu Hv Huv. unfold add_edge, add_node.
  rewrite (bool_decide_eq_true_2 _ Hu). rewrite (bool_decide_eq_true_2 _ Hv).
  by rewrite bool_decide_eq_false_2.
Qed.

Lemma copy_attrs_spec g n taxon attribute_list :
  n ∈ node_ids g →
  (∀ a, a ∈ attribute_list → is_Some (taxon !! a)) →
  ∃ g', copy_attrs g n taxon attribute_list = Ret g' ∧
        node_ids g' = node_ids g ∧ edges g' = edges g ∧
        ∀ m key, m ≠ n ∨ key ∉ attribute_list →
                 attr_of g' m key = attr_of g m key.
Proof.
  unfold copy_attrs. revert g.
  induction attribute_list as [|a l IH]; intros g Hn Hall; cbn [fold_out].
  { by eexists. }
  destruct (Hall a) as [x Hx]; [left|].
  rewrite (getitem_Some _ _ _ Hx). cbn [mbind outcome_bind].
  destruct (node_set_spec g n a (SVal x) Hn) as (g1 & -> & Hids & Hes & Hattr).
  cbn [mbind outcome_bind]. destruct (IH g1) as (g' & -> & Hids' & Hes' & Hattr').
  { by rewrite Hids. }
  { intros b Hb. apply Hall. by right. }
  exists g'. split; [done|]. split_and!; [congruence..|].
  intros m key Hm. rewrite Hattr'.
  - rewrite Hattr. apply decide_False. intros [-> ->].
    destruct Hm as [?|Hm]; [done|]. apply Hm. left.
  - destruct Hm as [?|Hm]; [by left|]. right. intros ?. apply Hm. by right.
Qed.

Lemma node_get_spec g n key x :
  attr_of g n key = Some x → node_get g n key = Ret x.
Proof.
  unfold attr_of, node_get. destruct (node_lookup g n) as [d|]; [|done].
  simpl. by intros ->.
Qed.
End abstract_graph.

Lemma project_spec taxon attribute_list :
  (∀ a, a ∈ attribute_list → is_Some (taxon !! a)) →
  ∃ ns, project taxon attribute_list = Ret ns.
Proof.
  unfold project. induction attribute_list as [|a l IH]; intros Hall;
    cbn [map_out].
  { by eexists. }
  destruct (Hall a) as [x Hx]; [left|].
  rewrite (getitem_Some _ _ _ Hx). cbn [mbind outcome_bind].
  destruct IH as [ns ->]; [intros b Hb; apply Hall; by right|].
  by eexists.
Qed.

Lemma all_taxa_have_attributes_spec σ g attribute_list n l a :
  all_taxa_have_attributes σ g attribute_list = true →
  (n, l) ∈ nodes g → a ∈ attribute_list →
  is_Some ((σ !!! l : gmap string value) !! a).
Proof.
  unfold all_taxa_have_attributes. intros Hall Hn Ha.
  apply Is_true_true, forallb_True in Hall. rewrite Forall_forall in Hall.
  apply Hall in Hn. apply forallb_True in Hn. rewrite Forall_forall in Hn.
  apply Hn in Ha. by apply bool_decide_unpack in Ha.
Qed.

Lemma all_taxa_have_attribute_spec σ g attribute n l :
  all_taxa_have_attribute σ g attribute = true →
  (n, l) ∈ nodes g →
  is_Some ((σ !!! l : gmap string value) !! attribute).
Proof.
  unfold all_taxa_have_attribute. intros Hall Hn.
  apply Is_true_true, forallb_True in Hall. rewrite Forall_forall in Hall.
  apply Hall in Hn. by apply bool_decide_unpack in Hn.
Qed.

(** ** The invariant of the abstraction loop *)

Lemma frame_refl s P g : frame s P g g.
Proof. by split_and!. Qed.

Lemma frame_trans s P g1 g2 g3 :
  frame s P g1 g2 → frame s P g2 g3 → frame s P g1 g3.
Proof.
  intros (Hi1 & He1 & Ha1) (Hi2 & He2 & Ha2). split_and!; [congruence..|].
  intros m key Hm. by rewrite Ha2, Ha1.
Qed.

Lemma frame_weaken s (P Q : string → Prop) g g' :
  (∀ key, Q key → P key) → frame s P g g' → frame s Q g g'.
Proof.
  intros HPQ (Hi & He & Ha). split_and!; [done..|].
  intros m key [?|?]; apply Ha; [by left|right; by apply HPQ].
Qed.

Lemma node_set_frame g n key x :
  n ∈ node_ids g →
  ∃ g', node_set g n key x = Ret g' ∧ frame n (λ key', key' ≠ key) g g' ∧
        attr_of g' n key = Some x.
Proof.
  intros Hn. destruct (node_set_spec g n key x Hn) as (g' & Hg & Hi & He & Ha).
  exists g'. split; [done|]. split.
  - split_and!; [done..|]. intros m key' Hm. rewrite Ha.
    apply decide_False. intros [-> ->]. by destruct Hm.
  - rewrite Ha. by apply decide_True.
Qed.

Lemma copy_attrs_frame g n taxon attribute_list :
  n ∈ node_ids g →
  (∀ a, a ∈ attribute_list → is_Some (taxon !! a)) →
  ∃ g', copy_attrs g n taxon attribute_list = Ret g' ∧
        frame n (λ key, key ∉ attribute_list) g g'.
Proof.
  intros Hn Hall.
  destruct (copy_attrs_spec g n taxon attribute_list Hn Hall)
    as (g' & Hg & Hi & He & Ha).
  exists g'. split; [done|]. by split_and!.
Qed.

Lemma sid_inj i j : sid i = sid j → i = j.
Proof. unfold sid. intros [= H]. lia. Qed.

Lemma elem_of_sids j n : sid j ∈ sid <$> seq 0 n ↔ j < n.
Proof.
  rewrite list_elem_of_fmap. split.
  - intros (i & ->%sid_inj & Hi%elem_of_seq). lia.
  - intros Hj. exists j. split; [done|]. apply elem_of_seq. lia.
Qed.

Section members.
Implicit Types (M : nat → option (gmap value nat)).

Lemma members_inv_ext M M' k V :
  (∀ i, i ≤ k → M i = M' i) → members_inv M k V → members_inv M' k V.
Proof.
  intros Heq (H1 & H2 & H3). split_and!.
  - intros i Hi. rewrite <- Heq by done. by apply H1.
  - intros n. rewrite H2. split; intros (i & m & Hi & Hm & Hn);
      exists i, m; (split_and!; [done| |done]).
    + by rewrite <- Heq.
    + by rewrite Heq.
  - intros i j m m' n Hi Hj Hm Hm'. rewrite <- Heq in Hm, Hm' by done.
    by eapply H3.
Qed.

Lemma members_inv_root r (l : nat) :
  members_inv (λ i, if decide (i = 0) then Some {[r := l]} else None) 0 [r].
Proof.
  split_and!.
  - intros i Hi. rewrite decide_True by lia. eexists. split; [done|].
    apply map_non_empty_singleton.
  - intros n. rewrite list_elem_of_singleton. split.
    + intros ->. exists 0, {[r := l]}. split_and!; [lia|done|].
      rewrite lookup_singleton_eq. by eexists.
    + intros (i & m & Hi & Hm & [x Hx]). rewrite decide_True in Hm by lia.
      simplify_eq. by apply lookup_singleton_Some in Hx as [? _].
  - intros. lia.
Qed.

Lemma members_inv_join M k V m y (l : nat) :
  members_inv M k V → M k = Some m → y ∉ V →
  members_inv (λ i, if decide (i = k) then Some (<[y := l]> m) else M i)
              k (V ++ [y]).
Proof.
  intros (H1 & H2 & H3) Hk Hy. split_and!.
  - intros i Hi. destruct (decide (i = k)) as [->|Hik].
    + eexists. split; [done|]. apply insert_non_empty.
    + by apply H1.
  - intros n. rewrite elem_of_app, list_elem_of_singleton, H2. split.
    + intros [(i & mi & Hi & Hmi & Hn)| ->].
      * destruct (decide (i = k)) as [->|Hik].
        -- exists k, (<[y := l]> m). rewrite decide_True by done.
           split_and!; [done..|]. simplify_eq.
           destruct (decide (y = n)) as [->|Hyn].
           ++ rewrite lookup_insert_eq. by eexists.
           ++ by rewrite lookup_insert_ne.
        -- exists i, mi. by rewrite decide_False.
      * exists k, (<[y := l]> m). rewrite decide_True by done.
        split_and!; [done..|]. rewrite lookup_insert_eq. by eexists.
    + intros (i & mi & Hi & Hmi & Hn).
      destruct (decide (i = k)) as [->|Hik].
      * simplify_eq. destruct (decide (y = n)) as [->|Hyn]; [by right|].
        left. rewrite lookup_insert_ne in Hn by done. by exists k, m.
      * left. by exists i, mi.
  - intros i j mi mj n Hi Hj Hmi Hmj Hni Hnj.
    destruct (decide (i = j)) as [|Hij]; [done|]. exfalso.
    assert (∀ a ma mb, a ≠ k → a ≤ k →
              M a = Some ma → is_Some (ma !! n) →
              (<[y := l]> m : gmap value nat) = mb → is_Some (mb !! n) →
              False) as Haux.
    { intros a ma mb Hak Ha Hma Hna <- Hnb.
      destruct (decide (y = n)) as [->|Hyn].
      - apply Hy, H2. by exists a, ma.
      - rewrite lookup_insert_ne in Hnb by done.
        apply Hak. by eapply (H3 a k ma m n). }
    destruct (decide (i = k)) as [->|Hik], (decide (j = k)) as [->|Hjk];
      simplify_eq.
    + by eapply (Haux j mj).
    + by eapply (Haux i mi).
    + apply Hij. by eapply H3.
Qed.

Lemma members_inv_new M k V y (l : nat) :
  members_inv M k V → y ∉ V →
  members_inv (λ i, if decide (i = S k) then Some {[y := l]} else M i)
              (S k) (V ++ [y]).
Proof.
  intros (H1 & H2 & H3) Hy. split_and!.
  - intros i Hi. destruct (decide (i = S k)) as [->|Hik].
    + eexists. split; [done|]. apply map_non_empty_singleton.
    + apply H1. lia.
  - intros n. rewrite elem_of_app, list_elem_of_singleton, H2. split.
    + intros [(i & mi & Hi & Hmi & Hn)| ->].
      * exists i, mi. rewrite decide_False by lia. split_and!; [lia|done..].
      * exists (S k), {[y := l]}. rewrite decide_True by done.
        split_and!; [done..|]. rewrite lookup_singleton_eq. by eexists.
    + intros (i & mi & Hi & Hmi & Hn).
      destruct (decide (i = S k)) as [->|Hik].
      * simplify_eq. right. destruct Hn as [x Hx].
        by apply lookup_singleton_Some in Hx as [? _].
      * left. exists i, mi. split_and!; [lia|done..].
  - intros i j mi mj n Hi Hj Hmi Hmj Hni Hnj.
    assert (∀ a ma, a ≤ k → M a = Some ma → is_Some (ma !! n) →
              is_Some (({[y := l]} : gmap value nat) !! n) → False) as Haux.
    { intros a ma Ha Hma Hna [x Hx].
      apply lookup_singleton_Some in Hx as [<- _].
      apply Hy, H2. by exists a, ma. }
    destruct (decide (i = S k)) as [->|Hik], (decide (j = S k)) as [->|Hjk];
      simplify_eq; [done|..].
    + exfalso. eapply (Haux j mj); [lia|done..].
    + exfalso. eapply (Haux i mi); [lia|done..].
    + eapply H3; [| |done..]; lia.
Qed.
End members.

Lemma members_of_attr al z m :
  members_of al z = Some m ↔ attr_of al (VInt z) "members" = Some (SMembers m).
Proof.
  unfold members_of, state_attr.
  destruct (attr_of al (VInt z) "members") as [[| |m']|]; split; congruence.
Qed.

Lemma members_of_ext al al' z :
  attr_of al' (VInt z) "members" = attr_of al (VInt z) "members" →
  members_of al' z = members_of al z.
Proof. unfold members_of, state_attr. by intros ->. Qed.

Lemma attr_of_outside {A} (g : DiGraph (gmap string A)) n key :
  n ∉ node_ids g → attr_of g n key = None.
Proof. intros Hn. unfold attr_of. by rewrite node_lookup_None. Qed.

Lemma optional_set_frame g n (b : bool) (taxon : gmap string value) attr key :
  n ∈ node_ids g →
  (b = true → is_Some (taxon !! attr)) →
  ∃ g', (if b then o ← getitem taxon attr; node_set g n key (SVal o)
         else Ret g) = Ret g' ∧
        frame n (λ key', key' ≠ key) g g'.
Proof.
  intros Hn Hb. destruct b.
  - destruct Hb as [o Ho]; [done|]. rewrite (getitem_Some _ _ _ Ho).
    cbn [mbind outcome_bind].
    destruct (node_set_frame g n key (SVal o) Hn) as (g' & -> & Hf & _).
    by exists g'.
  - exists g. split; [done|]. apply frame_refl.
Qed.

Section abstract_steps.
Context (σ : store) (lineage : DiGraph loc) (attribute_list : list string)
        (origin_time_attr destruction_time_attr : string)
        (track_origin track_destruction : bool).
Hypothesis Hns : "node_state" ∉ attribute_list.
Hypothesis Hmem : "members" ∉ attribute_list.
Hypothesis Hsid : "state_id" ∉ attribute_list.

(** Joining: the members of the open state gain the taxon; but for the
    destruction time nothing else changes. *)
Lemma join_state_exact al k m y l :
  attr_of al (sid k) "members" = Some (SMembers m) →
  (track_destruction = true →
     is_Some ((σ !!! l : gmap string value) !! destruction_time_attr)) →
  ∃ al', join_state σ destruction_time_attr track_destruction
                    al (Z.of_nat k) y l = Ret al' ∧
         node_ids al' = node_ids al ∧ edges al' = edges al ∧
         attr_of al' (sid k) "members" = Some (SMembers (<[y := l]> m)) ∧
         ∀ n key, n ≠ sid k ∨ (key ≠ "members" ∧ key ≠ "destruction_time") →
                  attr_of al' n key = attr_of al n key.
Proof.
  intros Hm Hd. unfold join_state. fold (sid k).
  rewrite (node_get_spec _ _ _ _ Hm). cbn [mbind outcome_bind].
  assert (sid k ∈ node_ids al) as Hk.
  { destruct (decide (sid k ∈ node_ids al)) as [|Hout]; [done|].
    by rewrite (attr_of_outside _ _ _ Hout) in Hm. }
  destruct (node_set_frame al (sid k) "members" (SMembers (<[y := l]> m)) Hk)
    as (al1 & Hal1 & Hf1 & Ha1).
  rewrite Hal1. cbn [mbind outcome_bind].
  destruct (optional_set_frame al1 (sid k) track_destruction (σ !!! l)
              destruction_time_attr "destruction_time")
    as (al2 & Hal2 & Hf2); [by rewrite (proj1 Hf1)|done|].
  rewrite Hal2. exists al2. split; [done|].
  destruct Hf1 as (Hi1 & He1 & Hr1), Hf2 as (Hi2 & He2 & Hr2).
  split_and!; [congruence..| |].
  - rewrite Hr2; [done|by right].
  - intros n key Hn. rewrite Hr2, Hr1; [done|..];
      (destruct Hn as [?|[? ?]]; [by left|by right]).
Qed.

(** Opening: a new last state with the taxon as its only member. *)
Lemma new_state_exact al k y l :
  sid k ∈ node_ids al → sid (S k) ∉ node_ids al →
  (sid k, sid (S k)) ∉ edges al →
  (∀ a, a ∈ attribute_list → is_Some ((σ !!! l : gmap string value) !! a)) →
  (track_origin = true →
     is_Some ((σ !!! l : gmap string value) !! origin_time_attr)) →
  ∃ al' ns,
    project (σ !!! l) attribute_list = Ret ns ∧
    new_state σ attribute_list origin_time_attr track_origin
              al (Z.of_nat k + 1) y l = Ret al' ∧
    node_ids al' = node_ids al ++ [sid (S k)] ∧
    edges al' = edges al ++ [(sid k, sid (S k))] ∧
    attr_of al' (sid (S k)) "members" = Some (SMembers {[y := l]}) ∧
    attr_of al' (sid (S k)) "node_state" = Some (SList ns) ∧
    attr_of al' (sid (S k)) "state_id" = Some (SVal (sid (S k))) ∧
    ∀ n key, n ≠ sid (S k) → attr_of al' n key = attr_of al n key.
Proof using Hns Hsid.
  intros Hk Hfresh Hedge Hattrs Ho. unfold new_state.
  replace (Z.of_nat k + 1)%Z with (Z.of_nat (S k)) by lia.
  replace (Z.of_nat (S k) - 1)%Z with (Z.of_nat k) by lia.
  fold (sid k) (sid (S k)).
  destruct (add_node_spec al (sid (S k)) Hfresh) as (Hi0 & He0 & Ha0).
  set (al0 := add_node al (sid (S k))) in *.
  assert (add_edge al0 (sid k) (sid (S k))
          = mkDiGraph (nodes al0) (edges al0 ++ [(sid k, sid (S k))])) as ->.
  { apply add_edge_spec.
    - rewrite Hi0, elem_of_app. by left.
    - rewrite Hi0, elem_of_app. right. left.
    - by rewrite He0. }
  set (al1 := mkDiGraph (nodes al0) (edges al0 ++ [(sid k, sid (S k))])).
  assert (node_ids al1 = node_ids al ++ [sid (S k)]) as Hi1 by done.
  assert (edges al1 = edges al ++ [(sid k, sid (S k))]) as He1.
  { unfold al1. cbn [edges]. by rewrite He0. }
  assert (∀ m key, attr_of al1 m key = attr_of al m key) as Ha1.
  { intros m key. rewrite <- Ha0. done. }
  assert (sid (S k) ∈ node_ids al1) as Hk1.
  { rewrite Hi1, elem_of_app. right. left. }
  clearbody al1. clear Hi0 He0 Ha0. clearbody al0.
  destruct (node_set_frame al1 (sid (S k)) "state_id" (SVal (sid (S k))) Hk1)
    as (al2 & -> & Hf2 & Hsid2).
  cbn [mbind outcome_bind].
  destruct (project_spec (σ !!! l) attribute_list Hattrs) as [ns Hproj].
  rewrite Hproj. cbn [mbind outcome_bind].
  assert (sid (S k) ∈ node_ids al2) as Hk2 by by rewrite (proj1 Hf2).
  destruct (node_set_frame al2 (sid (S k)) "node_state" (SList ns) Hk2)
    as (al3 & -> & Hf3 & Hns3).
  cbn [mbind outcome_bind].
  assert (sid (S k) ∈ node_ids al3) as Hk3 by by rewrite (proj1 Hf3).
  destruct (optional_set_frame al3 (sid (S k)) track_origin (σ !!! l)
              origin_time_attr "origin_time" Hk3 Ho)
    as (al4 & -> & Hf4).
  cbn [mbind outcome_bind].
  assert (sid (S k) ∈ node_ids al4) as Hk4 by by rewrite (proj1 Hf4).
  destruct (copy_attrs_frame al4 (sid (S k)) (σ !!! l) attribute_list Hk4 Hattrs)
    as (al5 & -> & Hf5).
  cbn [mbind outcome_bind].
  assert (sid (S k) ∈ node_ids al5) as Hk5 by by rewrite (proj1 Hf5).
  destruct (node_set_frame al5 (sid (S k)) "members" (SMembers {[y := l]}) Hk5)
    as (al6 & -> & Hf6 & Hm6).
  exists al6, ns. split; [done|]. split; [done|].
  destruct Hf2 as (Hi2 & He2 & Hr2), Hf3 as (Hi3 & He3 & Hr3),
    Hf4 as (Hi4 & He4 & Hr4), Hf5 as (Hi5 & He5 & Hr5),
    Hf6 as (Hi6 & He6 & Hr6).
  split_and!; [congruence..|done| | |].
  - rewrite Hr6, Hr5, Hr4 by by right. done.
  - rewrite Hr6, Hr5, Hr4, Hr3 by by right. done.
  - intros n key Hn. rewrite Hr6, Hr5, Hr4, Hr3, Hr2, Ha1 by by left. done.
Qed.

(** The first state, opened from the root. *)
Lemma root_state_exact root_id l :
  (∀ a, a ∈ attribute_list → is_Some ((σ !!! l : gmap string value) !! a)) →
  (track_origin = true →
     is_Some ((σ !!! l : gmap string value) !! origin_time_attr)) →
  (track_destruction = true →
     is_Some ((σ !!! l : gmap string value) !! destruction_time_attr)) →
  ∃ al ns,
    project (σ !!! l) attribute_list = Ret ns ∧
    root_state σ attribute_list origin_time_attr destruction_time_attr
               track_origin track_destruction root_id l = Ret al ∧
    abstract_at al 0 [{[root_id := l]}] ns.
Proof using Hns Hsid.
  intros Hattrs Ho Hd. unfold root_state.
  change (add_node (mkDiGraph [] []) (VInt 0))
    with (mkDiGraph [(sid 0, ∅ : gmap string svalue)] []).
  change (VInt 0) with (sid 0).
  set (al1 := mkDiGraph [(sid 0, ∅ : gmap string svalue)] []).
  assert (sid 0 ∈ node_ids al1) as Hk1 by (simpl; left).
  destruct (node_set_frame al1 (sid 0) "state_id" (SVal (sid 0)) Hk1)
    as (al2 & -> & Hf2 & Hsid2).
  cbn [mbind outcome_bind].
  destruct (project_spec (σ !!! l) attribute_list Hattrs) as [ns Hproj].
  rewrite Hproj. cbn [mbind outcome_bind].
  assert (sid 0 ∈ node_ids al2) as Hk2 by by rewrite (proj1 Hf2).
  destruct (node_set_frame al2 (sid 0) "node_state" (SList ns) Hk2)
    as (al3 & -> & Hf3 & Hns3).
  cbn [mbind outcome_bind].
  assert (sid 0 ∈ node_ids al3) as Hk3 by by rewrite (proj1 Hf3).
  destruct (copy_attrs_frame al3 (sid 0) (σ !!! l) attribute_list Hk3 Hattrs)
    as (al4 & -> & Hf4).
  cbn [mbind outcome_bind].
  assert (sid 0 ∈ node_ids al4) as Hk4 by by rewrite (proj1 Hf4).
  destruct (optional_set_frame al4 (sid 0) track_origin (σ !!! l)
              origin_time_attr "origin_time" Hk4 Ho)
    as (al5 & -> & Hf5).
  cbn [mbind outcome_bind].
  assert (sid 0 ∈ node_ids al5) as Hk5 by by rewrite (proj1 Hf5).
  destruct (optional_set_frame al5 (sid 0) track_destruction (σ !!! l)
              destruction_time_attr "destruction_time" Hk5 Hd)
    as (al6 & -> & Hf6).
  cbn [mbind outcome_bind].
  assert (sid 0 ∈ node_ids al6) as Hk6 by by rewrite (proj1 Hf6).
  destruct (node_set_frame al6 (sid 0) "members" (SMembers {[root_id := l]}) Hk6)
    as (al7 & -> & Hf7 & Hm7).
  exists al7, ns. split; [done|]. split; [done|].
  destruct Hf2 as (Hi2 & He2 & Hr2), Hf3 as (Hi3 & He3 & Hr3),
    Hf4 as (Hi4 & He4 & Hr4), Hf5 as (Hi5 & He5 & Hr5),
    Hf6 as (Hi6 & He6 & Hr6), Hf7 as (Hi7 & He7 & Hr7).
  assert (node_ids al7 = [sid 0]) as Hids
    by by rewrite Hi7, Hi6, Hi5, Hi4, Hi3, Hi2.
  split_and!.
  - done.
  - rewrite He7, He6, He5, He4, He3, He2. done.
  - done.
  - intros [|i].
    + by apply members_of_attr.
    + simpl. unfold members_of, state_attr. rewrite attr_of_outside; [done|].
      rewrite Hids. intros Hin%list_elem_of_singleton.
      apply sid_inj in Hin. lia.
  - intros i Hi. replace i with 0 by lia. unfold state_attr.
    change (VInt (Z.of_nat 0)) with (sid 0).
    rewrite Hr7, Hr6, Hr5, Hr4, Hr3 by by right. done.
  - unfold state_attr. change (VInt (Z.of_nat 0)) with (sid 0).
    rewrite Hr7, Hr6, Hr5, Hr4 by by right. done.
Qed.
End abstract_steps.

Section trail_next.
Context (next : value → list value).

Lemma trail_step fuel x t i a b bs :
  trail next fuel x = Some t → t !! i = Some a → next a = b :: bs →
  t !! S i = Some b.
Proof.
  revert x t i. induction fuel as [|fuel IH]; intros x t i; [done|]. simpl.
  destruct (next x) as [|z zs] eqn:Hx.
  { intros [= <-]. destruct i; [|done]. intros [= <-]. congruence. }
  destruct (trail next fuel z) as [t'|] eqn:Hz; intros [= <-].
  destruct (trail_start _ _ _ _ Hz) as [t'' ->].
  destruct i as [|i]; simpl.
  - intros [= <-] Ha. rewrite Hx in Ha. by simplify_eq.
  - intros Ha Hb. by eapply (IH z (z :: t'') i).
Qed.
End trail_next.

(** A walk that [is_asexual_lineage] accepts followed a trail on which no
    node has two successors. *)
Lemma lineage_walk_true {A} (g : DiGraph A) fuel pre x :
  lineage_walk fuel g (pre ++ [x]) = Ret true →
  ∃ t, trail (successors g) fuel x = Some t ∧
       ∀ y, y ∈ t → length (successors g y) ≤ 1.
Proof.
  revert pre x. induction fuel as [|fuel IH]; intros pre x; [done|].
  simpl. rewrite last_snoc.
  destruct (successors g x) as [|s l] eqn:Hx.
  { intros _. exists [x]. split; [done|].
    intros y ->%list_elem_of_singleton. rewrite Hx. simpl. lia. }
  destruct l as [|s' l]; simpl; [|done].
  intros (t & -> & Ht)%IH. exists (x :: t). split; [done|].
  intros y [->|Hy]%elem_of_cons; [|by apply Ht]. rewrite Hx. simpl. lia.
Qed.

(** In an acyclic graph with a single root, the trail from the root passes
    every node, provided no node on it has two successors. *)
Lemma single_root_trail_covers {A} (g : DiGraph A) r fuel t :
  graph_wf g → acyclic g → get_root_ids g = [r] →
  trail (successors g) fuel r = Some t →
  (∀ y, y ∈ t → length (successors g y) ≤ 1) →
  ∀ n, n ∈ node_ids g → n ∈ t.
Proof.
  intros Hwf Hacyc Hroot Ht Hsucc n Hn.
  (* the walk back from [n] ends at the root *)
  destruct (predecessors_trail_terminates g (length (nodes g)) n)
    as [b Hb]; [done..|].
  destruct (trail_end _ _ _ _ Hb) as (z & Hz & Hnz).
  assert (z ∈ b) as Hzb by by apply last_Some_elem_of.
  assert (z = r) as ->.
  { assert (z ∈ get_root_ids g) as Hzr.
    { apply list_elem_of_filter. split; [by rewrite Hnz|].
      by eapply predecessors_trail_nodes. }
    rewrite Hroot in Hzr. by apply list_elem_of_singleton in Hzr. }
  assert (rtc (edge g) r n) as Hreach.
  { destruct (trail_reach _ _ _ _ _ Hb Hzb) as [->|Htc]; [done|].
    apply tc_rtc, tc_flip_edge.
    eapply tc_congruence with (f := id); [|exact Htc].
    intros u v Huv. by apply elem_of_predecessors. }
  (* and the trail from the root follows every edge *)
  clear Hb Hzb Hz Hn b. revert n Hreach. apply rtc_ind_r.
  - destruct (trail_start _ _ _ _ Ht) as [t' ->]. left.
  - intros x y _ Hxy IH.
    apply list_elem_of_lookup_1 in IH as [i Hi].
    apply elem_of_successors in Hxy.
    assert (length (successors g x) ≤ 1) as Hlen.
    { apply Hsucc. by eapply list_elem_of_lookup_2. }
    destruct (successors g x) as [|s [|??]] eqn:Hx; simpl in Hlen; [|..|lia].
    { by apply elem_of_nil in Hxy. }
    apply list_elem_of_singleton in Hxy as ->.
    eapply list_elem_of_lookup_2. eapply trail_step; [exact Ht|exact Hi|exact Hx].
Qed.

Lemma lookup_snoc_other {A} (l : list A) a b i :
  i ≠ length l → (l ++ [a]) !! i = (l ++ [b]) !! i.
Proof.
  intros Hi. destruct (decide (i < length l)).
  - by rewrite !lookup_app_l.
  - rewrite !lookup_ge_None_2; [done|rewrite length_app; simpl; lia..].
Qed.

Lemma lookup_snoc_last {A} (l : list A) a : (l ++ [a]) !! length l = Some a.
Proof. rewrite lookup_app_r by lia. by rewrite Nat.sub_diag. Qed.

Section abstract_loop_facts.
Context (σ : store) (lineage : DiGraph loc) (attribute_list : list string)
        (origin_time_attr destruction_time_attr : string).
Hypothesis Hwf : graph_wf lineage.
Hypothesis Hattrs :
  all_taxa_have_attributes σ lineage attribute_list = true.
Hypothesis Hns : "node_state" ∉ attribute_list.
Hypothesis Hsid : "state_id" ∉ attribute_list.

Let track_origin := all_taxa_have_attribute σ lineage origin_time_attr.
Let track_destruction :=
  all_taxa_have_attribute σ lineage destruction_time_attr.

Lemma abstract_at_join al k Ms cur ns y l al' :
  abstract_at al k (Ms ++ [cur]) ns →
  node_ids al' = node_ids al → edges al' = edges al →
  attr_of al' (sid k) "members" = Some (SMembers (<[y := l]> cur)) →
  (∀ n key, n ≠ sid k ∨ (key ≠ "members" ∧ key ≠ "destruction_time") →
            attr_of al' n key = attr_of al n key) →
  abstract_at al' k (Ms ++ [<[y := l]> cur]) ns.
Proof.
  intros (Hids & Hes & Hlen & HM & Hstate_id & Hstate) Hi He Hm Hother.
  rewrite length_app in Hlen. simpl in Hlen.
  split_and!; [congruence..| | | |].
  - rewrite length_app. simpl. lia.
  - intros i. destruct (decide (i = k)) as [->|Hik].
    + replace k with (length Ms) at 2 by lia. rewrite lookup_snoc_last.
      by apply members_of_attr.
    + rewrite <- (lookup_snoc_other Ms cur) by lia. rewrite <- HM.
      apply members_of_ext, Hother. left. intros Heq. apply Hik.
      by apply sid_inj.
  - intros i Hik. rewrite <- Hstate_id by done. unfold state_attr.
    apply Hother. by right.
  - rewrite <- Hstate. unfold state_attr. apply Hother. by right.
Qed.

Lemma abstract_at_new al k Ms ns y l al' ns' :
  abstract_at al k Ms ns →
  node_ids al' = node_ids al ++ [sid (S k)] →
  edges al' = edges al ++ [(sid k, sid (S k))] →
  attr_of al' (sid (S k)) "members" = Some (SMembers {[y := l]}) →
  attr_of al' (sid (S k)) "node_state" = Some (SList ns') →
  attr_of al' (sid (S k)) "state_id" = Some (SVal (sid (S k))) →
  (∀ n key, n ≠ sid (S k) → attr_of al' n key = attr_of al n key) →
  abstract_at al' (S k) (Ms ++ [{[y := l]}]) ns'.
Proof.
  intros (Hids & Hes & Hlen & HM & Hstate_id & Hstate) Hi He Hm Hn Hs Hother.
  split_and!.
  - by rewrite Hi, Hids, (seq_S (S k)), fmap_app.
  - by rewrite He, Hes, (seq_S k), fmap_app.
  - rewrite length_app. simpl. lia.
  - intros i. destruct (decide (i = S k)) as [->|Hik].
    + replace (S k) with (length Ms) at 2 by lia. rewrite lookup_snoc_last.
      by apply members_of_attr.
    + transitivity (Ms !! i).
      * rewrite <- HM. apply members_of_ext, Hother.
        intros Heq. apply Hik. by apply sid_inj.
      * destruct (decide (i < length Ms)).
        -- by rewrite lookup_app_l.
        -- rewrite !lookup_ge_None_2; [done|rewrite ?length_app; simpl; lia..].
  - intros i Hik. destruct (decide (i = S k)) as [->|Hne]; [done|].
    rewrite <- Hstate_id by lia. unfold state_attr. apply Hother.
    intros Heq. apply Hne. by apply sid_inj.
  - done.
Qed.

Lemma abstract_loop_exact fuel al k x t Ms cur ns :
  trail (successors lineage) fuel x = Some (x :: t) →
  abstract_at al k (Ms ++ [cur]) ns →
  ∃ al' k' ns' rest,
    abstract_loop σ lineage attribute_list origin_time_attr
                  destruction_time_attr track_origin track_destruction
                  fuel al (Z.of_nat k) x = Ret al' ∧
    Forall2 (row_of σ lineage attribute_list) t rest ∧
    abstract_at al' k' (Ms ++ runs ns cur rest) ns'.
Proof using Hwf Hattrs Hns Hsid.
  revert al k x t Ms cur ns.
  induction fuel as [|fuel IH]; intros al k x t Ms cur ns Ht Hat; [done|].
  simpl in Ht |- *.
  destruct (successors lineage x) as [|y ys] eqn:Hx.
  { injection Ht as <-. exists al, k, ns, []. split; [done|].
    split; [constructor|done]. }
  destruct (trail (successors lineage) fuel y) as [t'|] eqn:Hy; [|done].
  injection Ht as <-.
  destruct (trail_start _ _ _ _ Hy) as [t'' ->].
  assert (y ∈ node_ids lineage) as Hyn.
  { assert (edge lineage x y) as Hxy.
    { apply elem_of_successors. rewrite Hx. left. }
    by apply Hwf in Hxy as [_ ?]. }
  destruct (node_lookup_is_Some lineage y Hyn) as [l Hl].
  unfold node_ref. rewrite Hl. cbn [mbind outcome_bind].
  pose proof (node_lookup_elem_of _ _ _ Hl) as Hyl.
  assert (∀ a, a ∈ attribute_list →
            is_Some ((σ !!! l : gmap string value) !! a)) as Hall.
  { intros a Ha. by eapply all_taxa_have_attributes_spec. }
  destruct (project_spec (σ !!! l) attribute_list Hall) as [state Hproj].
  rewrite Hproj. cbn [mbind outcome_bind].
  pose proof Hat as (Hids & Hes & Hlen & HM & Hstate_id & Hstate).
  rewrite length_app in Hlen. simpl in Hlen.
  rewrite (node_get_spec _ _ _ _ Hstate). cbn [mbind outcome_bind].
  unfold state_eq. case_bool_decide as Heq.
  - assert (attr_of al (sid k) "members" = Some (SMembers cur)) as Hm.
    { apply members_of_attr. rewrite HM.
      replace k with (length Ms) by lia. apply lookup_snoc_last. }
    destruct (join_state_exact σ destruction_time_attr track_destruction
                al k cur y l Hm) as (al1 & -> & Hi1 & He1 & Hm1 & Ho1).
    { intros Htd. by eapply all_taxa_have_attribute_spec. }
    cbn [mbind outcome_bind].
    pose proof (abstract_at_join _ _ _ _ _ y l al1 Hat Hi1 He1 Hm1 Ho1) as Hat1.
    destruct (IH al1 k y t'' Ms (<[y := l]> cur) ns Hy Hat1)
      as (al' & k' & ns' & rest & -> & Hrest & Hat').
    exists al', k', ns', ((y, l, state) :: rest). split; [done|]. split.
    + constructor; [done|done].
    + simpl. by rewrite bool_decide_eq_true_2.
  - destruct (new_state_exact σ attribute_list origin_time_attr track_origin
                Hns Hsid al k y l)
      as (al1 & ns1 & Hproj1 & -> & Hi1 & He1 & Hm1 & Hn1 & Hs1 & Ho1).
    { rewrite Hids. apply elem_of_sids. lia. }
    { rewrite Hids, elem_of_sids. lia. }
    { rewrite Hes, list_elem_of_fmap.
      intros (i & Hpair & Hi%elem_of_seq).
      assert (k = i) by (apply sid_inj; congruence). lia. }
    { done. }
    { intros Hto. by eapply all_taxa_have_attribute_spec. }
    assert (ns1 = state) as -> by congruence.
    cbn [mbind outcome_bind].
    replace (Z.of_nat k + 1)%Z with (Z.of_nat (S k)) by lia.
    pose proof (abstract_at_new _ _ _ _ y l al1 state
                  Hat Hi1 He1 Hm1 Hn1 Hs1 Ho1) as Hat1.
    destruct (IH al1 (S k) y t'' (Ms ++ [cur]) {[y := l]} state Hy Hat1)
      as (al' & k' & ns' & rest & -> & Hrest & Hat').
    exists al', k', ns', ((y, l, state) :: rest). split; [done|]. split.
    + constructor; [done|done].
    + simpl. rewrite bool_decide_eq_false_2 by done.
      by rewrite <- app_assoc in Hat'.
Qed.
End abstract_loop_facts.

(** ** The runs split the lineage *)

Lemma runs_length ns cur rest : 0 < length (runs ns cur rest).
Proof.
  revert ns cur. induction rest as [|[[y l] s] rest IH]; intros ns cur; simpl.
  - lia.
  - case_bool_decide; simpl; [apply IH|lia].
Qed.

Lemma runs_members_inv Ms cur ns rest V :
  members_inv (λ i, (Ms ++ [cur]) !! i) (length Ms) V →
  NoDup ((λ r, r.1.1) <$> rest) →
  (∀ y, y ∈ (λ r : value * nat * list value, r.1.1) <$> rest → y ∉ V) →
  members_inv (λ i, (Ms ++ runs ns cur rest) !! i)
              (length (Ms ++ runs ns cur rest) - 1)
              (V ++ ((λ r, r.1.1) <$> rest)).
Proof.
  revert Ms cur ns V.
  induction rest as [|[[y l] s] rest IH]; intros Ms cur ns V Hinv Hnd Hfresh.
  { simpl. rewrite app_nil_r, length_app. simpl.
    by replace (length Ms + 1 - 1) with (length Ms) by lia. }
  rewrite fmap_cons in Hnd, Hfresh |- *. simpl in Hnd, Hfresh |- *.
  apply NoDup_cons in Hnd as [Hy Hnd].
  assert (y ∉ V) as HyV by (apply Hfresh; left).
  assert (∀ z, z ∈ (λ r : value * nat * list value, r.1.1) <$> rest →
            z ∉ V ++ [y]) as Hfresh'.
  { intros z Hz [HzV| ->%list_elem_of_singleton]%elem_of_app; [|done].
    by apply (Hfresh z); [right|]. }
  replace (V ++ y :: ((λ r : value * nat * list value, r.1.1) <$> rest))
    with ((V ++ [y]) ++ ((λ r : value * nat * list value, r.1.1) <$> rest))
    by by rewrite <- app_assoc.
  case_bool_decide as Heq.
  - apply IH; [|done|done].
    eapply members_inv_ext;
      [|exact (members_inv_join _ (length Ms) V cur y l Hinv
                 (lookup_snoc_last Ms cur) HyV)].
    intros i Hi. simpl. destruct (decide (i = length Ms)) as [->|Hne].
    + by rewrite lookup_snoc_last.
    + by apply lookup_snoc_other.
  - replace (Ms ++ cur :: runs s {[y := l]} rest)
      with ((Ms ++ [cur]) ++ runs s {[y := l]} rest) by by rewrite <- app_assoc.
    apply IH; [|done|done].
    replace (length (Ms ++ [cur])) with (S (length Ms))
      by (rewrite length_app; simpl; lia).
    eapply members_inv_ext;
      [|exact (members_inv_new _ (length Ms) V y l Hinv HyV)].
    intros i Hi. simpl. destruct (decide (i = S (length Ms))) as [->|Hne].
    + replace (S (length Ms)) with (length (Ms ++ [cur]))
        by (rewrite length_app; simpl; lia).
      by rewrite lookup_snoc_last.
    + rewrite (lookup_app_l (Ms ++ [cur])); [done|].
      rewrite length_app. simpl. lia.
Qed.

(** C4 (amended).  On an acyclic lineage that [is_asexual_lineage] accepts
    and whose taxa all carry the requested attributes, none of them
    reserved, [abstract_asexual_lineage] returns a graph whose states are
    [0..n-1] for some [n > 0], whose edges are exactly [k → k+1], whose
    states all have members, and every taxon of the lineage is a member of
    exactly one state. *)
Theorem abstract_asexual_lineage_shape
    (σ : store) (lineage : DiGraph loc) (attribute_list : list string)
    (origin_time_attr destruction_time_attr : string) (fuel : nat) :
  world_wf σ lineage → acyclic lineage →
  is_asexual_lineage fuel lineage = Ret true →
  all_taxa_have_attributes σ lineage attribute_list = true →
  "node_state" ∉ attribute_list → "members" ∉ attribute_list →
  "state_id" ∉ attribute_list →
  ∃ al n,
    abstract_asexual_lineage fuel σ lineage attribute_list
                             origin_time_attr destruction_time_attr = Ret al ∧
    0 < n ∧
    node_ids al = (λ i, VInt (Z.of_nat i)) <$> seq 0 n ∧
    edges al = (λ i, (VInt (Z.of_nat i), VInt (Z.of_nat i + 1))) <$> seq 0 (n - 1) ∧
    (∀ i, i < n → ∃ m, members_of al (Z.of_nat i) = Some m ∧ m ≠ ∅) ∧
    (∀ taxon, taxon ∈ node_ids lineage →
       ∃ i, i < n ∧
            (∃ m, members_of al (Z.of_nat i) = Some m ∧ is_Some (m !! taxon)) ∧
            ∀ z m, members_of al z = Some m → is_Some (m !! taxon) →
                   z = Z.of_nat i).
Proof.
  intros Hwf Hacyc Hlin Hattrs Hns Hmem Hsid.
  unfold abstract_asexual_lineage. rewrite Hlin. cbn [mbind outcome_bind negb].
  rewrite Hattrs. cbn [negb].
  rewrite !bool_decide_eq_false_2 by done.
  unfold is_asexual_lineage in Hlin. case_bool_decide as Hroots; [done|].
  destruct (get_root_ids lineage) as [|r [|??]] eqn:Hr; try done.
  change [r] with ([] ++ [r]) in Hlin.
  apply lineage_walk_true in Hlin as (t & Ht & Hsucc).
  destruct (trail_start _ _ _ _ Ht) as [t' ->].
  assert (r ∈ node_ids lineage) as Hrn.
  { eapply get_root_ids_nodes. rewrite Hr. left. }
  destruct (node_lookup_is_Some lineage r Hrn) as [l Hl].
  unfold node_ref. rewrite Hl. cbn [mbind outcome_bind].
  apply node_lookup_elem_of in Hl.
  destruct (root_state_exact σ attribute_list origin_time_attr
              destruction_time_attr
              (all_taxa_have_attribute σ lineage origin_time_attr)
              (all_taxa_have_attribute σ lineage destruction_time_attr)
              Hns Hsid r l) as (al0 & ns0 & _ & -> & Hat0).
  { intros a Ha. by eapply all_taxa_have_attributes_spec. }
  { intros Hto. by eapply all_taxa_have_attribute_spec. }
  { intros Htd. by eapply all_taxa_have_attribute_spec. }
  cbn [mbind outcome_bind].
  assert (NoDup (r :: t')) as Hnd.
  { eapply trail_NoDup; [|exact Ht]. intros n Hn. apply (Hacyc n).
    eapply tc_congruence with (f := id); [|exact Hn].
    intros a b Hab. by apply elem_of_successors. }
  apply NoDup_cons in Hnd as [Hrt Hnd].
  destruct (abstract_loop_exact σ lineage attribute_list origin_time_attr
              destruction_time_attr (proj1 Hwf) Hattrs Hns Hsid fuel al0 0 r t' []
              {[r := l]} ns0 Ht Hat0) as (al & k & ns & rest & Hal & Hrest & Hat).
  change (Z.of_nat 0) with 0%Z in Hal. rewrite Hal.
  assert ((λ r : value * nat * list value, r.1.1) <$> rest = t') as Hids_rest.
  { clear -Hrest. induction Hrest as [|y [[y' l'] s'] t rest [Hy _] _ IH]; [done|].
    rewrite fmap_cons. simpl in *. by rewrite IH, Hy. }
  destruct Hat as (Hids & Hes & Hlen & HM & _ & _). simpl in Hlen, HM.
  pose proof (runs_members_inv [] {[r := l]} ns0 rest [r]) as Hinv.
  simpl in Hinv. rewrite Hids_rest, Hlen in Hinv.
  replace (S k - 1) with k in Hinv by lia.
  destruct Hinv as (H1 & H2 & H3).
  { eapply members_inv_ext; [|exact (members_inv_root r l)].
    intros i Hi. replace i with 0 by lia. done. }
  { done. }
  { intros y Hy ->%list_elem_of_singleton. done. }
  exists al, (S k). split; [done|]. split_and!.
  - lia.
  - done.
  - rewrite Hes. replace (S k - 1) with k by lia.
    apply list_fmap_ext. intros i j _. unfold sid. do 3 f_equal. lia.
  - intros i Hi. rewrite HM. apply H1. lia.
  - intros taxon Htaxon.
    assert (taxon ∈ r :: t') as Hcov.
    { apply (single_root_trail_covers lineage r fuel (r :: t'));
        [apply Hwf|done..]. }
    apply H2 in Hcov as (i & m & Hi & Hm & Hin).
    exists i. split; [lia|]. split; [exists m; by rewrite HM|].
    intros z m' Hm' Hin'.
    assert (VInt z ∈ node_ids al) as Hz.
    { apply members_of_attr in Hm'. unfold attr_of in Hm'.
      destruct (node_lookup al (VInt z)) as [d|] eqn:Hd; [|done].
      apply node_lookup_elem_of in Hd.
      by apply (list_elem_of_fmap_2 fst) in Hd. }
    rewrite Hids in Hz. apply list_elem_of_fmap in Hz as (j & [= ->] & Hj).
    apply elem_of_seq in Hj. f_equal. rewrite HM in Hm'.
    eapply (H3 j i); [lia|lia|done..].
Qed.

(** ** The abstraction example *)

Ltac adjacency g :=
  unfold successors, predecessors, g; cbn [edges];
  rewrite !filter_cons, filter_nil; cbn [fst snd];
  repeat case_decide; first [done | congruence].

(** C5.  On a chain of six taxa whose [trait] values are x, x, y, y, y, z
    from root to tip, with x ≠ y and y ≠ z, [abstract_asexual_lineage] over
    ["trait"] returns three states 0, 1, 2, carrying these numbers as
    [state_id], with the edges 0 → 1 and 1 → 2 and no other, and with 2, 3
    and 1 members. *)
Theorem abstract_asexual_lineage_example
    (σ : store) (n1 n2 n3 n4 n5 n6 : value) (l1 l2 l3 l4 l5 l6 : loc)
    (x y z : value) (origin_time_attr destruction_time_attr : string)
    (fuel : nat) :
  NoDup [n1; n2; n3; n4; n5; n6] →
  x ≠ y → y ≠ z →
  (σ !!! l1 : gmap string value) !! "trait" = Some x →
  (σ !!! l2 : gmap string value) !! "trait" = Some x →
  (σ !!! l3 : gmap string value) !! "trait" = Some y →
  (σ !!! l4 : gmap string value) !! "trait" = Some y →
  (σ !!! l5 : gmap string value) !! "trait" = Some y →
  (σ !!! l6 : gmap string value) !! "trait" = Some z →
  6 ≤ fuel →
  ∃ al m0 m1 m2,
    abstract_asexual_lineage fuel σ
      (mkDiGraph
         [(n1, l1); (n2, l2); (n3, l3); (n4, l4); (n5, l5); (n6, l6)]
         [(n1, n2); (n2, n3); (n3, n4); (n4, n5); (n5, n6)])
      ["trait"] origin_time_attr destruction_time_attr = Ret al ∧
    node_ids al = [VInt 0; VInt 1; VInt 2] ∧
    edges al = [(VInt 0, VInt 1); (VInt 1, VInt 2)] ∧
    state_attr al 0 "state_id" = Some (SVal (VInt 0)) ∧
    state_attr al 1 "state_id" = Some (SVal (VInt 1)) ∧
    state_attr al 2 "state_id" = Some (SVal (VInt 2)) ∧
    members_of al 0 = Some m0 ∧ size m0 = 2 ∧
    members_of al 1 = Some m1 ∧ size m1 = 3 ∧
    members_of al 2 = Some m2 ∧ size m2 = 1.
Proof.
  intros Hnd Hxy Hyz Ht1 Ht2 Ht3 Ht4 Ht5 Ht6 Hfuel.
  set (g := mkDiGraph
         [(n1, l1); (n2, l2); (n3, l3); (n4, l4); (n5, l5); (n6, l6)]
         [(n1, n2); (n2, n3); (n3, n4); (n4, n5); (n5, n6)]).
  pose proof Hnd as Hne.
  rewrite !NoDup_cons, !not_elem_of_cons in Hne. destruct_and!.
  assert (successors g n1 = [n2]) as S1 by adjacency g.
  assert (successors g n2 = [n3]) as S2 by adjacency g.
  assert (successors g n3 = [n4]) as S3 by adjacency g.
  assert (successors g n4 = [n5]) as S4 by adjacency g.
  assert (successors g n5 = [n6]) as S5 by adjacency g.
  assert (successors g n6 = []) as S6 by adjacency g.
  assert (predecessors g n1 = []) as P1 by adjacency g.
  assert (predecessors g n2 = [n1]) as P2 by adjacency g.
  assert (predecessors g n3 = [n2]) as P3 by adjacency g.
  assert (predecessors g n4 = [n3]) as P4 by adjacency g.
  assert (predecessors g n5 = [n4]) as P5 by adjacency g.
  assert (predecessors g n6 = [n5]) as P6 by adjacency g.
  assert (get_root_ids g = [n1]) as Hroots.
  { unfold get_root_ids. change (node_ids g) with [n1; n2; n3; n4; n5; n6].
    rewrite !filter_cons, filter_nil, P1, P2, P3, P4, P5, P6. done. }
  assert (trail (successors g) fuel n1 = Some [n1; n2; n3; n4; n5; n6]) as Ht.
  { apply (trail_fuel_mono _ 6); [|done].
    cbn [trail]. rewrite S1, S2, S3, S4, S5, S6. done. }
  assert (graph_wf g) as Hwf.
  { split_and!.
    - done.
    - apply (NoDup_fmap_1 fst).
      change ((edges g).*1) with [n1; n2; n3; n4; n5].
      eapply sublist_NoDup; [exact Hnd|]. repeat constructor.
    - intros u v Huv. unfold edge, g in Huv. cbn [edges] in Huv.
      change (node_ids g) with [n1; n2; n3; n4; n5; n6].
      rewrite !elem_of_cons, elem_of_nil in Huv. rewrite !elem_of_cons.
      destruct Huv as [Huv|[Huv|[Huv|[Huv|[Huv|[]]]]]];
        injection Huv as -> ->; tauto. }
  assert (all_taxa_have_attributes σ g ["trait"] = true) as Hattrs.
  { unfold all_taxa_have_attributes, g. cbn [nodes forallb snd].
    rewrite (bool_decide_eq_true_2 _ (mk_is_Some _ _ Ht1)),
      (bool_decide_eq_true_2 _ (mk_is_Some _ _ Ht2)),
      (bool_decide_eq_true_2 _ (mk_is_Some _ _ Ht3)),
      (bool_decide_eq_true_2 _ (mk_is_Some _ _ Ht4)),
      (bool_decide_eq_true_2 _ (mk_is_Some _ _ Ht5)),
      (bool_decide_eq_true_2 _ (mk_is_Some _ _ Ht6)).
    done. }
  unfold abstract_asexual_lineage. unfold is_asexual_lineage.
  rewrite Hroots. cbn [length].
  rewrite (bool_decide_eq_false_2 (1 ≠ 1)) by (intros Hne; by apply Hne).
  change [n1] with ([] ++ [n1]). rewrite (lineage_walk_trail _ _ _ _ _ Ht).
  cbn [forallb]. rewrite S1, S2, S3, S4, S5, S6. cbn [length].
  rewrite (bool_decide_eq_true_2 (1 ≤ 1)), (bool_decide_eq_true_2 (0 ≤ 1)) by lia.
  cbn [andb mbind outcome_bind negb].
  rewrite Hattrs. cbn [negb].
  assert (node_lookup g n1 = Some l1 ∧ node_lookup g n2 = Some l2 ∧
          node_lookup g n3 = Some l3 ∧ node_lookup g n4 = Some l4 ∧
          node_lookup g n5 = Some l5 ∧ node_lookup g n6 = Some l6)
    as (L1 & L2 & L3 & L4 & L5 & L6).
  { unfold g. rewrite !node_lookup_cons.
    split_and!; repeat case_decide; first [done | congruence]. }
  unfold node_ref. rewrite L1. cbn [mbind outcome_bind].
  assert (∀ l v, (σ !!! l : gmap string value) !! "trait" = Some v →
            project (σ !!! l) ["trait"] = Ret [v]) as Hproj.
  { intros l v Hv. unfold project. cbn [map_out].
    by rewrite (getitem_Some _ _ _ Hv). }
  assert ("node_state" ∉ ["trait"]) as Hns by (by intros ?%list_elem_of_singleton).
  assert ("state_id" ∉ ["trait"]) as Hsid by (by intros ?%list_elem_of_singleton).
  destruct (root_state_exact σ ["trait"] origin_time_attr
              destruction_time_attr
              (all_taxa_have_attribute σ g origin_time_attr)
              (all_taxa_have_attribute σ g destruction_time_attr)
              Hns Hsid n1 l1) as (al0 & ns0 & Hp0 & -> & Hat0).
  { intros a ->%list_elem_of_singleton. by eexists. }
  { intros Hto. eapply all_taxa_have_attribute_spec; [done|]. left. }
  { intros Htd. eapply all_taxa_have_attribute_spec; [done|]. left. }
  rewrite (Hproj _ _ Ht1) in Hp0. injection Hp0 as <-.
  cbn [mbind outcome_bind].
  destruct (abstract_loop_exact σ g ["trait"] origin_time_attr
              destruction_time_attr Hwf Hattrs Hns Hsid fuel al0 0 n1
              [n2; n3; n4; n5; n6] [] {[n1 := l1]} [x] Ht Hat0)
    as (al & k & ns & rest & Hal & Hrest & Hat).
  change (Z.of_nat 0) with 0%Z in Hal. rewrite Hal.
  assert (rest = [(n2, l2, [x]); (n3, l3, [y]); (n4, l4, [y]);
                  (n5, l5, [y]); (n6, l6, [z])]) as ->.
  { repeat match goal with
           | H : Forall2 _ (_ :: _) _ |- _ =>
               apply Forall2_cons_inv_l in H
                 as ([[? ?] ?] & ? & (? & ? & ?) & ? & ->)
           | H : Forall2 _ [] _ |- _ => apply Forall2_nil_inv_l in H as ->
           end.
    simpl in *. simplify_eq.
    repeat match goal with
           | H : project _ _ = Ret _ |- _ =>
               erewrite Hproj in H by done; injection H as <-
           end.
    done. }
  cbn [runs app] in Hat.
  rewrite (bool_decide_eq_true_2 ([x] = [x])) in Hat by done.
  rewrite (bool_decide_eq_false_2 ([x] = [y])) in Hat by congruence.
  rewrite !(bool_decide_eq_true_2 ([y] = [y])) in Hat by done.
  rewrite (bool_decide_eq_false_2 ([y] = [z])) in Hat by congruence.
  destruct Hat as (Hids & Hes & Hlen & HM & Hstate_id & _).
  cbn [length] in Hlen. assert (k = 2) as -> by lia.
  eexists al, _, _, _. split; [done|]. split_and!.
  - by rewrite Hids.
  - by rewrite Hes.
  - by apply (Hstate_id 0); lia.
  - by apply (Hstate_id 1); lia.
  - by apply (Hstate_id 2); lia.
  - apply (HM 0).
  - rewrite map_size_insert_None, map_size_singleton; [done|].
    by apply lookup_singleton_ne.
  - apply (HM 1).
  - rewrite !map_size_insert_None, map_size_singleton; [done|..].
    + by apply lookup_singleton_ne.
    + rewrite lookup_insert_ne by done. by apply lookup_singleton_ne.
  - apply (HM 2).
  - apply map_size_singleton.
Qed.

(** ** Extant taxa at the present *)

(** C1.  With the default [time="present"] a taxon destroyed at an integer
    time makes [get_extant_taxa_ids] and [get_extant_taxa] raise a
    [TypeError], where the taxon should just be left out; and a destroyed
    taxon whose destruction value is a string after "present" is returned as
    extant. *)
Theorem extant_at_present_with_destroyed_taxon :
  all_taxa_have_attribute destroyed_store one_taxon "destruction_time" = true ∧
  get_extant_taxa_ids destroyed_store one_taxon (VStr "present") (VStr "none")
                      "destruction_time" "origin_time" = Raise TypeError ∧
  get_extant_taxa destroyed_store one_taxon (VStr "present") (VStr "none")
                  "destruction_time" "origin_time" = Raise TypeError ∧
  get_extant_taxa_ids destroyed_late_store one_taxon (VStr "present")
                      (VStr "none") "destruction_time" "origin_time"
    = Ret [VInt 1].
Proof. repeat split; vm_compute; reflexivity. Qed.

(** Under the default name the test is the specified one. *)
Lemma taxon_is_alive_default (node : gmap string value) time ndv oattr :
  taxon_is_alive node time ndv "destruction_time" oattr
  = taxon_is_alive_as_specified node time ndv "destruction_time" oattr.
Proof.
  unfold taxon_is_alive, taxon_is_alive_as_specified, getitem.
  destruct (node !! "destruction_time") as [d|]; cbn [mbind outcome_bind];
    [|done].
  by destruct (py_eq d ndv).
Qed.

(** C2.  The sentinel is looked up under the fixed name [destruction_time]
    and not under the [destruction_attribute] of the caller: a taxon that
    records its destruction under [death] alone raises a [KeyError], and a
    taxon destroyed according to [death] is reported alive because of its
    [destruction_time]; the test as specified answers alive and not alive. *)
Theorem taxon_is_alive_ignores_destruction_attribute :
  (get_extant_taxa_ids death_store one_taxon (VInt 5) (VStr "none")
                       "death" "origin_time"
     = Raise (KeyError (VStr "destruction_time")) ∧
   taxon_is_alive (death_store !!! 0) (VInt 5) (VStr "none")
                  "death" "origin_time"
     = Raise (KeyError (VStr "destruction_time")) ∧
   taxon_is_alive_as_specified (death_store !!! 0) (VInt 5) (VStr "none")
                               "death" "origin_time" = Ret true) ∧
  (get_extant_taxa_ids stale_store one_taxon (VInt 5) (VStr "none")
                       "death" "origin_time" = Ret [VInt 1] ∧
   taxon_is_alive (stale_store !!! 0) (VInt 5) (VStr "none")
                  "death" "origin_time" = Ret true ∧
   taxon_is_alive_as_specified (stale_store !!! 0) (VInt 5) (VStr "none")
                               "death" "origin_time" = Ret false).
Proof. repeat split; vm_compute; reflexivity. Qed.

(** ** States without a destruction time *)

(** C3.  Destruction times are tracked on the lineage a → b, yet the state
    opened for b, of which b is a member, has no [destruction_time]; the
    root state has one. *)
Theorem new_state_lacks_destruction_time :
  all_taxa_have_attribute two_states_store two_states "destruction_time" = true ∧
  (al ← abstract_asexual_lineage 2 two_states_store two_states ["trait"]
                                 "origin_time" "destruction_time";
   Ret (node_ids al,
        state_attr al 0 "destruction_time",
        members_of al 1 ≫= (λ m, m !! VStr "b"),
        state_attr al 1 "destruction_time"))
  = Ret ([VInt 0; VInt 1], Some (SVal (VInt 4)), Some 1, None).
Proof. split; vm_compute; reflexivity. Qed.

(** ** Taxa that the abstraction leaves out *)

(** C4, as stated, fails on a graph with a cycle beside the lineage:
    [is_asexual_lineage] accepts it and all its taxa have the (no)
    requested attributes, but the taxon b is not a member of state 0, the
    only state of the result. *)
Lemma abstract_asexual_lineage_leaves_out_cycle :
  is_asexual_lineage 4 stray_cycle = Ret true ∧
  all_taxa_have_attributes stray_store stray_cycle [] = true ∧
  VStr "b" ∈ node_ids stray_cycle ∧
  (al ← abstract_asexual_lineage 4 stray_store stray_cycle []
                                 "origin_time" "destruction_time";
   Ret (node_ids al, members_of al 0 ≫= (λ m, m !! VStr "b")))
  = Ret ([VInt 0], None).
Proof.
  split; [vm_compute; reflexivity|]. split; [vm_compute; reflexivity|].
  split.
  { change (node_ids stray_cycle)
      with [VStr "r"; VStr "a"; VStr "b"; VStr "c"].
    do 2 right. left. }
  vm_compute. reflexivity.
Qed.

(** ** Queries that write the id into the attribute objects *)

Lemma annotate_ids_spec (d : list (value * nat)) (σ : list (gmap string value)) :
  NoDup d.*2 → (∀ l, l ∈ d.*2 → l < length σ) →
  length (annotate_ids d σ) = length σ ∧
  (∀ r l, (r, l) ∈ d → annotate_ids d σ !! l = Some (<["id" := r]> (σ !!! l))) ∧
  (∀ l, l ∉ d.*2 → annotate_ids d σ !! l = σ !! l).
Proof.
  revert σ. induction d as [|[r l] d IH]; intros σ Hnd Hlen.
  { split_and!; [done| |done]. intros r l Hin. by apply elem_of_nil in Hin. }
  rewrite fmap_cons in Hnd, Hlen. simpl in Hnd, Hlen.
  apply NoDup_cons in Hnd as [Hl Hnd].
  unfold annotate_ids. cbn [foldl fst snd].
  set (σ1 := <[l := <["id" := r]> (σ !!! l)]> σ).
  fold (annotate_ids d σ1).
  assert (length σ1 = length σ) as Hlen1 by apply length_insert.
  destruct (IH σ1 Hnd) as (IH1 & IH2 & IH3).
  { intros l' Hl'. rewrite Hlen1. apply Hlen. by right. }
  assert (l < length σ) as Hlt by (apply Hlen; left).
  split_and!.
  - congruence.
  - intros r' l' [[= -> ->]|Hin]%elem_of_cons.
    + rewrite IH3 by done. by apply list_lookup_insert_eq.
    + rewrite (IH2 _ _ Hin). do 2 f_equal.
      apply list_lookup_total_insert_ne. intros ->.
      apply Hl. by apply (list_elem_of_fmap_2 snd) in Hin.
  - intros l' Hl'. rewrite fmap_cons in Hl'. simpl in Hl'.
    apply not_elem_of_cons in Hl' as [Hne Hl'].
    rewrite IH3 by done. by apply list_lookup_insert_ne.
Qed.

Section annotated_query.
Context (σ : store) (g : DiGraph loc) (P : value → Prop)
        `{!∀ n, Decision (P n)}.
Hypothesis Hwf : world_wf σ g.

Let d := filter (λ p : value * nat, P p.1) (nodes g).
Let σ' := annotate_ids d σ.

Lemma annotated_query_spec :
  (∀ r l, (r, l) ∈ d ↔ (r, l) ∈ nodes g ∧ P r) ∧
  (∀ r l, (r, l) ∈ d → σ' !! l = Some (<["id" := r]> (σ !!! l))) ∧
  (∀ n l, (n, l) ∈ nodes g → (n, l) ∉ d → σ' !! l = σ !! l) ∧
  (∀ l, l ∉ (nodes g).*2 → σ' !! l = σ !! l) ∧
  length σ' = length σ ∧ world_wf σ' g.
Proof using Hwf.
  destruct Hwf as (Hg & Hlocs & Halloc).
  assert (d `sublist_of` nodes g) as Hsub by apply sublist_filter.
  assert (NoDup d.*2) as Hnd.
  { eapply sublist_NoDup; [exact Hlocs|]. by apply fmap_sublist. }
  assert (∀ l, l ∈ d.*2 → l ∈ (nodes g).*2) as Hin.
  { intros l Hl. eapply elem_of_sublist; [exact Hl|]. by apply fmap_sublist. }
  destruct (annotate_ids_spec d σ Hnd) as (Hlen & Hset & Hkeep).
  { intros l Hl. by apply Halloc, Hin. }
  split_and!.
  - intros r l. unfold d. rewrite list_elem_of_filter. simpl. tauto.
  - done.
  - intros n l Hnl Hout. apply Hkeep.
    intros ([n' l'] & Heq & Hd)%list_elem_of_fmap. simpl in Heq. subst l'.
    apply Hout. assert (n' = n) as ->; [|done].
    assert ((n', l) ∈ nodes g) as Hn'l.
    { unfold d in Hd. by apply list_elem_of_filter in Hd as [_ ?]. }
    apply list_elem_of_lookup_1 in Hnl as [i Hi].
    apply list_elem_of_lookup_1 in Hn'l as [j Hj].
    assert (j = i) as ->; [|congruence].
    eapply NoDup_lookup; [exact Hlocs|..].
    + by rewrite list_lookup_fmap, Hj.
    + by rewrite list_lookup_fmap, Hi.
  - intros l Hl. apply Hkeep. intros Hd. by apply Hl, Hin.
  - done.
  - split_and!; [done..|]. intros l Hl. unfold σ'. rewrite Hlen.
    by apply Halloc.
Qed.
End annotated_query.

(** C7.  [get_roots] and [get_leaf_taxa] return, for the nodes without
    predecessors (without successors), the attribute objects that the graph
    itself holds.  After the call each returned object is what it was with
    [id] set to the node's id; the objects of the other nodes, and every
    other object of the store, are what they were; nothing is allocated, and
    the graph, which the calls do not write, has its nodes and edges and is
    well formed over the new store. *)
Theorem get_roots_get_leaf_taxa_annotate (σ : store) (g : DiGraph loc) :
  world_wf σ g →
  ((∀ r l, (r, l) ∈ (get_roots σ g).1 ↔
             (r, l) ∈ nodes g ∧ predecessors g r = []) ∧
   (∀ r l, (r, l) ∈ (get_roots σ g).1 →
             (get_roots σ g).2 !! l = Some (<["id" := r]> (σ !!! l))) ∧
   (∀ n l, (n, l) ∈ nodes g → (n, l) ∉ (get_roots σ g).1 →
             (get_roots σ g).2 !! l = σ !! l) ∧
   (∀ l, l ∉ (nodes g).*2 → (get_roots σ g).2 !! l = σ !! l) ∧
   length (get_roots σ g).2 = length σ ∧
   world_wf (get_roots σ g).2 g) ∧
  ((∀ e l, (e, l) ∈ (get_leaf_taxa σ g).1 ↔
             (e, l) ∈ nodes g ∧ successors g e = []) ∧
   (∀ e l, (e, l) ∈ (get_leaf_taxa σ g).1 →
             (get_leaf_taxa σ g).2 !! l = Some (<["id" := e]> (σ !!! l))) ∧
   (∀ n l, (n, l) ∈ nodes g → (n, l) ∉ (get_leaf_taxa σ g).1 →
             (get_leaf_taxa σ g).2 !! l = σ !! l) ∧
   (∀ l, l ∉ (nodes g).*2 → (get_leaf_taxa σ g).2 !! l = σ !! l) ∧
   length (get_leaf_taxa σ g).2 = length σ ∧
   world_wf (get_leaf_taxa σ g).2 g).
Proof.
  intros Hwf. split.
  - destruct (annotated_query_spec σ g
                (λ n, length (predecessors g n) = 0) Hwf)
      as (H1 & H2 & H3 & H4 & H5 & H6).
    unfold get_roots. cbn [fst snd]. split_and!; [|done..].
    intros r l. rewrite H1. by rewrite length_zero_iff_nil.
  - destruct (annotated_query_spec σ g
                (λ n, length (successors g n) = 0) Hwf)
      as (H1 & H2 & H3 & H4 & H5 & H6).
    unfold get_leaf_taxa. cbn [fst snd]. split_and!; [|done..].
    intros r l. rewrite H1. by rewrite length_zero_iff_nil.
Qed.

(** ** Weakly connected components *)

Section bfs.
Context {A : Type} (G : DiGraph A).
Hypothesis Hwf : graph_wf G.

Let nbrs (v : value) : list value := successors G v ++ predecessors G v.

Lemma elem_of_nbrs v x : x ∈ nbrs v ↔ linked G v x.
Proof.
  unfold nbrs, linked.
  by rewrite elem_of_app, elem_of_successors, elem_of_predecessors.
Qed.

Lemma visit_spec ws st :
  NoDup st.1 →
  NoDup (nx.visit ws st).1 ∧
  (∀ x, x ∈ (nx.visit ws st).1 ↔ x ∈ st.1 ∨ x ∈ ws) ∧
  (∀ x, x ∈ (nx.visit ws st).2 ↔ x ∈ st.2 ∨ (x ∈ ws ∧ x ∉ st.1)) ∧
  length (nx.visit ws st).1 + length st.2
    = length st.1 + length (nx.visit ws st).2.
Proof.
  revert st. induction ws as [|w ws IH]; intros [seen nxt] Hnd; simpl in *.
  { split_and!; [done| | |done].
    - intros x. rewrite elem_of_nil. tauto.
    - intros x. rewrite elem_of_nil. tauto. }
  unfold nx.visit. cbn [foldl fst snd]. case_bool_decide as Hw.
  - destruct (IH (seen, nxt) Hnd) as (H1 & H2 & H3 & H4).
    unfold nx.visit in *. simpl in *. split_and!; [done| | |done].
    + intros x. rewrite H2, elem_of_cons.
      split; [tauto|]. intros [?|[->|?]]; tauto.
    + intros x. rewrite H3, elem_of_cons.
      split; [tauto|]. intros [?|[[->|?] ?]]; tauto.
  - destruct (IH (seen ++ [w], nxt ++ [w])) as (H1 & H2 & H3 & H4).
    { simpl. apply NoDup_app. split_and!; [done| |apply NoDup_singleton].
      intros x Hx ->%list_elem_of_singleton. done. }
    unfold nx.visit in *. simpl in *. split_and!; [done| | |].
    + intros x. rewrite H2, elem_of_app, list_elem_of_singleton, elem_of_cons.
      tauto.
    + intros x. rewrite H3, !elem_of_app, list_elem_of_singleton, elem_of_cons.
      split.
      * intros [[?| ->]|[? Hx]]; [tauto|tauto|].
        right. split; [tauto|]. intros ?. apply Hx. by left.
      * intros [?|[[->|?] Hx]]; [tauto|tauto|].
        destruct (decide (x = w)) as [->|Hne]; [tauto|].
        right. split; [done|]. intros [?| ?]; [done|done].
    + rewrite !length_app in H4. simpl in H4. lia.
Qed.

(** One level of the search. *)
Lemma level_spec level seen nxt :
  NoDup seen →
  let st := foldl (λ st v, nx.visit (successors G v ++ predecessors G v) st)
                  (seen, nxt) level in
  NoDup st.1 ∧
  (∀ x, x ∈ st.1 ↔ x ∈ seen ∨ ∃ v, v ∈ level ∧ linked G v x) ∧
  (∀ x, x ∈ st.2 ↔ x ∈ nxt ∨ ((∃ v, v ∈ level ∧ linked G v x) ∧ x ∉ seen)) ∧
  length st.1 + length nxt = length seen + length st.2.
Proof.
  revert seen nxt. induction level as [|v level IH]; intros seen nxt Hnd; simpl.
  { split_and!; [done| | |done].
    - intros x. split; [tauto|]. intros [?|(v & Hv & _)]; [done|].
      by apply elem_of_nil in Hv.
    - intros x. split; [tauto|]. intros [?|[(v & Hv & _) _]]; [done|].
      by apply elem_of_nil in Hv. }
  destruct (visit_spec (nbrs v) (seen, nxt) Hnd) as (V1 & V2 & V3 & V4).
  fold (nbrs v).
  destruct (nx.visit (nbrs v) (seen, nxt)) as [seen1 nxt1] eqn:Hvisit.
  simpl in V1, V2, V3, V4.
  destruct (IH seen1 nxt1 V1) as (H1 & H2 & H3 & H4). simpl in *.
  split_and!; [done| | |lia].
  - intros x. rewrite H2, V2, elem_of_nbrs. split.
    + intros [[?|?]|(u & Hu & Hux)]; [tauto| |].
      * right. exists v. split; [left|done].
      * right. exists u. split; [by right|done].
    + intros [?|(u & [->|Hu]%elem_of_cons & Hux)]; [tauto|tauto|].
      right. by exists u.
  - intros x. rewrite H3, V3, V2, elem_of_nbrs. split.
    + intros [[?|[? ?]]|[(u & Hu & Hux) Hx]]; [tauto| |].
      * right. split; [|done]. exists v. split; [left|done].
      * right. split; [|tauto]. exists u. split; [by right|done].
    + intros [?|[(u & [->|Hu]%elem_of_cons & Hux) Hx]]; [tauto|tauto|].
      destruct (decide (x ∈ nbrs v)) as [Hin|Hout].
      { apply elem_of_nbrs in Hin. tauto. }
      right. split; [by exists u|].
      intros [?|Hvx]; [done|]. by apply Hout, elem_of_nbrs.
Qed.

Lemma closed_reach (seen : list value) a x :
  (∀ v y, v ∈ seen → linked G v y → y ∈ seen) →
  a ∈ seen → rtc (linked G) a x → x ∈ seen.
Proof.
  intros Hclosed Ha Hreach. induction Hreach as [|a b c Hab _ IH]; [done|].
  apply IH. by eapply Hclosed.
Qed.

(** The search from [source] finds the nodes linked to it, each once. *)
Lemma bfs_levels_spec fuel seen level source :
  NoDup seen → source ∈ seen →
  (∀ x, x ∈ seen → x ∈ node_ids G ∧ rtc (linked G) source x) →
  (∀ x, x ∈ level → x ∈ seen) →
  (∀ v x, v ∈ seen → v ∉ level → linked G v x → x ∈ seen) →
  (level ≠ [] → length (nodes G) < fuel + length seen) →
  NoDup (nx.bfs_levels fuel G seen level) ∧
  ∀ x, x ∈ nx.bfs_levels fuel G seen level ↔
       x ∈ node_ids G ∧ rtc (linked G) source x.
Proof using Hwf.
  revert seen level.
  induction fuel as [|fuel IH]; intros seen level Hnd Hsrc Hsound Hlevel
    Hclosed Hfuel.
  - assert (length seen ≤ length (nodes G)) as Hle.
    { rewrite <- (length_fmap fst). apply submseteq_length, NoDup_submseteq;
        [done|]. intros x Hx. by apply Hsound. }
    destruct level as [|v level]; [|specialize (Hfuel ltac:(done)); lia].
    simpl. split; [done|]. intros x. split; [apply Hsound|].
    intros [_ Hreach]. eapply closed_reach; [|exact Hsrc|exact Hreach].
    intros v y Hv. apply Hclosed; [done|apply not_elem_of_nil].
  - destruct (decide (level = [])) as [->|Hne].
    { simpl. split; [done|]. intros x. split; [apply Hsound|].
      intros [_ Hreach]. eapply closed_reach; [|exact Hsrc|exact Hreach].
      intros v y Hv. apply Hclosed; [done|apply not_elem_of_nil]. }
    destruct (level_spec level seen [] Hnd) as (L1 & L2 & L3 & L4).
    set (st := foldl (λ st v,
                        nx.visit (successors G v ++ predecessors G v) st)
                     (seen, []) level) in *.
    assert (nx.bfs_levels (S fuel) G seen level
            = nx.bfs_levels fuel G st.1 st.2) as ->.
    { by destruct level. }
    simpl in L1, L2, L3, L4.
    apply IH.
    + done.
    + apply L2. by left.
    + intros x [Hx|(v & Hv & Hvx)]%L2; [by apply Hsound|].
      destruct (Hsound v (Hlevel v Hv)) as [Hvn Hreach]. split.
      * destruct Hwf as (_ & _ & Hcl). destruct Hvx as [Hvx|Hvx];
          by apply Hcl in Hvx as [? ?].
      * eapply rtc_r; [exact Hreach|exact Hvx].
    + intros x [Hx|[Hx _]]%L3; [by apply elem_of_nil in Hx|].
      apply L2. by right.
    + intros v x Hv Hnew Hvx. apply L2.
      destruct (decide (v ∈ seen)) as [Hvs|Hvs].
      * destruct (decide (v ∈ level)) as [Hvl|Hvl].
        -- right. by exists v.
        -- left. by eapply Hclosed.
      * exfalso. apply Hnew, L3. right. split; [|done].
        by apply L2 in Hv as [Hv|Hv].
    + intros Hne'. assert (length (nodes G) < S fuel + length seen) as Hlt.
      { by apply Hfuel. }
      destruct (st.2) as [|w ws] eqn:Hst2; [done|]. simpl in L4. lia.
Qed.

Lemma plain_bfs_spec source :
  source ∈ node_ids G →
  NoDup (nx.plain_bfs G source) ∧
  ∀ x, x ∈ nx.plain_bfs G source ↔
       x ∈ node_ids G ∧ rtc (linked G) source x.
Proof using Hwf.
  intros Hsrc. unfold nx.plain_bfs. apply bfs_levels_spec.
  - apply NoDup_singleton.
  - left.
  - intros x ->%list_elem_of_singleton. done.
  - done.
  - intros v x Hv Hv'. done.
  - intros _. simpl. lia.
Qed.
End bfs.

Section components.
Context {A : Type} (G : DiGraph A).

Lemma components_from_nil vs seen :
  nx.components_from G vs seen = [] ↔ ∀ v, v ∈ vs → v ∈ seen.
Proof.
  revert seen. induction vs as [|v vs IH]; intros seen; simpl.
  { split; [|done]. intros _ v Hv. by apply elem_of_nil in Hv. }
  case_bool_decide as Hv.
  - rewrite IH. split.
    + intros Hall x [->|Hx]%elem_of_cons; [done|by apply Hall].
    + intros Hall x Hx. apply Hall. by right.
  - split; [done|]. intros Hall. exfalso. apply Hv, Hall. left.
Qed.

Lemma linked_sym u v : linked G u v → linked G v u.
Proof. unfold linked. tauto. Qed.

Lemma rtc_linked_sym u v : rtc (linked G) u v → rtc (linked G) v u.
Proof.
  induction 1 as [|a b c Hab _ IH]; [done|].
  eapply rtc_r; [exact IH|]. by apply linked_sym.
Qed.
End components.

(** C8, as stated, fails on the graph without nodes: [has_single_root]
    raises, while [get_num_independent_phylogenies] returns 0. *)
Lemma has_single_root_null_graph :
  has_single_root null_graph = Raise NetworkXPointlessConcept ∧
  get_num_independent_phylogenies null_graph = 0%Z.
Proof. split; reflexivity. Qed.

(** C8 (amended).  On every graph with at least one node
    [has_single_root] returns, and it returns true iff
    [get_num_independent_phylogenies] is 1, and iff the graph taken as
    undirected is one connected component.  On a graph without nodes
    [has_single_root] raises and [get_num_independent_phylogenies] is 0. *)
Theorem has_single_root_iff_one_phylogeny {A} (g : DiGraph A) :
  graph_wf g →
  (nodes g ≠ [] →
     (∃ b, has_single_root g = Ret b) ∧
     (has_single_root g = Ret true ↔ get_num_independent_phylogenies g = 1%Z) ∧
     (has_single_root g = Ret true ↔ weakly_connected g)) ∧
  (nodes g = [] →
     has_single_root g = Raise NetworkXPointlessConcept ∧
     get_num_independent_phylogenies g = 0%Z).
Proof.
  intros Hwf. unfold has_single_root, get_num_independent_phylogenies,
    nx.is_weakly_connected, nx.number_weakly_connected_components,
    nx.weakly_connected_components.
  split; [|by intros Hnil; unfold node_ids; rewrite Hnil].
  intros Hne. unfold node_ids.
  destruct (nodes g) as [|[v0 a0] rest] eqn:Hnodes; [done|].
  rewrite fmap_cons. cbn [fst nx.components_from length].
  rewrite (bool_decide_eq_false_2 (S (length rest) = 0)) by done.
  rewrite (bool_decide_eq_false_2 (v0 ∈ [])) by apply not_elem_of_nil.
  cbn [app].
  set (c0 := nx.plain_bfs g v0).
  assert (v0 ∈ node_ids g) as Hv0 by (unfold node_ids; rewrite Hnodes; left).
  destruct (plain_bfs_spec g Hwf v0 Hv0) as [Hnd Hc0]. fold c0 in Hnd, Hc0.
  assert (length c0 = S (length rest) ↔ ∀ v, v ∈ node_ids g → v ∈ c0) as Hfull.
  { assert (length (node_ids g) = S (length rest)) as Hlen.
    { unfold node_ids. by rewrite Hnodes, length_fmap. }
    assert (c0 ⊆+ node_ids g) as Hsub.
    { apply NoDup_submseteq; [done|]. intros x Hx. by apply Hc0. }
    rewrite <- Hlen. split.
    - intros Heq v Hv.
      assert (c0 ≡ₚ node_ids g) as Hperm.
      { apply submseteq_length_Permutation; [done|lia]. }
      by rewrite Hperm.
    - intros Hall. apply Permutation_length, NoDup_Permutation;
        [done|apply Hwf|].
      intros x. split; [|apply Hall]. intros Hx. by apply Hc0 in Hx as [? _]. }
  split_and!.
  - by eexists.
  - assert (Z.of_nat (length (c0 :: nx.components_from g rest.*1 c0)) = 1%Z
            ↔ nx.components_from g rest.*1 c0 = []) as ->.
    { destruct (nx.components_from g rest.*1 c0); cbn [length]; [done|].
      split; [lia|done]. }
    rewrite components_from_nil. split.
    + intros [= Hlen%bool_decide_eq_true].
      pose proof (proj1 Hfull Hlen) as Hall.
      intros v Hv. apply Hall. unfold node_ids. rewrite Hnodes, fmap_cons.
      by right.
    + intros Hall. f_equal. apply bool_decide_eq_true, Hfull.
      intros v Hv. unfold node_ids in Hv. rewrite Hnodes, fmap_cons in Hv.
      apply elem_of_cons in Hv as [->|Hv]; [by apply Hc0|by apply Hall].
  - split.
    + intros [= Hlen%bool_decide_eq_true].
      pose proof (proj1 Hfull Hlen) as Hall.
      intros u v Hu Hv. etrans.
      * apply rtc_linked_sym. by apply Hc0, Hall.
      * by apply Hc0, Hall.
    + intros Hconn. f_equal. apply bool_decide_eq_true, Hfull.
      intros v Hv. apply Hc0. split; [done|]. by apply Hconn.
Qed.

(** ** The properties at concrete graphs *)

Lemma graph_wf_check {A} (g : DiGraph A) :
  NoDup (node_ids g) → NoDup (edges g) →
  Forall (λ e, e.1 ∈ node_ids g ∧ e.2 ∈ node_ids g) (edges g) →
  graph_wf g.
Proof.
  intros Hn He Hcl. split_and!; [done..|]. intros u v Huv.
  rewrite Forall_forall in Hcl. by apply (Hcl (u, v)).
Qed.

Lemma acyclic_check {A} (g : DiGraph A) (rank : value → nat) :
  Forall (λ e, rank e.1 < rank e.2) (edges g) → acyclic g.
Proof.
  intros Hr. apply (ranked_acyclic g rank). intros u v Huv.
  rewrite Forall_forall in Hr. by apply (Hr (u, v)).
Qed.

Ltac by_compute := apply (bool_decide_unpack _); vm_compute; exact I.

Lemma chain_ABCD_wf : world_wf chain_store chain_ABCD.
Proof.
  split_and!.
  - apply graph_wf_check; by_compute.
  - by_compute.
  - intros l Hl. revert l Hl. apply Forall_forall. by_compute.
Qed.

Lemma chain_ABCD_acyclic : acyclic chain_ABCD.
Proof.
  apply (acyclic_check _
           (rank_in [VStr "A"; VStr "B"; VStr "C"; VStr "D"])).
  by_compute.
Qed.


Lemma extracted_lineage_witness :
  ∃ lin σ',
    extract_asexual_lineage 4 chain_store chain_ABCD (VStr "C") = Ret (lin, σ') ∧
    (∃ r, get_root_ids lin = [r]) ∧
    (∀ x, length (successors lin x) ≤ 1) ∧
    is_asexual lin = true ∧
    ∀ fuel', length (nodes lin) ≤ fuel' →
             is_asexual_lineage fuel' lin = Ret true.
Proof.
  apply (extracted_lineage_is_asexual_lineage chain_store chain_ABCD
           (VStr "C") 4).
  - apply chain_ABCD_wf.
  - apply chain_ABCD_acyclic.
  - vm_compute. reflexivity.
  - by_compute.
  - vm_compute. lia.
Defined.

Lemma extract_asexual_lineage_witness :
  extract_asexual_lineage 4 chain_store chain_ABCD (VStr "Z")
    = Raise (TaxonNotFound (VStr "Z")) ∧
  ∃ r, extract_asexual_lineage 4 chain_store chain_ABCD (VStr "C") = Ret r.
Proof.
  split.
  - apply (proj1 extract_asexual_lineage_spec chain_store chain_ABCD
             (VStr "Z") 4).
    by_compute.
  - apply (proj1 extract_asexual_lineage_spec chain_store chain_ABCD
             (VStr "C") 4).
    + apply chain_ABCD_wf.
    + by_compute.
    + vm_compute. reflexivity.
    + apply chain_ABCD_acyclic.
    + vm_compute. lia.
Defined.

Lemma get_roots_get_leaf_taxa_witness :
  ((∀ r l, (r, l) ∈ (get_roots chain_store chain_ABCD).1 ↔
             (r, l) ∈ nodes chain_ABCD ∧ predecessors chain_ABCD r = []) ∧
   (∀ r l, (r, l) ∈ (get_roots chain_store chain_ABCD).1 →
             (get_roots chain_store chain_ABCD).2 !! l
             = Some (<["id" := r]> (chain_store !!! l))) ∧
   (∀ n l, (n, l) ∈ nodes chain_ABCD →
           (n, l) ∉ (get_roots chain_store chain_ABCD).1 →
             (get_roots chain_store chain_ABCD).2 !! l = chain_store !! l) ∧
   (∀ l, l ∉ (nodes chain_ABCD).*2 →
             (get_roots chain_store chain_ABCD).2 !! l = chain_store !! l) ∧
   length (get_roots chain_store chain_ABCD).2 = length chain_store ∧
   world_wf (get_roots chain_store chain_ABCD).2 chain_ABCD) ∧
  ((∀ e l, (e, l) ∈ (get_leaf_taxa chain_store chain_ABCD).1 ↔
             (e, l) ∈ nodes chain_ABCD ∧ successors chain_ABCD e = []) ∧
   (∀ e l, (e, l) ∈ (get_leaf_taxa chain_store chain_ABCD).1 →
             (get_leaf_taxa chain_store chain_ABCD).2 !! l
             = Some (<["id" := e]> (chain_store !!! l))) ∧
   (∀ n l, (n, l) ∈ nodes chain_ABCD →
           (n, l) ∉ (get_leaf_taxa chain_store chain_ABCD).1 →
             (get_leaf_taxa chain_store chain_ABCD).2 !! l = chain_store !! l) ∧
   (∀ l, l ∉ (nodes chain_ABCD).*2 →
             (get_leaf_taxa chain_store chain_ABCD).2 !! l = chain_store !! l) ∧
   length (get_leaf_taxa chain_store chain_ABCD).2 = length chain_store ∧
   world_wf (get_leaf_taxa chain_store chain_ABCD).2 chain_ABCD).
Proof.
  apply (get_roots_get_leaf_taxa_annotate chain_store chain_ABCD).
  apply chain_ABCD_wf.
Defined.

Lemma has_single_root_witness :
  (∃ b, has_single_root chain_ABCD = Ret b) ∧
  (has_single_root chain_ABCD = Ret true ↔
     get_num_independent_phylogenies chain_ABCD = 1%Z) ∧
  (has_single_root chain_ABCD = Ret true ↔ weakly_connected chain_ABCD).
Proof.
  apply (has_single_root_iff_one_phylogeny chain_ABCD).
  - apply chain_ABCD_wf.
  - discriminate.
Defined.

Lemma abstract_asexual_lineage_shape_witness :
  ∃ al n,
    abstract_asexual_lineage 4 chain_store chain_ABCD ["trait"]
                             "origin_time" "destruction_time" = Ret al ∧
    0 < n ∧
    node_ids al = (λ i, VInt (Z.of_nat i)) <$> seq 0 n ∧
    edges al = (λ i, (VInt (Z.of_nat i), VInt (Z.of_nat i + 1))) <$> seq 0 (n - 1) ∧
    (∀ i, i < n → ∃ m, members_of al (Z.of_nat i) = Some m ∧ m ≠ ∅) ∧
    (∀ taxon, taxon ∈ node_ids chain_ABCD →
       ∃ i, i < n ∧
            (∃ m, members_of al (Z.of_nat i) = Some m ∧ is_Some (m !! taxon)) ∧
            ∀ z m, members_of al z = Some m → is_Some (m !! taxon) →
                   z = Z.of_nat i).
Proof.
  apply (abstract_asexual_lineage_shape chain_store chain_ABCD ["trait"]
           "origin_time" "destruction_time" 4).
  - apply chain_ABCD_wf.
  - apply chain_ABCD_acyclic.
  - vm_compute. reflexivity.
  - vm_compute. reflexivity.
  - by_compute.
  - by_compute.
  - by_compute.
Defined.

Lemma abstract_asexual_lineage_example_witness :
  ∃ al m0 m1 m2,
    abstract_asexual_lineage 6 six_store
      (mkDiGraph
         [(VStr "a", 0); (VStr "b", 1); (VStr "c", 2);
          (VStr "d", 3); (VStr "e", 4); (VStr "f", 5)]
         [(VStr "a", VStr "b"); (VStr "b", VStr "c"); (VStr "c", VStr "d");
          (VStr "d", VStr "e"); (VStr "e", VStr "f")])
      ["trait"] "origin_time" "destruction_time" = Ret al ∧
    node_ids al = [VInt 0; VInt 1; VInt 2] ∧
    edges al = [(VInt 0, VInt 1); (VInt 1, VInt 2)] ∧
    state_attr al 0 "state_id" = Some (SVal (VInt 0)) ∧
    state_attr al 1 "state_id" = Some (SVal (VInt 1)) ∧
    state_attr al 2 "state_id" = Some (SVal (VInt 2)) ∧
    members_of al 0 = Some m0 ∧ size m0 = 2 ∧
    members_of al 1 = Some m1 ∧ size m1 = 3 ∧
    members_of al 2 = Some m2 ∧ size m2 = 1.
Proof.
  apply (abstract_asexual_lineage_example six_store
           (VStr "a") (VStr "b") (VStr "c") (VStr "d") (VStr "e") (VStr "f")
           0 1 2 3 4 5 (VStr "x") (VStr "y") (VStr "z")
           "origin_time" "destruction_time" 6).
  - by_compute.
  - discriminate.
  - discriminate.
  - vm_compute. reflexivity.
  - vm_compute. reflexivity.
  - vm_compute. reflexivity.
  - vm_compute. reflexivity.
  - vm_compute. reflexivity.
  - vm_compute. reflexivity.
  - lia.
Defined.
(** * Further properties of the code *)

(** ** The attribute checks *)

Lemma forallb_elem_of {A} (f : A → bool) (l : list A) :
  forallb f l = true ↔ ∀ x, x ∈ l → f x = true.
Proof.
  rewrite forallb_forall. split; intros H x Hx; apply H; by apply list_elem_of_In.
Qed.

(** X1.  [all_taxa_have_attributes] is the conjunction of
    [all_taxa_have_attribute] over the attribute list: the two loops give
    the same answer on every graph, also on a graph without nodes and with
    an empty list. *)
Theorem all_taxa_have_attributes_each (σ : store) (g : DiGraph loc)
    (attribute_list : list string) :
  all_taxa_have_attributes σ g attribute_list
  = forallb (all_taxa_have_attribute σ g) attribute_list.
Proof.
  apply eq_true_iff_eq. unfold all_taxa_have_attributes, all_taxa_have_attribute.
  rewrite !forallb_elem_of. split.
  - intros H a Ha. apply forallb_elem_of. intros p Hp.
    specialize (H p Hp). rewrite forallb_elem_of in H. by apply H.
  - intros H p Hp. apply forallb_elem_of. intros a Ha.
    specialize (H a Ha). rewrite forallb_elem_of in H. by apply H.
Qed.

(** ** Parents *)

Section parents.
Context {A : Type}.
Implicit Types (g : DiGraph A).

Lemma predecessors_NoDup g x : NoDup (edges g) → NoDup (predecessors g x).
Proof.
  intros Hnd. unfold predecessors.
  apply (NoDup_fmap_2_strong fst); [|by apply NoDup_filter].
  intros [a b] [c d] [Hb _]%list_elem_of_filter [Hd _]%list_elem_of_filter Heq.
  simpl in *. congruence.
Qed.

Lemma unique_parent g u v w :
  graph_wf g → is_asexual g = true → edge g u w → edge g v w → u = v.
Proof.
  intros Hwf Hsex Hu Hv.
  assert (w ∈ node_ids g) as Hw by (by apply Hwf in Hu as [_ ?]).
  pose proof (is_asexual_spec g w Hsex Hw) as Hle.
  apply elem_of_predecessors in Hu, Hv.
  destruct (predecessors g w) as [|a [|b l]]; simpl in *; [|..|lia].
  - by apply elem_of_nil in Hu.
  - apply list_elem_of_singleton in Hu, Hv. congruence.
Qed.

Lemma is_asexual_true g :
  is_asexual g = true ↔ ∀ n, n ∈ node_ids g → length (predecessors g n) ≤ 1.
Proof.
  unfold is_asexual. rewrite forallb_elem_of. split.
  - intros H n Hn. exact (bool_decide_eq_true_1 _ (H n Hn)).
  - intros H n Hn. exact (bool_decide_eq_true_2 _ (H n Hn)).
Qed.
End parents.

(** X2.  On a graph as networkx keeps it, [is_asexual] holds exactly when
    no taxon has two different parents. *)
Theorem is_asexual_unique_parent {A} (g : DiGraph A) :
  graph_wf g →
  (is_asexual g = true ↔ ∀ u v w, edge g u w → edge g v w → u = v).
Proof.
  intros Hwf. split.
  - intros Hsex u v w. by apply unique_parent.
  - destruct Hwf as (Hnd & Hne & Hclosed). rewrite is_asexual_true.
    intros H n Hn. apply NoDup_all_equal; [by apply predecessors_NoDup|].
    intros a b Ha%elem_of_predecessors Hb%elem_of_predecessors.
    by apply (H a b n).
Qed.

Lemma is_asexual_unique_parent_witness :
  is_asexual chain_ABCD = true ↔
  ∀ u v w, edge chain_ABCD u w → edge chain_ABCD v w → u = v.
Proof. apply is_asexual_unique_parent, chain_ABCD_wf. Defined.

(** ** Roots and leaves *)

Lemma trail_reach_rtc (next : value → list value) fuel x t y :
  trail next fuel x = Some t → y ∈ t → rtc (λ a b, b ∈ next a) x y.
Proof.
  intros Ht Hy. destruct (trail_reach next fuel x t y Ht Hy) as [->|Htc]; [done|].
  by apply tc_rtc.
Qed.

Lemma rtc_flip {A} (R : relation A) x y : rtc (flip R) x y → rtc R y x.
Proof.
  induction 1 as [|a b c Hab _ IH]; [done|]. eapply rtc_r; [exact IH|exact Hab].
Qed.

Section ends.
Context {A : Type} (g : DiGraph A).
Hypothesis Hwf : graph_wf g.
Hypothesis Hacyc : acyclic g.

Lemma root_ancestor n :
  n ∈ node_ids g → ∃ r, r ∈ get_root_ids g ∧ rtc (edge g) r n.
Proof using Hwf Hacyc.
  intros Hn.
  destruct (predecessors_trail_terminates g (length (nodes g)) n Hwf Hacyc Hn)
    as [t Ht]; [done|].
  destruct (trail_end _ _ _ _ Ht) as (z & Hlast & Hz).
  exists z. split.
  - apply list_elem_of_filter. split; [by rewrite Hz|].
    eapply predecessors_trail_nodes; [done..|]. by apply last_Some_elem_of.
  - apply rtc_flip. eapply rtc_subrel; [|eapply trail_reach_rtc; [exact Ht|]].
    + intros a b Hab. by apply elem_of_predecessors in Hab.
    + by apply last_Some_elem_of.
Qed.

Lemma leaf_descendant n :
  n ∈ node_ids g → ∃ e, e ∈ get_leaf_taxa_ids g ∧ rtc (edge g) n e.
Proof using Hwf Hacyc.
  intros Hn.
  destruct (successors_trail_terminates g (length (nodes g)) n Hwf Hacyc Hn)
    as [t Ht]; [done|].
  destruct (trail_end _ _ _ _ Ht) as (z & Hlast & Hz).
  assert (rtc (edge g) n z) as Hreach.
  { eapply rtc_subrel; [|eapply trail_reach_rtc; [exact Ht|]].
    - intros a b Hab. by apply elem_of_successors in Hab.
    - by apply last_Some_elem_of. }
  exists z. split; [|done].
  apply list_elem_of_filter. split; [by rewrite Hz|].
  apply rtc_inv_r in Hreach as [->|(y & _ & Hy)]; [done|].
  by apply Hwf in Hy as [_ ?].
Qed.
End ends.

(** X3.  In an acyclic graph every taxon descends from a root that
    [get_root_ids] lists and has among its descendants (or is) a leaf that
    [get_leaf_taxa_ids] lists; so a graph with at least one node has at
    least one root and one leaf. *)
Theorem every_taxon_has_root_and_leaf {A} (g : DiGraph A) :
  graph_wf g → acyclic g →
  (∀ n, n ∈ node_ids g →
     (∃ r, r ∈ get_root_ids g ∧ rtc (edge g) r n) ∧
     (∃ e, e ∈ get_leaf_taxa_ids g ∧ rtc (edge g) n e)) ∧
  (nodes g ≠ [] → (0 < get_num_roots g)%Z ∧ get_leaf_taxa_ids g ≠ []).
Proof.
  intros Hwf Hacyc. split.
  - intros n Hn. split; [by apply root_ancestor|by apply leaf_descendant].
  - intros Hne. destruct (nodes g) as [|[n a] ns] eqn:Hnodes; [done|].
    assert (n ∈ node_ids g) as Hn by (unfold node_ids; rewrite Hnodes; left).
    destruct (root_ancestor g Hwf Hacyc n Hn) as (r & Hr & _).
    destruct (leaf_descendant g Hwf Hacyc n Hn) as (e & He & _).
    split.
    + unfold get_num_roots. destruct (get_root_ids g); [by apply elem_of_nil in Hr|].
      simpl. lia.
    + intros Heq. rewrite Heq in He. by apply elem_of_nil in He.
Qed.

Lemma every_taxon_has_root_and_leaf_witness :
  (∀ n, n ∈ node_ids chain_ABCD →
     (∃ r, r ∈ get_root_ids chain_ABCD ∧ rtc (edge chain_ABCD) r n) ∧
     (∃ e, e ∈ get_leaf_taxa_ids chain_ABCD ∧ rtc (edge chain_ABCD) n e)) ∧
  (nodes chain_ABCD ≠ [] →
     (0 < get_num_roots chain_ABCD)%Z ∧ get_leaf_taxa_ids chain_ABCD ≠ []).
Proof.
  apply every_taxon_has_root_and_leaf;
    [apply chain_ABCD_wf|apply chain_ABCD_acyclic].
Defined.

(** ** Walks that do not end

    The loops of [is_asexual_lineage] and [extract_asexual_lineage] have no
    bound of their own: on a graph with a cycle they can run forever, which
    the embedding shows as a result [OutOfFuel] for every amount of fuel. *)

Lemma lineage_walk_diverges {A} (g : DiGraph A) (U : list value) :
  (∀ v, v ∈ U → ∃ s, successors g v = [s] ∧ s ∈ U) →
  ∀ fuel pre x, x ∈ U → lineage_walk fuel g (pre ++ [x]) = OutOfFuel.
Proof.
  intros HU fuel. induction fuel as [|fuel IH]; intros pre x Hx; [done|].
  cbn [lineage_walk]. rewrite last_snoc.
  destruct (HU x Hx) as (s & -> & Hs). cbn [length].
  rewrite (bool_decide_eq_false_2 (1 < 1)) by lia.
  by apply IH.
Qed.

Lemma ancestor_walk_diverges {A} (g : DiGraph A) (U : list value) :
  (∀ v, v ∈ U → ∃ a l, predecessors g v = a :: l ∧ a ∈ U) →
  ∀ fuel pre x, x ∈ U → ancestor_walk fuel g (pre ++ [x]) = OutOfFuel.
Proof.
  intros HU fuel. induction fuel as [|fuel IH]; intros pre x Hx; [done|].
  cbn [ancestor_walk]. rewrite last_snoc.
  destruct (HU x Hx) as (a & l & -> & Ha).
  by apply IH.
Qed.

(** C6, as stated, fails on an asexual graph with a cycle.  In a → b → a
    every taxon has exactly one parent, so the graph is asexual, and a is a
    taxon of it; but the walk back from a never meets a taxon without
    predecessors, and [extract_asexual_lineage] returns nothing, however
    many passes of its loop are allowed. *)
Lemma extract_asexual_lineage_cycle_no_result :
  world_wf [∅; ∅] two_cycle ∧
  is_asexual two_cycle = true ∧
  VStr "a" ∈ node_ids two_cycle ∧
  ∀ fuel,
    extract_asexual_lineage fuel [∅; ∅] two_cycle (VStr "a") = OutOfFuel.
Proof.
  split_and!.
  - split_and!.
    + apply graph_wf_check; by_compute.
    + by_compute.
    + intros l Hl. revert l Hl. apply Forall_forall. by_compute.
  - reflexivity.
  - by_compute.
  - intros fuel. unfold extract_asexual_lineage.
    rewrite bool_decide_eq_true_2 by by_compute.
    change (is_asexual two_cycle) with true. cbn [negb].
    assert (∀ v, v ∈ [VStr "a"; VStr "b"] →
              ∃ a l, predecessors two_cycle v = a :: l
                     ∧ a ∈ [VStr "a"; VStr "b"]) as HU.
    { apply Forall_forall.
      repeat constructor; do 2 eexists; (split; [reflexivity|by_compute]). }
    assert (VStr "a" ∈ [VStr "a"; VStr "b"]) as Ha by left.
    by rewrite (ancestor_walk_diverges two_cycle _ HU fuel [] (VStr "a") Ha
                 : ancestor_walk fuel two_cycle [VStr "a"] = OutOfFuel).
Qed.

(** X4.  If the graph has one root and the walk from it stays among taxa
    that each have exactly one successor (as it does below a root whose
    descendants form a cycle), [is_asexual_lineage] does not return, and
    neither does [abstract_asexual_lineage], which calls it first. *)
Theorem is_asexual_lineage_diverges (σ : store) (g : DiGraph loc)
    (r : value) (U : list value) :
  get_root_ids g = [r] → r ∈ U →
  (∀ v, v ∈ U → ∃ s, successors g v = [s] ∧ s ∈ U) →
  ∀ fuel,
    is_asexual_lineage fuel g = OutOfFuel ∧
    ∀ attribute_list origin_time_attr destruction_time_attr,
      abstract_asexual_lineage fuel σ g attribute_list
                               origin_time_attr destruction_time_attr
      = OutOfFuel.
Proof.
  intros Hroots Hr HU fuel.
  assert (is_asexual_lineage fuel g = OutOfFuel) as Hdiv.
  { unfold is_asexual_lineage. rewrite Hroots. cbn [length].
    rewrite (bool_decide_eq_false_2 (1 ≠ 1)) by (intros H; by apply H).
    by apply (lineage_walk_diverges g U HU fuel [] r). }
  split; [done|]. intros attribute_list o d.
  unfold abstract_asexual_lineage. by rewrite Hdiv.
Qed.

Lemma is_asexual_lineage_diverges_witness :
  get_root_ids rooted_cycle = [VStr "r"] ∧
  ∀ fuel,
    is_asexual_lineage fuel rooted_cycle = OutOfFuel ∧
    ∀ attribute_list origin_time_attr destruction_time_attr,
      abstract_asexual_lineage fuel [∅; ∅; ∅] rooted_cycle attribute_list
                               origin_time_attr destruction_time_attr
      = OutOfFuel.
Proof.
  split; [reflexivity|].
  apply (is_asexual_lineage_diverges _ rooted_cycle (VStr "r")
           [VStr "r"; VStr "a"; VStr "b"]).
  - reflexivity.
  - by left.
  - intros v Hv. apply (Forall_forall (λ v, ∃ s, successors rooted_cycle v = [s]
        ∧ s ∈ [VStr "r"; VStr "a"; VStr "b"])) in Hv; [done|].
    repeat constructor; eexists; (split; [reflexivity|by_compute]).
Defined.

(** X5.  If the graph is asexual and the walk back from [taxa_id] stays
    among taxa that have a predecessor (as it does from a descendant of a
    cycle), [extract_asexual_lineage] does not return. *)
Theorem extract_asexual_lineage_diverges (σ : store) (g : DiGraph loc)
    (taxa_id : value) (U : list value) :
  taxa_id ∈ node_ids g → is_asexual g = true → taxa_id ∈ U →
  (∀ v, v ∈ U → ∃ a l, predecessors g v = a :: l ∧ a ∈ U) →
  ∀ fuel, extract_asexual_lineage fuel σ g taxa_id = OutOfFuel.
Proof.
  intros Hin Hsex Hu HU fuel. unfold extract_asexual_lineage.
  rewrite (bool_decide_eq_true_2 _ Hin), Hsex. cbn [negb].
  by rewrite (ancestor_walk_diverges g U HU fuel [] taxa_id Hu
               : ancestor_walk fuel g [taxa_id] = OutOfFuel).
Qed.

Lemma extract_asexual_lineage_diverges_witness :
  is_asexual cycle_tail = true ∧
  ∀ fuel,
    extract_asexual_lineage fuel [∅; ∅; ∅; ∅] cycle_tail (VStr "d") = OutOfFuel.
Proof.
  split; [reflexivity|].
  apply (extract_asexual_lineage_diverges _ cycle_tail (VStr "d")
           [VStr "a"; VStr "b"; VStr "c"; VStr "d"]).
  - by_compute.
  - reflexivity.
  - by_compute.
  - intros v Hv.
    apply (Forall_forall (λ v, ∃ a l, predecessors cycle_tail v = a :: l
        ∧ a ∈ [VStr "a"; VStr "b"; VStr "c"; VStr "d"])) in Hv; [done|].
    repeat constructor; do 2 eexists; (split; [reflexivity|by_compute]).
Defined.

(** ** The weakly connected components *)

Section components_spec.
Context {A : Type} (G : DiGraph A).
Hypothesis Hwf : graph_wf G.

Lemma linked_nodes u v : linked G u v → u ∈ node_ids G ∧ v ∈ node_ids G.
Proof using Hwf.
  destruct Hwf as (_ & _ & Hclosed).
  intros [Huv|Hvu]; [by apply Hclosed|]. apply Hclosed in Hvu. tauto.
Qed.

Lemma rtc_linked_nodes u v :
  u ∈ node_ids G → rtc (linked G) u v → v ∈ node_ids G.
Proof using Hwf.
  intros Hu Huv. apply rtc_inv_r in Huv as [->|(w & _ & Hw)]; [done|].
  by apply linked_nodes in Hw as [_ ?].
Qed.

Lemma plain_bfs_closed source v y :
  source ∈ node_ids G → v ∈ nx.plain_bfs G source → linked G v y →
  y ∈ nx.plain_bfs G source.
Proof using Hwf.
  intros Hs Hv Hvy. destruct (plain_bfs_spec G Hwf source Hs) as [_ Hc].
  apply Hc. apply Hc in Hv as [_ Hv]. split.
  - by apply linked_nodes in Hvy as [_ ?].
  - by eapply rtc_r.
Qed.

Lemma components_from_spec vs seen :
  (∀ v, v ∈ vs → v ∈ node_ids G) →
  (∀ v y, v ∈ seen → linked G v y → y ∈ seen) →
  Forall (λ c, ∃ v, v ∈ vs ∧ (v ∉ seen) ∧ c = nx.plain_bfs G v)
         (nx.components_from G vs seen) ∧
  (∀ x, x ∈ vs → x ∈ seen ∨ ∃ c, c ∈ nx.components_from G vs seen ∧ x ∈ c) ∧
  (∀ c x, c ∈ nx.components_from G vs seen → x ∈ c → x ∉ seen) ∧
  (∀ i j c c' x,
     nx.components_from G vs seen !! i = Some c →
     nx.components_from G vs seen !! j = Some c' →
     x ∈ c → x ∈ c' → i = j).
Proof using Hwf.
  revert seen. induction vs as [|v vs IH]; intros seen Hvs Hclosed.
  { cbn [nx.components_from]. split_and!.
    - constructor.
    - intros x Hx. by apply elem_of_nil in Hx.
    - intros c x Hc. by apply elem_of_nil in Hc.
    - intros i j c c' x Hi. by rewrite lookup_nil in Hi. }
  assert (∀ v', v' ∈ vs → v' ∈ node_ids G) as Hvs'.
  { intros v' Hv'. apply Hvs. by right. }
  cbn [nx.components_from]. case_bool_decide as Hv.
  - destruct (IH seen Hvs' Hclosed) as (H1 & H2 & H3 & H4). split_and!.
    + eapply Forall_impl; [exact H1|]. intros c (v' & Hv' & Hns & ->).
      exists v'. split_and!; [by right|done..].
    + intros x [->|Hx]%elem_of_cons; [by left|by apply H2].
    + exact H3.
    + exact H4.
  - set (c0 := nx.plain_bfs G v).
    assert (v ∈ node_ids G) as Hvn by (apply Hvs; left).
    destruct (plain_bfs_spec G Hwf v Hvn) as [Hnd Hc0]. fold c0 in Hnd, Hc0.
    assert (∀ a y, a ∈ seen ++ c0 → linked G a y → y ∈ seen ++ c0) as Hclosed'.
    { intros a y [Ha|Ha]%elem_of_app Hay; apply elem_of_app.
      - left. by eapply Hclosed.
      - right. by eapply plain_bfs_closed. }
    assert (∀ x, x ∈ c0 → x ∉ seen) as Hfresh.
    { intros x Hx Hs. apply Hv.
      apply (closed_reach G seen x v Hclosed Hs).
      apply rtc_linked_sym. by apply Hc0. }
    destruct (IH (seen ++ c0) Hvs' Hclosed') as (H1 & H2 & H3 & H4).
    split_and!.
    + constructor.
      * exists v. split_and!; [by left|done..].
      * eapply Forall_impl; [exact H1|]. intros c (v' & Hv' & Hns & ->).
        exists v'. split_and!; [by right| |done].
        intros Hs. apply Hns, elem_of_app. by left.
    + intros x [->|Hx]%elem_of_cons.
      * right. exists c0. split; [by left|]. by apply Hc0.
      * destruct (H2 x Hx) as [[Hs|Hc]%elem_of_app|(c & Hc & Hxc)].
        -- by left.
        -- right. exists c0. split; [by left|done].
        -- right. exists c. split; [by right|done].
    + intros c x [->|Hc]%elem_of_cons Hx; [by apply Hfresh|].
      intros Hs. apply (H3 c x Hc Hx), elem_of_app. by left.
    + intros [|i] [|j] c c' x Hi Hj Hx Hx'; simpl in Hi, Hj.
      * done.
      * injection Hi as <-. exfalso.
        apply (H3 c' x); [by eapply list_elem_of_lookup_2|done|].
        apply elem_of_app. by right.
      * injection Hj as <-. exfalso.
        apply (H3 c x); [by eapply list_elem_of_lookup_2|done|].
        apply elem_of_app. by right.
      * f_equal. by eapply H4.
Qed.

(** The components are the classes of the nodes under [linked]: each is
    the set of the nodes joined to any one of its members, and every node
    is in one component and no other. *)
Lemma weakly_connected_components_spec :
  (∀ c, c ∈ nx.weakly_connected_components G →
     NoDup c ∧ c ≠ [] ∧
     ∀ x, x ∈ c → x ∈ node_ids G ∧ ∀ y, y ∈ c ↔ rtc (linked G) x y) ∧
  (∀ x, x ∈ node_ids G → ∃ c, c ∈ nx.weakly_connected_components G ∧ x ∈ c) ∧
  (∀ i j c c' x,
     nx.weakly_connected_components G !! i = Some c →
     nx.weakly_connected_components G !! j = Some c' →
     x ∈ c → x ∈ c' → i = j).
Proof using Hwf.
  unfold nx.weakly_connected_components.
  destruct (components_from_spec (node_ids G) []) as (H1 & H2 & _ & H4).
  { done. }
  { intros v y Hv. by apply elem_of_nil in Hv. }
  split_and!.
  - intros c Hc. rewrite Forall_forall in H1.
    destruct (H1 c Hc) as (v & Hv & _ & ->).
    destruct (plain_bfs_spec G Hwf v Hv) as [Hnd Hcv].
    split_and!; [done|..].
    + intros Hnil. assert (v ∈ nx.plain_bfs G v) as Hin by (by apply Hcv).
      rewrite Hnil in Hin. by apply elem_of_nil in Hin.
    + intros x [Hx Hvx]%Hcv. split; [done|]. intros y. rewrite Hcv. split.
      * intros [_ Hvy]. etrans; [|exact Hvy]. by apply rtc_linked_sym.
      * intros Hxy. split; [by eapply rtc_linked_nodes|]. by etrans.
  - intros x Hx. destruct (H2 x Hx) as [Hs|?]; [|done].
    by apply elem_of_nil in Hs.
  - exact H4.
Qed.
End components_spec.

(** ** Sorting the components *)

Lemma insert_by_size_Permutation c l : insert_by_size c l ≡ₚ c :: l.
Proof.
  induction l as [|c' l IH]; [done|]. cbn [insert_by_size].
  case_bool_decide; [done|]. rewrite IH. apply Permutation_swap.
Qed.

Lemma sorted_by_size_Permutation cs : sorted_by_size cs ≡ₚ cs.
Proof.
  induction cs as [|c cs IH]; [done|]. cbn [sorted_by_size foldr].
  rewrite insert_by_size_Permutation. by f_equiv.
Qed.

Lemma insert_by_size_descending c l :
  descending l → descending (insert_by_size c l).
Proof.
  induction l as [|c' l IH]; intros Hl.
  { cbn. split; [constructor|done]. }
  cbn [insert_by_size]. destruct Hl as [Hc' Hl]. case_bool_decide as Hle.
  - cbn [descending]. split_and!; [|done..].
    constructor; [done|]. eapply Forall_impl; [exact Hc'|].
    intros x Hx. simpl in Hx. lia.
  - cbn [descending]. split; [|by apply IH].
    rewrite insert_by_size_Permutation. constructor; [lia|done].
Qed.

Lemma sorted_by_size_descending cs : descending (sorted_by_size cs).
Proof.
  induction cs as [|c cs IH]; [done|]. by apply insert_by_size_descending.
Qed.

(** The sort is stable: the components of one size are in the order they
    had. *)
Lemma insert_by_size_stable n c l :
  filter (λ c' : list value, length c' = n) (insert_by_size c l)
  = filter (λ c' : list value, length c' = n) (c :: l).
Proof.
  induction l as [|c' l IH]; [done|]. cbn [insert_by_size].
  case_bool_decide as Hle; [done|].
  rewrite filter_cons, IH, !filter_cons.
  repeat case_decide; first [done | lia].
Qed.

Lemma sorted_by_size_stable n cs :
  filter (λ c : list value, length c = n) (sorted_by_size cs)
  = filter (λ c : list value, length c = n) cs.
Proof.
  induction cs as [|c cs IH]; [done|]. cbn [sorted_by_size foldr].
  rewrite insert_by_size_stable, !filter_cons. fold (sorted_by_size cs).
  by rewrite IH.
Qed.

Lemma descending_lookup l i j a b :
  descending l → i ≤ j → l !! i = Some a → l !! j = Some b →
  length b ≤ length a.
Proof.
  revert i j. induction l as [|c l IH]; intros i j Hl Hij Hi Hj.
  { by rewrite lookup_nil in Hi. }
  destruct Hl as [Hc Hl]. destruct i as [|i], j as [|j]; simpl in *.
  - by simplify_eq.
  - injection Hi as <-. rewrite Forall_forall in Hc.
    apply Hc. by eapply list_elem_of_lookup_2.
  - lia.
  - apply (IH i j); [done|lia|done..].
Qed.

(** ** Copies of several subgraphs *)

Lemma world_wf_prefix σ σ' (g : DiGraph loc) :
  world_wf σ g → σ `prefix_of` σ' → world_wf σ' g.
Proof.
  intros (Hg & Hnd & Hl) Hp. split_and!; [done..|].
  intros l Hin. apply Hl in Hin. apply prefix_length in Hp. lia.
Qed.

Lemma node_attrs_prefix σ σ' (g : DiGraph loc) n :
  world_wf σ g → σ `prefix_of` σ' → node_attrs σ' g n = node_attrs σ g n.
Proof.
  intros (Hg & Hnd & Hl) Hp. unfold node_attrs.
  destruct (node_lookup g n) as [l|] eqn:Hlk; [|done].
  f_equal. apply node_lookup_elem_of in Hlk.
  assert (l < length σ) as Hlt.
  { apply Hl. apply list_elem_of_fmap. by exists (n, l). }
  rewrite !list_lookup_total_alt. by rewrite (prefix_lookup_lt σ σ' l).
Qed.

Lemma subgraph_copy_prefix σ (g : DiGraph loc) ids :
  σ `prefix_of` (subgraph_copy σ g ids).2.
Proof. unfold subgraph_copy. simpl. by eexists. Qed.

Lemma subgraph_copy_locs_lt σ (g : DiGraph loc) ids l :
  l ∈ (nodes (subgraph_copy σ g ids).1).*2 →
  l < length (subgraph_copy σ g ids).2.
Proof.
  rewrite subgraph_copy_locs. intros Hl%elem_of_seq.
  unfold subgraph_copy. simpl. rewrite length_app, length_fmap. lia.
Qed.

Section copies.
Context (g : DiGraph loc).

Lemma subgraph_copies_spec σ (comps : list (list value)) :
  world_wf σ g →
  (∀ c n, c ∈ comps → n ∈ c → n ∈ node_ids g) →
  length (subgraph_copies σ g comps).1 = length comps ∧
  σ `prefix_of` (subgraph_copies σ g comps).2 ∧
  (∀ i c, comps !! i = Some c →
     ∃ h, (subgraph_copies σ g comps).1 !! i = Some h ∧
          node_ids h = filter (.∈ c) (node_ids g) ∧
          edges h = filter (λ e, e.1 ∈ c ∧ e.2 ∈ c) (edges g) ∧
          world_wf (subgraph_copies σ g comps).2 h ∧
          (∀ n, n ∈ c →
             node_attrs (subgraph_copies σ g comps).2 h n = node_attrs σ g n) ∧
          (∀ l, l ∈ (nodes h).*2 → length σ ≤ l)) ∧
  (∀ i j hi hj l,
     (subgraph_copies σ g comps).1 !! i = Some hi →
     (subgraph_copies σ g comps).1 !! j = Some hj →
     l ∈ (nodes hi).*2 → l ∈ (nodes hj).*2 → i = j).
Proof.
  revert σ. induction comps as [|c comps IH]; intros σ Hwf Hsub.
  { cbn [subgraph_copies fst snd]. split_and!; [done|done|..].
    - intros i c Hi. by rewrite lookup_nil in Hi.
    - intros i j hi hj l Hi. by rewrite lookup_nil in Hi. }
  cbn [subgraph_copies fst snd].
  set (h0 := (subgraph_copy σ g c).1).
  set (σ1 := (subgraph_copy σ g c).2).
  assert (∀ n, n ∈ c → n ∈ node_ids g) as Hc.
  { intros n. apply Hsub. by left. }
  assert (σ `prefix_of` σ1) as Hp1 by apply subgraph_copy_prefix.
  assert (world_wf σ1 g) as Hwf1 by (by eapply world_wf_prefix).
  assert (world_wf σ1 h0) as Hwf0 by (by apply subgraph_copy_wf).
  destruct (IH σ1 Hwf1) as (Hlen & Hp2 & Hgraphs & Hdisj).
  { intros c' n Hc'. apply Hsub. by right. }
  set (r := subgraph_copies σ1 g comps) in *.
  split_and!.
  - cbn [length]. by rewrite Hlen.
  - by etrans.
  - intros [|i] c' Hi; simpl in Hi.
    + injection Hi as <-. exists h0. split_and!; [done|..].
      * apply subgraph_copy_node_ids.
      * done.
      * by eapply world_wf_prefix.
      * intros n Hn. rewrite (node_attrs_prefix σ1 r.2 h0 n Hwf0 Hp2).
        by apply subgraph_copy_attrs.
      * apply subgraph_copy_fresh.
    + destruct (Hgraphs i c' Hi) as (h & Hh & Hn & He & Hw & Ha & Hf).
      exists h. split_and!; [done..| |].
      * intros n Hn'. rewrite (Ha n Hn'). by apply node_attrs_prefix.
      * intros l Hl. apply Hf in Hl. apply prefix_length in Hp1. lia.
  - intros [|i] [|j] hi hj l Hi Hj Hli Hlj; simpl in Hi, Hj.
    + done.
    + injection Hi as <-. exfalso.
      apply subgraph_copy_locs_lt in Hli. fold σ1 in Hli.
      pose proof (lookup_lt_Some _ _ _ Hj) as Hlt. rewrite Hlen in Hlt.
      destruct (lookup_lt_is_Some_2 comps j Hlt) as [c' Hc'].
      destruct (Hgraphs j c' Hc') as (h & Hh & _ & _ & _ & _ & Hf).
      rewrite Hj in Hh. injection Hh as <-. apply Hf in Hlj. lia.
    + injection Hj as <-. exfalso.
      apply subgraph_copy_locs_lt in Hlj. fold σ1 in Hlj.
      pose proof (lookup_lt_Some _ _ _ Hi) as Hlt. rewrite Hlen in Hlt.
      destruct (lookup_lt_is_Some_2 comps i Hlt) as [c' Hc'].
      destruct (Hgraphs i c' Hc') as (h & Hh & _ & _ & _ & _ & Hf).
      rewrite Hi in Hh. injection Hh as <-. apply Hf in Hli. lia.
    + f_equal. by eapply Hdisj.
Qed.
End copies.

(** ** The independent phylogenies *)

Lemma subgraph_copies_length σ (g : DiGraph loc) comps :
  length (subgraph_copies σ g comps).1 = length comps.
Proof.
  revert σ. induction comps as [|c comps IH]; intros σ; [done|].
  cbn [subgraph_copies fst length]. by rewrite IH.
Qed.

Lemma filter_elem_of_length (c ids : list value) :
  NoDup c → NoDup ids → (∀ x, x ∈ c → x ∈ ids) →
  length (filter (.∈ c) ids) = length c.
Proof.
  intros Hc Hids Hsub. apply Permutation_length, NoDup_Permutation.
  - by apply NoDup_filter.
  - done.
  - intros x. rewrite list_elem_of_filter. split; [by intros [? _]|].
    intros Hx. split; [done|by apply Hsub].
Qed.

Section sorted_components.
Context {A : Type} (G : DiGraph A).
Hypothesis Hwf : graph_wf G.

Lemma sorted_components_spec :
  NoDup (sorted_by_size (nx.weakly_connected_components G)) ∧
  (∀ c, c ∈ sorted_by_size (nx.weakly_connected_components G) →
     NoDup c ∧ c ≠ [] ∧
     ∀ x, x ∈ c → x ∈ node_ids G ∧ ∀ y, y ∈ c ↔ rtc (linked G) x y) ∧
  (∀ x, x ∈ node_ids G →
     ∃ c, c ∈ sorted_by_size (nx.weakly_connected_components G) ∧ x ∈ c) ∧
  (∀ c c' x,
     c ∈ sorted_by_size (nx.weakly_connected_components G) →
     c' ∈ sorted_by_size (nx.weakly_connected_components G) →
     x ∈ c → x ∈ c' → c = c').
Proof using Hwf.
  destruct (weakly_connected_components_spec G Hwf) as (H1 & H2 & H3).
  set (cs := nx.weakly_connected_components G) in *.
  pose proof (sorted_by_size_Permutation cs) as Hperm.
  assert (∀ c, c ∈ cs → ∃ x, x ∈ c) as Hne.
  { intros c Hc. destruct (H1 c Hc) as (_ & Hn & _).
    destruct c as [|x c]; [done|]. exists x. by left. }
  split_and!.
  - rewrite Hperm. apply NoDup_alt. intros i j c Hi Hj.
    destruct (Hne c) as [x Hx]; [by eapply list_elem_of_lookup_2|].
    by apply (H3 i j c c x).
  - intros c Hc. rewrite Hperm in Hc. by apply H1.
  - intros x Hx. destruct (H2 x Hx) as (c & Hc & Hxc).
    exists c. by rewrite Hperm.
  - intros c c' x Hc Hc' Hx Hx'. rewrite Hperm in Hc, Hc'.
    apply list_elem_of_lookup_1 in Hc as [i Hi].
    apply list_elem_of_lookup_1 in Hc' as [j Hj].
    assert (i = j) as -> by (by apply (H3 i j c c' x)).
    congruence.
Qed.
End sorted_components.

(** Paths inside a component stay inside it. *)
Lemma rtc_linked_subgraph {A B} (g : DiGraph A) (h : DiGraph B)
    (c : list value) x y :
  (∀ u v, edge h u v ↔ edge g u v ∧ u ∈ c ∧ v ∈ c) →
  (∀ u v, u ∈ c → linked g u v → v ∈ c) →
  x ∈ c → rtc (linked g) x y → rtc (linked h) x y.
Proof.
  intros Hedges Hclosed Hx Hxy. induction Hxy as [|x y z Hxy _ IH]; [done|].
  assert (y ∈ c) as Hy by (by eapply Hclosed).
  eapply rtc_l; [|by apply IH].
  destruct Hxy as [He|He]; [left|right]; by apply Hedges.
Qed.

(** Deciding weak connectivity by the first component. *)
Lemma is_weakly_connected_spec {A} (g : DiGraph A) :
  graph_wf g → nodes g ≠ [] →
  (nx.is_weakly_connected g = Ret true ↔ weakly_connected g) ∧
  (nx.number_weakly_connected_components g = 1%Z ↔ weakly_connected g).
Proof.
  intros Hwf Hne.
  unfold nx.is_weakly_connected, nx.number_weakly_connected_components,
    nx.weakly_connected_components, node_ids.
  destruct (nodes g) as [|[v0 a0] rest] eqn:Hnodes; [done|].
  rewrite fmap_cons. cbn [fst nx.components_from length].
  rewrite (bool_decide_eq_false_2 (S (length rest) = 0)) by done.
  rewrite (bool_decide_eq_false_2 (v0 ∈ [])) by apply not_elem_of_nil.
  cbn [app].
  set (c0 := nx.plain_bfs g v0).
  assert (v0 ∈ node_ids g) as Hv0 by (unfold node_ids; rewrite Hnodes; left).
  destruct (plain_bfs_spec g Hwf v0 Hv0) as [Hnd Hc0]. fold c0 in Hnd, Hc0.
  assert (length (node_ids g) = S (length rest)) as Hlen.
  { unfold node_ids. by rewrite Hnodes, length_fmap. }
  assert (length c0 = S (length rest) ↔ ∀ v, v ∈ node_ids g → v ∈ c0) as Hfull.
  { assert (c0 ⊆+ node_ids g) as Hsub.
    { apply NoDup_submseteq; [done|]. intros x Hx. by apply Hc0. }
    rewrite <- Hlen. split.
    - intros Heq v Hv.
      assert (c0 ≡ₚ node_ids g) as Hperm.
      { apply submseteq_length_Permutation; [done|lia]. }
      by rewrite Hperm.
    - intros Hall. apply Permutation_length, NoDup_Permutation;
        [done|apply Hwf|].
      intros x. split; [|apply Hall]. intros Hx. by apply Hc0 in Hx as [? _]. }
  assert ((∀ v, v ∈ node_ids g → v ∈ c0) ↔ weakly_connected g) as Hconn.
  { split.
    - intros Hall u v Hu Hv. etrans.
      + apply rtc_linked_sym. by apply Hc0, Hall.
      + by apply Hc0, Hall.
    - intros Hc v Hv. apply Hc0. split; [done|]. by apply Hc. }
  split.
  - rewrite <- Hconn, <- Hfull. split.
    + by intros [= ?%bool_decide_eq_true].
    + intros Heq. f_equal. by apply bool_decide_eq_true.
  - rewrite <- Hconn.
    assert (Z.of_nat (length (c0 :: nx.components_from g rest.*1 c0)) = 1%Z
            ↔ nx.components_from g rest.*1 c0 = []) as ->.
    { destruct (nx.components_from g rest.*1 c0); cbn [length]; [done|].
      split; [lia|done]. }
    rewrite components_from_nil. split.
    + intros Hall v Hv. unfold node_ids in Hv. rewrite Hnodes, fmap_cons in Hv.
      apply elem_of_cons in Hv as [->|Hv]; [by apply Hc0|by apply Hall].
    + intros Hall v Hv. apply Hall. unfold node_ids. rewrite Hnodes, fmap_cons.
      by right.
Qed.

Lemma forest_wf : world_wf forest_store forest.
Proof.
  split_and!.
  - apply graph_wf_check; by_compute.
  - by_compute.
  - intros l Hl. revert l Hl. apply Forall_forall. by_compute.
Qed.

Section independent.
Context (σ : store) (g : DiGraph loc).
Hypothesis Hwf : world_wf σ g.

Let comps := sorted_by_size (nx.weakly_connected_components g).

(** The graph returned for each component, in the order of the sorted
    components. *)
Lemma independent_phylogenies_spec :
  σ `prefix_of` (get_independent_phylogenies σ g).2 ∧
  (∀ i h, (get_independent_phylogenies σ g).1 !! i = Some h →
     ∃ c, comps !! i = Some c ∧
          NoDup c ∧
          (∀ x, x ∈ c → x ∈ node_ids g ∧ ∀ y, y ∈ c ↔ rtc (linked g) x y) ∧
          (∀ n, n ∈ node_ids h ↔ n ∈ c) ∧
          length (nodes h) = length c ∧
          nodes h ≠ [] ∧
          (∀ u v, edge h u v ↔ edge g u v ∧ u ∈ c ∧ v ∈ c) ∧
          world_wf (get_independent_phylogenies σ g).2 h ∧
          (∀ n, n ∈ c →
             node_attrs (get_independent_phylogenies σ g).2 h n
             = node_attrs σ g n) ∧
          (∀ l, l ∈ (nodes h).*2 → length σ ≤ l)) ∧
  (∀ i c, comps !! i = Some c →
     is_Some ((get_independent_phylogenies σ g).1 !! i)).
Proof using Hwf.
  destruct (sorted_components_spec g (proj1 Hwf)) as (Hnd & Hcls & Hcov & Huniq).
  fold comps in Hnd, Hcls, Hcov, Huniq.
  destruct (subgraph_copies_spec g σ comps Hwf) as (Hlen & Hp & Hgraphs & _).
  { intros c n Hc Hn. by apply (Hcls c Hc). }
  unfold get_independent_phylogenies. fold comps.
  split_and!; [done|..].
  - intros i h Hi.
    pose proof (lookup_lt_Some _ _ _ Hi) as Hlt. rewrite Hlen in Hlt.
    destruct (lookup_lt_is_Some_2 comps i Hlt) as [c Hc].
    destruct (Hgraphs i c Hc) as (h' & Hh' & Hn & He & Hw & Ha & Hf).
    rewrite Hi in Hh'. injection Hh' as <-.
    assert (c ∈ comps) as Hin by (by eapply list_elem_of_lookup_2).
    destruct (Hcls c Hin) as (Hcnd & Hcne & Hclass).
    assert (length (nodes h) = length c) as Hsize.
    { rewrite <- (length_fmap fst). fold (node_ids h). rewrite Hn.
      apply filter_elem_of_length; [done|apply Hwf|].
      intros x Hx. by apply Hclass. }
    exists c. split_and!; [done..| | | | |done|done|done].
    + intros n. rewrite Hn, list_elem_of_filter. split; [by intros [? _]|].
      intros Hx. split; [done|by apply Hclass].
    + done.
    + intros Hnil. rewrite Hnil in Hsize. destruct c; [done|]. done.
    + intros u v. unfold edge. rewrite He, list_elem_of_filter. simpl. tauto.
  - intros i c Hc. apply lookup_lt_is_Some_2. rewrite Hlen.
    by eapply lookup_lt_Some.
Qed.
End independent.

(** X6.  [get_independent_phylogenies] returns as many graphs as
    [get_num_independent_phylogenies] counts, from the largest to the
    smallest; on a graph without nodes it returns the empty list and
    allocates nothing (where [has_single_root] raises). *)
Theorem get_independent_phylogenies_count (σ : store) (g : DiGraph loc) :
  world_wf σ g →
  Z.of_nat (length (get_independent_phylogenies σ g).1)
    = get_num_independent_phylogenies g ∧
  (∀ i j hi hj, i ≤ j →
     (get_independent_phylogenies σ g).1 !! i = Some hi →
     (get_independent_phylogenies σ g).1 !! j = Some hj →
     length (nodes hj) ≤ length (nodes hi)) ∧
  (nodes g = [] → get_independent_phylogenies σ g = ([], σ)).
Proof.
  intros Hwf. split_and!.
  - unfold get_independent_phylogenies, get_num_independent_phylogenies,
      nx.number_weakly_connected_components.
    rewrite subgraph_copies_length.
    by rewrite (Permutation_length (sorted_by_size_Permutation _)).
  - intros i j hi hj Hij Hi Hj.
    destruct (independent_phylogenies_spec σ g Hwf) as (_ & Hgraphs & _).
    destruct (Hgraphs i hi Hi) as (ci & Hci & _ & _ & _ & -> & _).
    destruct (Hgraphs j hj Hj) as (cj & Hcj & _ & _ & _ & -> & _).
    eapply descending_lookup; [apply sorted_by_size_descending|exact Hij|done..].
  - intros Hnil. unfold get_independent_phylogenies,
      nx.weakly_connected_components, node_ids. by rewrite Hnil.
Qed.

Lemma get_independent_phylogenies_count_witness :
  (Z.of_nat (length (get_independent_phylogenies forest_store forest).1)
     = get_num_independent_phylogenies forest ∧
   (∀ i j hi hj, i ≤ j →
      (get_independent_phylogenies forest_store forest).1 !! i = Some hi →
      (get_independent_phylogenies forest_store forest).1 !! j = Some hj →
      length (nodes hj) ≤ length (nodes hi)) ∧
   (nodes forest = [] →
      get_independent_phylogenies forest_store forest = ([], forest_store))) ∧
  (λ h, (node_ids h, edges h))
    <$> (get_independent_phylogenies forest_store forest).1
  = [([VStr "a"; VStr "b"; VStr "c"],
      [(VStr "a", VStr "c"); (VStr "b", VStr "c")]);
     ([VStr "d"], [])].
Proof.
  split; [|vm_compute; reflexivity].
  apply get_independent_phylogenies_count, forest_wf.
Defined.

(** X7.  The graphs that [get_independent_phylogenies] returns split the
    phylogeny: every taxon is a node of exactly one of them, they have no
    other nodes and none of them is empty; every edge of the phylogeny is an
    edge of one of them, and they have no other edges. *)
Theorem independent_phylogenies_partition (σ : store) (g : DiGraph loc) :
  world_wf σ g →
  (∀ n, n ∈ node_ids g →
     ∃ i h, (get_independent_phylogenies σ g).1 !! i = Some h ∧
            n ∈ node_ids h ∧
            ∀ j h', (get_independent_phylogenies σ g).1 !! j = Some h' →
                    n ∈ node_ids h' → j = i) ∧
  (∀ h, h ∈ (get_independent_phylogenies σ g).1 →
     nodes h ≠ [] ∧ ∀ n, n ∈ node_ids h → n ∈ node_ids g) ∧
  (∀ u v, edge g u v ↔
          ∃ h, h ∈ (get_independent_phylogenies σ g).1 ∧ edge h u v).
Proof.
  intros Hwf.
  destruct (independent_phylogenies_spec σ g Hwf) as (_ & Hgraphs & Hsome).
  destruct (sorted_components_spec g (proj1 Hwf)) as (Hnd & Hcls & Hcov & Huniq).
  split_and!.
  - intros n Hn. destruct (Hcov n Hn) as (c & Hc & Hnc).
    apply list_elem_of_lookup_1 in Hc as [i Hi].
    destruct (Hsome i c Hi) as [h Hh]. exists i, h.
    destruct (Hgraphs i h Hh) as (c' & Hc' & _ & _ & Hnodes & _).
    rewrite Hi in Hc'. injection Hc' as <-.
    split_and!; [done|by apply Hnodes|].
    intros j h' Hj Hn'.
    destruct (Hgraphs j h' Hj) as (c' & Hc' & _ & _ & Hnodes' & _).
    apply Hnodes' in Hn'.
    assert (c' = c) as Heq.
    { apply (Huniq c' c n); [by eapply list_elem_of_lookup_2..|done|done]. }
    rewrite Heq in Hc'. by apply (NoDup_lookup _ j i c Hnd).
  - intros h [i Hi]%list_elem_of_lookup_1.
    destruct (Hgraphs i h Hi) as (c & _ & _ & Hclass & Hnodes & _ & Hne & _).
    split; [done|]. intros n Hn%Hnodes. by apply Hclass.
  - intros u v. split.
    + intros Huv.
      assert (u ∈ node_ids g) as Hu by (by apply (proj1 Hwf) in Huv as [? _]).
      destruct (Hcov u Hu) as (c & Hc & Huc).
      apply list_elem_of_lookup_1 in Hc as Hi. destruct Hi as [i Hi].
      destruct (Hsome i c Hi) as [h Hh]. exists h.
      split; [by eapply list_elem_of_lookup_2|].
      destruct (Hgraphs i h Hh) as (c' & Hc' & _ & _ & _ & _ & _ & Hedges & _).
      rewrite Hi in Hc'. injection Hc' as <-.
      apply Hedges. split_and!; [done..|].
      destruct (Hcls c Hc) as (_ & _ & Hclass).
      apply (Hclass u Huc). apply rtc_once. by left.
    + intros (h & [i Hi]%list_elem_of_lookup_1 & Huv).
      destruct (Hgraphs i h Hi) as (c & _ & _ & _ & _ & _ & _ & Hedges & _).
      exact (proj1 (proj1 (Hedges u v) Huv)).
Qed.

Lemma independent_phylogenies_partition_witness :
  (∀ n, n ∈ node_ids forest →
     ∃ i h, (get_independent_phylogenies forest_store forest).1 !! i = Some h ∧
            n ∈ node_ids h ∧
            ∀ j h',
              (get_independent_phylogenies forest_store forest).1 !! j = Some h' →
              n ∈ node_ids h' → j = i) ∧
  (∀ h, h ∈ (get_independent_phylogenies forest_store forest).1 →
     nodes h ≠ [] ∧ ∀ n, n ∈ node_ids h → n ∈ node_ids forest) ∧
  (∀ u v, edge forest u v ↔
          ∃ h, h ∈ (get_independent_phylogenies forest_store forest).1 ∧
               edge h u v).
Proof. apply independent_phylogenies_partition, forest_wf. Defined.

(** X8.  Each graph that [get_independent_phylogenies] returns is one
    piece: [has_single_root] holds of it, [get_num_independent_phylogenies]
    counts 1 in it, and its taxa are exactly those joined, in the phylogeny
    taken as undirected, to any one of them. *)
Theorem independent_phylogenies_connected (σ : store) (g : DiGraph loc) :
  world_wf σ g →
  Forall (λ h,
      has_single_root h = Ret true ∧
      get_num_independent_phylogenies h = 1%Z ∧
      ∀ x, x ∈ node_ids h →
        ∀ y, y ∈ node_ids h ↔ rtc (linked g) x y)
    (get_independent_phylogenies σ g).1.
Proof.
  intros Hwf. apply Forall_forall. intros h [i Hi]%list_elem_of_lookup_1.
  destruct (independent_phylogenies_spec σ g Hwf) as (_ & Hgraphs & _).
  destruct (Hgraphs i h Hi)
    as (c & _ & _ & Hclass & Hnodes & _ & Hne & Hedges & Hwfh & _).
  assert (weakly_connected h) as Hconn.
  { intros u v Hu%Hnodes Hv%Hnodes.
    apply (rtc_linked_subgraph g h c u v Hedges); [|done|].
    - intros a b Ha Hab. apply (Hclass a Ha). by apply rtc_once.
    - by apply (Hclass u Hu). }
  destruct (is_weakly_connected_spec h (proj1 Hwfh) Hne) as [Hone Hnum].
  split_and!.
  - by apply Hone.
  - by apply Hnum.
  - intros x Hx%Hnodes y. rewrite Hnodes. by apply Hclass.
Qed.

Lemma independent_phylogenies_connected_witness :
  Forall (λ h,
      has_single_root h = Ret true ∧
      get_num_independent_phylogenies h = 1%Z ∧
      ∀ x, x ∈ node_ids h →
        ∀ y, y ∈ node_ids h ↔ rtc (linked forest) x y)
    (get_independent_phylogenies forest_store forest).1.
Proof. apply independent_phylogenies_connected, forest_wf. Defined.

(** X9.  The graphs that [get_independent_phylogenies] returns are copies.
    The call only allocates: the objects of the store are what they were.
    The attribute object of a node of a returned graph is a new object,
    with the contents of the taxon's object in the phylogeny, and no two
    nodes of the returned graphs share one.  So writing to a returned graph,
    as [get_roots] does, leaves the objects of the phylogeny as they were. *)
Theorem independent_phylogenies_are_copies (σ : store) (g : DiGraph loc) :
  world_wf σ g →
  σ `prefix_of` (get_independent_phylogenies σ g).2 ∧
  Forall (λ h,
      world_wf (get_independent_phylogenies σ g).2 h ∧
      (∀ n, n ∈ node_ids h →
         node_attrs (get_independent_phylogenies σ g).2 h n = node_attrs σ g n) ∧
      (∀ l, l ∈ (nodes h).*2 → length σ ≤ l) ∧
      (∀ l, l < length σ →
         (get_roots (get_independent_phylogenies σ g).2 h).2 !! l = σ !! l))
    (get_independent_phylogenies σ g).1 ∧
  (∀ i j hi hj l,
     (get_independent_phylogenies σ g).1 !! i = Some hi →
     (get_independent_phylogenies σ g).1 !! j = Some hj →
     l ∈ (nodes hi).*2 → l ∈ (nodes hj).*2 → i = j).
Proof.
  intros Hwf.
  destruct (independent_phylogenies_spec σ g Hwf) as (Hp & Hgraphs & _).
  split_and!; [done|..].
  - apply Forall_forall. intros h [i Hi]%list_elem_of_lookup_1.
    destruct (Hgraphs i h Hi)
      as (c & _ & _ & _ & Hnodes & _ & _ & _ & Hwfh & Hattrs & Hfresh).
    split_and!; [done| |done|].
    + intros n Hn%Hnodes. by apply Hattrs.
    + intros l Hl.
      destruct (annotated_query_spec (get_independent_phylogenies σ g).2 h
                  (λ n, length (predecessors h n) = 0) Hwfh)
        as (_ & _ & _ & Hout & _).
      unfold get_roots. cbn [snd]. rewrite Hout.
      * symmetry. by apply prefix_lookup_lt.
      * intros Hin%Hfresh. lia.
  - destruct (sorted_components_spec g (proj1 Hwf)) as (_ & Hcls & _).
    destruct (subgraph_copies_spec g σ
                (sorted_by_size (nx.weakly_connected_components g)) Hwf)
      as (_ & _ & _ & Hdisj).
    { intros c n Hc Hn. by apply (Hcls c Hc). }
    exact Hdisj.
Qed.

Lemma independent_phylogenies_are_copies_witness :
  forest_store `prefix_of` (get_independent_phylogenies forest_store forest).2 ∧
  Forall (λ h,
      world_wf (get_independent_phylogenies forest_store forest).2 h ∧
      (∀ n, n ∈ node_ids h →
         node_attrs (get_independent_phylogenies forest_store forest).2 h n
         = node_attrs forest_store forest n) ∧
      (∀ l, l ∈ (nodes h).*2 → length forest_store ≤ l) ∧
      (∀ l, l < length forest_store →
         (get_roots (get_independent_phylogenies forest_store forest).2 h).2 !! l
         = forest_store !! l))
    (get_independent_phylogenies forest_store forest).1 ∧
  (∀ i j hi hj l,
     (get_independent_phylogenies forest_store forest).1 !! i = Some hi →
     (get_independent_phylogenies forest_store forest).1 !! j = Some hj →
     l ∈ (nodes hi).*2 → l ∈ (nodes hj).*2 → i = j).
Proof. apply independent_phylogenies_are_copies, forest_wf. Defined.

(** ** Roots and components of an asexual phylogeny *)

Section root_of.
Context {A : Type} (g : DiGraph A).
Hypothesis Hwf : graph_wf g.
Hypothesis Hacyc : acyclic g.
Hypothesis Hsex : is_asexual g = true.

Lemma root_of_root r : r ∈ get_root_ids g → root_of g r = Some r.
Proof.
  intros [Hr Hpred]%get_root_ids_nodes. unfold root_of.
  destruct (nodes g) as [|p ns] eqn:Hnodes.
  { unfold node_ids in Hr. rewrite Hnodes in Hr. by apply elem_of_nil in Hr. }
  cbn [length trail]. by rewrite Hpred.
Qed.

Lemma root_of_is_root n :
  n ∈ node_ids g →
  ∃ r, root_of g n = Some r ∧ r ∈ get_root_ids g.
Proof using Hwf Hacyc.
  intros Hn. unfold root_of.
  destruct (predecessors_trail_terminates g (length (nodes g)) n Hwf Hacyc Hn)
    as [t Ht]; [done|].
  destruct (trail_end _ _ _ _ Ht) as (z & Hlast & Hz).
  exists z. rewrite Ht. split; [done|].
  apply list_elem_of_filter. split; [by rewrite Hz|].
  eapply predecessors_trail_nodes; [done..|]. by apply last_Some_elem_of.
Qed.

Lemma root_of_edge u v : edge g u v → root_of g u = root_of g v.
Proof using Hwf Hacyc Hsex.
  intros Huv.
  assert (v ∈ node_ids g) as Hv by (by apply Hwf in Huv as [_ ?]).
  assert (predecessors g v = [u]) as Hpred.
  { pose proof (is_asexual_spec g v Hsex Hv) as Hle.
    apply elem_of_predecessors in Huv.
    destruct (predecessors g v) as [|a [|b l]]; simpl in Hle; [|..|lia].
    - by apply elem_of_nil in Huv.
    - by apply list_elem_of_singleton in Huv as ->. }
  unfold root_of.
  destruct (predecessors_trail_terminates g (length (nodes g)) v Hwf Hacyc Hv)
    as [t Ht]; [done|].
  rewrite Ht. destruct (length (nodes g)) as [|fuel] eqn:Hlen; [done|].
  cbn [trail] in Ht. rewrite Hpred in Ht.
  destruct (trail (predecessors g) fuel u) as [t'|] eqn:Ht'; [|done].
  injection Ht as <-.
  rewrite (trail_fuel_mono _ fuel (S fuel) u t' Ht') by lia.
  destruct (trail_start _ _ _ _ Ht') as [t'' ->]. done.
Qed.

Lemma root_of_linked u v : rtc (linked g) u v → root_of g u = root_of g v.
Proof using Hwf Hacyc Hsex.
  induction 1 as [|x y z Hxy _ IH]; [done|]. rewrite <- IH.
  destruct Hxy as [He|He]; [|symmetry]; by apply root_of_edge.
Qed.

Lemma root_of_reaches n r :
  n ∈ node_ids g → root_of g n = Some r → rtc (linked g) n r.
Proof.
  unfold root_of. intros Hn Hr.
  destruct (trail (predecessors g) (length (nodes g)) n) as [t|] eqn:Ht;
    [|done].
  simpl in Hr. apply last_Some_elem_of in Hr.
  eapply rtc_subrel; [|by eapply trail_reach_rtc].
  intros a b Hab. right. by apply elem_of_predecessors in Hab.
Qed.

Lemma roots_components_length :
  length (get_root_ids g) = length (nx.weakly_connected_components g).
Proof using Hwf Hacyc Hsex.
  rewrite <- (Permutation_length
                (sorted_by_size_Permutation (nx.weakly_connected_components g))).
  destruct (sorted_components_spec g Hwf) as (Hnd & Hcls & Hcov & Huniq).
  set (comps := sorted_by_size (nx.weakly_connected_components g)) in *.
  set (f := λ c : list value, default (VInt 0) (head c ≫= root_of g)).
  assert (∀ c, c ∈ comps → f c ∈ get_root_ids g ∧ f c ∈ c) as Hf.
  { intros c Hc. destruct (Hcls c Hc) as (_ & Hne & Hclass).
    destruct c as [|x c]; [done|].
    assert (x ∈ x :: c) as Hx by left.
    destruct (Hclass x Hx) as [Hxn Hxc].
    destruct (root_of_is_root x Hxn) as (r & Hr & Hroot).
    unfold f. cbn [head mbind option_bind]. rewrite Hr. cbn [default].
    split; [done|]. apply Hxc. by apply root_of_reaches. }
  rewrite <- (length_fmap f comps).
  apply Permutation_length, NoDup_Permutation.
  - apply NoDup_filter, Hwf.
  - apply NoDup_fmap_2_strong; [|done].
    intros c c' Hc Hc' Heq. apply (Huniq c c' (f c)); [done..| |].
    + by apply Hf.
    + rewrite Heq. by apply Hf.
  - intros r. rewrite list_elem_of_fmap. split.
    + intros Hr. destruct (get_root_ids_nodes g r Hr) as [Hrn _].
      destruct (Hcov r Hrn) as (c & Hc & Hrc). exists c. split; [|done].
      destruct (Hf c Hc) as [Hroot Hin].
      destruct (Hcls c Hc) as (_ & _ & Hclass).
      assert (root_of g r = root_of g (f c)) as Heq.
      { apply root_of_linked. by apply (Hclass r Hrc). }
      rewrite !root_of_root in Heq by done. congruence.
    + intros (c & -> & Hc). by apply Hf.
Qed.
End root_of.

(** X10.  In an asexual acyclic phylogeny the roots and the independent
    phylogenies are as many: [get_num_roots] and
    [get_num_independent_phylogenies] agree, and on such a phylogeny with at
    least one node [has_single_root] holds exactly when [get_num_roots]
    is 1. *)
Theorem roots_count_phylogenies {A} (g : DiGraph A) :
  graph_wf g → acyclic g → is_asexual g = true →
  get_num_roots g = get_num_independent_phylogenies g ∧
  (nodes g ≠ [] → (has_single_root g = Ret true ↔ get_num_roots g = 1%Z)).
Proof.
  intros Hwf Hacyc Hsex.
  assert (get_num_roots g = get_num_independent_phylogenies g) as Heq.
  { unfold get_num_roots, get_num_independent_phylogenies,
      nx.number_weakly_connected_components.
    by rewrite roots_components_length. }
  split; [done|]. intros Hne. rewrite Heq.
  destruct (is_weakly_connected_spec g Hwf Hne) as [Hone Hnum].
  unfold has_single_root, get_num_independent_phylogenies.
  by rewrite Hone, Hnum.
Qed.

Lemma roots_count_phylogenies_witness :
  get_num_roots chain_ABCD = get_num_independent_phylogenies chain_ABCD ∧
  (nodes chain_ABCD ≠ [] →
     (has_single_root chain_ABCD = Ret true ↔ get_num_roots chain_ABCD = 1%Z)).
Proof.
  apply roots_count_phylogenies;
    [apply chain_ABCD_wf|apply chain_ABCD_acyclic|reflexivity].
Defined.

(** ** What [is_asexual_lineage] decides *)

Lemma successors_trail_nodes {A} (g : DiGraph A) fuel x t :
  graph_wf g → x ∈ node_ids g → trail (successors g) fuel x = Some t →
  ∀ y, y ∈ t → y ∈ node_ids g.
Proof.
  intros Hwf Hx Ht y Hy.
  destruct (trail_reach _ _ _ _ _ Ht Hy) as [->|Htc]; [done|].
  apply tc_rtc, rtc_inv_r in Htc as [->|(z & _ & Hz)]; [done|].
  apply elem_of_successors in Hz. by apply Hwf in Hz as [_ ?].
Qed.

Section lineage_shape.
Context {A : Type} (g : DiGraph A) (fuel : nat) (r : value) (t : list value).
Hypothesis Hwf : graph_wf g.
Hypothesis Hacyc : acyclic g.
Hypothesis Hroots : get_root_ids g = [r].
Hypothesis Ht : trail (successors g) fuel r = Some t.
Hypothesis Hsucc : ∀ n, n ∈ node_ids g → length (successors g n) ≤ 1.

Lemma lineage_trail_covers n : n ∈ node_ids g ↔ n ∈ t.
Proof using All.
  assert (r ∈ node_ids g) as Hr.
  { apply (get_root_ids_nodes g r). rewrite Hroots. left. }
  split.
  - apply (single_root_trail_covers g r fuel t Hwf Hacyc Hroots Ht).
    intros y Hy. apply Hsucc. by eapply successors_trail_nodes.
  - by eapply successors_trail_nodes.
Qed.

Lemma lineage_trail_NoDup : NoDup t.
Proof using Hwf Hacyc Ht.
  eapply trail_NoDup; [|exact Ht]. intros n Hn. apply (Hacyc n).
  eapply tc_congruence with (f := id); [|exact Hn].
  intros a b Hab. by apply elem_of_successors in Hab.
Qed.

Lemma lineage_unique_parent u v n : edge g u n → edge g v n → u = v.
Proof using All.
  intros Hu Hv.
  assert (∀ w, edge g w n → ∃ i, t !! i = Some w ∧ t !! S i = Some n) as Hpos.
  { intros w Hw.
    assert (w ∈ node_ids g) as Hwn by (by apply Hwf in Hw as [? _]).
    pose proof (Hsucc w Hwn) as Hle.
    apply lineage_trail_covers, list_elem_of_lookup_1 in Hwn as [i Hi].
    exists i. split; [done|].
    apply elem_of_successors in Hw.
    destruct (successors g w) as [|b [|c l]] eqn:Hs; simpl in Hle; [|..|lia].
    - by apply elem_of_nil in Hw.
    - apply list_elem_of_singleton in Hw as ->.
      by eapply trail_step. }
  destruct (Hpos u Hu) as (i & Hi & Hi').
  destruct (Hpos v Hv) as (j & Hj & Hj').
  assert (S i = S j) as [= ->].
  { by apply (NoDup_lookup t (S i) (S j) n lineage_trail_NoDup). }
  congruence.
Qed.

Lemma lineage_is_asexual : is_asexual g = true.
Proof using All.
  apply is_asexual_true. intros n Hn.
  apply NoDup_all_equal; [apply predecessors_NoDup, Hwf|].
  intros a b Ha%elem_of_predecessors Hb%elem_of_predecessors.
  by apply (lineage_unique_parent a b n).
Qed.

Lemma lineage_one_leaf : ∃ e, last t = Some e ∧ get_leaf_taxa_ids g = [e].
Proof using All.
  destruct (trail_end _ _ _ _ Ht) as (z & Hlast & Hz).
  exists z. split; [done|].
  apply filter_only.
  - apply Hwf.
  - apply lineage_trail_covers. by apply last_Some_elem_of.
  - intros x Hx. split; [|by intros ->; rewrite Hz].
    intros Hleaf. apply lineage_trail_covers, list_elem_of_lookup_1 in Hx as [i Hi].
    destruct (decide (S i = length t)) as [Hend|Hmid].
    + rewrite last_lookup, <- Hend in Hlast. simpl in Hlast. congruence.
    + pose proof (lookup_lt_Some _ _ _ Hi) as Hlt.
      destruct (lookup_lt_is_Some_2 t (S i)) as [b Hb]; [lia|].
      pose proof (trail_link _ _ _ _ _ _ _ Ht Hi Hb) as Hhead.
      destruct (successors g x); [done|]. done.
Qed.

Lemma lineage_weakly_connected : weakly_connected g.
Proof using All.
  assert (∀ n, n ∈ node_ids g → rtc (linked g) r n) as Hreach.
  { intros n Hn%lineage_trail_covers.
    eapply rtc_subrel; [|by eapply trail_reach_rtc].
    intros a b Hab. left. by apply elem_of_successors in Hab. }
  intros u v Hu Hv. etrans; [|by apply Hreach].
  apply rtc_linked_sym. by apply Hreach.
Qed.
End lineage_shape.

Section lineage_decided.
Context {A : Type} (g : DiGraph A) (fuel : nat).
Hypothesis Hwf : graph_wf g.
Hypothesis Hacyc : acyclic g.
Hypothesis Hfuel : length (nodes g) ≤ fuel.

Lemma is_asexual_lineage_decided :
  ∃ b, is_asexual_lineage fuel g = Ret b ∧
       (b = true ↔
          length (get_root_ids g) = 1 ∧
          ∀ n, n ∈ node_ids g → length (successors g n) ≤ 1).
Proof using All.
  unfold is_asexual_lineage. case_bool_decide as Hlen.
  { exists false. split; [done|]. split; [done|]. by intros [? _]. }
  destruct (get_root_ids g) as [|r [|r' l]] eqn:Hroots; try done.
  assert (r ∈ node_ids g) as Hr.
  { apply (get_root_ids_nodes g r). rewrite Hroots. left. }
  destruct (successors_trail_terminates g fuel r Hwf Hacyc Hr Hfuel) as [t Ht].
  rewrite (lineage_walk_trail g fuel [] r t Ht
           : lineage_walk fuel g [r] = _).
  eexists. split; [done|]. rewrite forallb_elem_of. split.
  - intros Hall. split; [done|]. intros n Hn.
    assert (∀ y, y ∈ t → length (successors g y) ≤ 1) as Ht1.
    { intros y Hy. exact (bool_decide_eq_true_1 _ (Hall y Hy)). }
    apply Ht1. by apply (single_root_trail_covers g r fuel t).
  - intros [_ Hall] y Hy. apply bool_decide_eq_true_2, Hall.
    by eapply successors_trail_nodes.
Qed.
End lineage_decided.

(** X11.  On an acyclic graph [is_asexual_lineage] answers true exactly
    when the graph has one root and no taxon has more than one successor,
    and false otherwise.  When it answers true the graph is a chain: it is
    asexual, has exactly one leaf, and is one piece. *)
Theorem is_asexual_lineage_iff {A} (g : DiGraph A) (fuel : nat) :
  graph_wf g → acyclic g → length (nodes g) ≤ fuel →
  (is_asexual_lineage fuel g = Ret true ↔
     length (get_root_ids g) = 1 ∧
     ∀ n, n ∈ node_ids g → length (successors g n) ≤ 1) ∧
  (is_asexual_lineage fuel g = Ret false ↔
     ¬ (length (get_root_ids g) = 1 ∧
        ∀ n, n ∈ node_ids g → length (successors g n) ≤ 1)) ∧
  (is_asexual_lineage fuel g = Ret true →
     is_asexual g = true ∧
     length (get_leaf_taxa_ids g) = 1 ∧
     has_single_root g = Ret true).
Proof.
  intros Hwf Hacyc Hfuel.
  destruct (is_asexual_lineage_decided g fuel Hwf Hacyc Hfuel) as (b & Hb & Hiff).
  assert (is_asexual_lineage fuel g = Ret true ↔
            length (get_root_ids g) = 1 ∧
            ∀ n, n ∈ node_ids g → length (successors g n) ≤ 1) as Htrue.
  { rewrite Hb, <- Hiff. split; [by intros [= ->]|by intros ->]. }
  split_and!; [done|..].
  - rewrite Hb. split.
    + intros [= ->] HP. by apply Hiff in HP.
    + intros HnP. destruct b; [|done]. exfalso. by apply HnP, Hiff.
  - intros [Hone Hsucc]%Htrue.
    destruct (get_root_ids g) as [|r [|r' l]] eqn:Hroots; try done.
    assert (r ∈ node_ids g) as Hr.
    { apply (get_root_ids_nodes g r). rewrite Hroots. left. }
    destruct (successors_trail_terminates g fuel r Hwf Hacyc Hr Hfuel) as [t Ht].
    split_and!.
    + by apply (lineage_is_asexual g fuel r t).
    + destruct (lineage_one_leaf g fuel r t Hwf Hacyc Hroots Ht Hsucc)
        as (e & _ & ->). done.
    + assert (nodes g ≠ []) as Hne.
      { intros Hnil. unfold node_ids in Hr. rewrite Hnil in Hr.
        by apply elem_of_nil in Hr. }
      apply (is_weakly_connected_spec g Hwf Hne).
      by apply (lineage_weakly_connected g fuel r t).
Qed.

Lemma is_asexual_lineage_iff_witness :
  (is_asexual_lineage 4 chain_ABCD = Ret true ↔
     length (get_root_ids chain_ABCD) = 1 ∧
     ∀ n, n ∈ node_ids chain_ABCD → length (successors chain_ABCD n) ≤ 1) ∧
  (is_asexual_lineage 4 chain_ABCD = Ret false ↔
     ¬ (length (get_root_ids chain_ABCD) = 1 ∧
        ∀ n, n ∈ node_ids chain_ABCD → length (successors chain_ABCD n) ≤ 1)) ∧
  (is_asexual_lineage 4 chain_ABCD = Ret true →
     is_asexual chain_ABCD = true ∧
     length (get_leaf_taxa_ids chain_ABCD) = 1 ∧
     has_single_root chain_ABCD = Ret true).
Proof.
  apply is_asexual_lineage_iff;
    [apply chain_ABCD_wf|apply chain_ABCD_acyclic|vm_compute; lia].
Defined.

(** ** The extant taxa *)

Section filter_out_facts.
Context {A : Type} (f : A → outcome bool).

Lemma filter_out_sublist l r : filter_out f l = Ret r → r `sublist_of` l.
Proof.
  revert r. induction l as [|x l IH]; intros r; cbn [filter_out].
  { by intros [= <-]. }
  destruct (f x) as [b| |]; [|done..]. cbn.
  destruct (filter_out f l) as [r'| |]; [|done..]. cbn.
  intros [= <-]. destruct b.
  - by apply sublist_skip, IH.
  - by apply sublist_cons, IH.
Qed.

Lemma filter_out_elem_of l r x :
  filter_out f l = Ret r → (x ∈ r ↔ x ∈ l ∧ f x = Ret true).
Proof.
  revert r. induction l as [|y l IH]; intros r; cbn [filter_out].
  { intros [= <-]. split; [by intros ?%elem_of_nil|].
    by intros [?%elem_of_nil _]. }
  destruct (f y) as [b| |] eqn:Hy; [|done..]. cbn.
  destruct (filter_out f l) as [r'| |]; [|done..]. cbn.
  intros [= <-]. specialize (IH r' eq_refl).
  destruct b; rewrite ?elem_of_cons, IH, ?elem_of_cons.
  - split; [intros [->|[? ?]]; auto|]. intros [[->|?] ?]; auto.
  - split; [intros [? ?]; auto|]. intros [[->|?] ?]; [congruence|auto].
Qed.

Lemma filter_out_returns l :
  (∀ x, x ∈ l → ∃ b, f x = Ret b) → ∃ r, filter_out f l = Ret r.
Proof.
  induction l as [|x l IH]; intros Hall; cbn [filter_out]; [by eexists|].
  destruct (Hall x) as [b ->]; [by left|].
  destruct IH as [r ->]; [intros y Hy; apply Hall; by right|].
  cbn. by eexists.
Qed.

Lemma filter_out_raises l l' x e :
  (∀ y, y ∈ l → ∃ b, f y = Ret b) → f x = Raise e →
  filter_out f (l ++ x :: l') = Raise e.
Proof.
  induction l as [|y l IH]; intros Hall Hx; cbn [filter_out app].
  { by rewrite Hx. }
  destruct (Hall y) as [b ->]; [by left|]. cbn.
  rewrite IH; [done| |done]. intros z Hz. apply Hall. by right.
Qed.
End filter_out_facts.

Lemma filter_out_fst {A} (F : value → outcome bool)
    (G : value * A → outcome bool) (l : list (value * A)) :
  (∀ p, p ∈ l → F p.1 = G p) →
  filter_out F l.*1 = (d ← filter_out G l; Ret d.*1).
Proof.
  induction l as [|p l IH]; intros Hall; [done|].
  rewrite fmap_cons. cbn [filter_out].
  rewrite (Hall p) by left. rewrite IH by (intros q Hq; apply Hall; by right).
  destruct (G p) as [b| |]; [|done..]. cbn.
  destruct (filter_out G l) as [r| |]; [|done..]. cbn.
  by destruct b.
Qed.

Lemma node_attrs_node σ (g : DiGraph loc) n l :
  NoDup (node_ids g) → (n, l) ∈ nodes g → node_attrs σ g n = Ret (σ !!! l).
Proof.
  intros Hnd Hin. unfold node_attrs. by rewrite (node_lookup_Some g n l).
Qed.

(** X12.  [get_extant_taxa] selects the taxa that [get_extant_taxa_ids]
    lists, and fails as it does.  When it returns, the dictionaries it
    returns are the graph's own attribute objects, each now with [id] set
    to the taxon's id; the objects of the taxa not returned are what they
    were, and nothing is allocated. *)
Theorem get_extant_taxa_keys (σ : store) (g : DiGraph loc)
    (time not_destroyed_value : value)
    (destruction_attribute origin_attribute : string) :
  world_wf σ g →
  (r ← get_extant_taxa σ g time not_destroyed_value
                       destruction_attribute origin_attribute;
   Ret r.1.*1)
  = get_extant_taxa_ids σ g time not_destroyed_value
                        destruction_attribute origin_attribute ∧
  ∀ extant σ',
    get_extant_taxa σ g time not_destroyed_value
                    destruction_attribute origin_attribute = Ret (extant, σ') →
    extant `sublist_of` nodes g ∧
    (∀ n l, (n, l) ∈ extant → σ' !! l = Some (<["id" := n]> (σ !!! l))) ∧
    (∀ l, l ∉ extant.*2 → σ' !! l = σ !! l) ∧
    length σ' = length σ.
Proof.
  intros (Hg & Hlocs & Halloc). split.
  - unfold get_extant_taxa, get_extant_taxa_ids.
    destruct (validate_destruction_time σ g destruction_attribute)
      as [[]| |]; [|done..]. cbn.
    destruct (if negb (py_eq time (VStr "present"))
              then validate_origin_time σ g origin_attribute else Ret tt)
      as [[]| |]; [|done..]. cbn.
    unfold node_ids.
    rewrite (filter_out_fst _
               (λ p, taxon_is_alive (σ !!! p.2) time not_destroyed_value
                       destruction_attribute origin_attribute)).
    + by destruct (filter_out _ (nodes g)).
    + intros [n l] Hp. cbn [fst snd].
      by rewrite (node_attrs_node σ g n l (proj1 Hg) Hp).
  - intros extant σ'. unfold get_extant_taxa.
    destruct (validate_destruction_time σ g destruction_attribute)
      as [[]| |]; [|done..]. cbn.
    destruct (if negb (py_eq time (VStr "present"))
              then validate_origin_time σ g origin_attribute else Ret tt)
      as [[]| |]; [|done..]. cbn.
    destruct (filter_out _ (nodes g)) as [d| |] eqn:Hd; [|done..]. cbn.
    intros [= <- <-].
    apply filter_out_sublist in Hd.
    assert (d.*2 `sublist_of` (nodes g).*2) as Hsub by (by apply fmap_sublist).
    destruct (annotate_ids_spec d σ) as (Hlen & Hin & Hout).
    { by eapply sublist_NoDup. }
    { intros l Hl. apply Halloc. by eapply elem_of_sublist. }
    done.
Qed.

Lemma get_extant_taxa_keys_witness :
  (r ← get_extant_taxa chain_store chain_ABCD (VInt 2) (VStr "none")
                       "destruction_time" "origin_time";
   Ret r.1.*1)
  = get_extant_taxa_ids chain_store chain_ABCD (VInt 2) (VStr "none")
                        "destruction_time" "origin_time" ∧
  ∀ extant σ',
    get_extant_taxa chain_store chain_ABCD (VInt 2) (VStr "none")
                    "destruction_time" "origin_time" = Ret (extant, σ') →
    extant `sublist_of` nodes chain_ABCD ∧
    (∀ n l, (n, l) ∈ extant →
            σ' !! l = Some (<["id" := n]> (chain_store !!! l))) ∧
    (∀ l, l ∉ extant.*2 → σ' !! l = chain_store !! l) ∧
    length σ' = length chain_store.
Proof. apply get_extant_taxa_keys, chain_ABCD_wf. Defined.

Lemma taxon_is_alive_integer (node : gmap string value) (t o : Z)
    (dv not_destroyed_value : value) (origin_attribute : string) :
  node !! "destruction_time" = Some dv →
  dv = not_destroyed_value ∨ (∃ d, dv = VInt d) →
  node !! origin_attribute = Some (VInt o) →
  ∃ b, taxon_is_alive node (VInt t) not_destroyed_value
                      "destruction_time" origin_attribute = Ret b ∧
       (b = true ↔
          (o < t)%Z ∧
          (dv = not_destroyed_value ∨ ∃ d, dv = VInt d ∧ (t < d)%Z)).
Proof.
  intros Hd Hdv Ho. unfold taxon_is_alive.
  rewrite (getitem_Some node "destruction_time" dv Hd). cbn.
  assert (py_eq (VInt t) (VStr "present") = false) as -> by done.
  unfold py_eq at 1. case_bool_decide as Hs.
  - cbn. rewrite (getitem_Some node origin_attribute (VInt o) Ho). cbn.
    eexists. split; [done|]. rewrite Z.ltb_lt. split; [|tauto].
    intros Hlt. split; [done|by left].
  - destruct Hdv as [?|[d ->]]; [done|]. cbn.
    destruct (t <? d)%Z eqn:Htd.
    + rewrite (getitem_Some node origin_attribute (VInt o) Ho). cbn.
      eexists. split; [done|]. rewrite Z.ltb_lt. apply Z.ltb_lt in Htd.
      split; [|tauto]. intros Hlt. split; [done|]. right. by exists d.
    + exists false. split; [done|]. apply Z.ltb_ge in Htd.
      split; [done|]. intros [_ [?|(d' & [= <-] & Hlt)]]; [done|lia].
Qed.

(** X13.  On a phylogeny whose taxa all have an integer origin time and a
    destruction time that is the sentinel or an integer,
    [get_extant_taxa_ids] at an integer time returns without error, in the
    order of the graph, exactly the taxa that originated strictly before
    that time and are not destroyed or are destroyed strictly after it: a
    taxon is not extant at its own origin time, nor at its destruction
    time. *)
Theorem get_extant_taxa_ids_at_integer_time (σ : store) (g : DiGraph loc)
    (t : Z) (not_destroyed_value : value) (origin_attribute : string) :
  graph_wf g →
  (∀ n l, (n, l) ∈ nodes g →
     (∃ o, (σ !!! l : gmap string value) !! origin_attribute = Some (VInt o)) ∧
     ((σ !!! l : gmap string value) !! "destruction_time"
        = Some not_destroyed_value ∨
      ∃ d, (σ !!! l : gmap string value) !! "destruction_time"
             = Some (VInt d))) →
  ∃ ids,
    get_extant_taxa_ids σ g (VInt t) not_destroyed_value
                        "destruction_time" origin_attribute = Ret ids ∧
    ids `sublist_of` node_ids g ∧
    ∀ n l, (n, l) ∈ nodes g →
      (n ∈ ids ↔
         (∃ o, (σ !!! l : gmap string value) !! origin_attribute
                 = Some (VInt o) ∧ (o < t)%Z) ∧
         ((σ !!! l : gmap string value) !! "destruction_time"
            = Some not_destroyed_value ∨
          ∃ d, (σ !!! l : gmap string value) !! "destruction_time"
                 = Some (VInt d) ∧ (t < d)%Z)).
Proof.
  intros Hwf Htyped.
  assert (∀ n l, (n, l) ∈ nodes g →
            ∃ b, (a ← node_attrs σ g n;
                  taxon_is_alive a (VInt t) not_destroyed_value
                                 "destruction_time" origin_attribute) = Ret b ∧
                 (b = true ↔
                    (∃ o, (σ !!! l : gmap string value) !! origin_attribute
                            = Some (VInt o) ∧ (o < t)%Z) ∧
                    ((σ !!! l : gmap string value) !! "destruction_time"
                       = Some not_destroyed_value ∨
                     ∃ d, (σ !!! l : gmap string value) !! "destruction_time"
                            = Some (VInt d) ∧ (t < d)%Z))) as Halive.
  { intros n l Hin. rewrite (node_attrs_node σ g n l (proj1 Hwf) Hin). cbn.
    destruct (Htyped n l Hin) as [[o Ho] Hd].
    assert (∃ dv, (σ !!! l : gmap string value) !! "destruction_time" = Some dv ∧
                  (dv = not_destroyed_value ∨ ∃ d, dv = VInt d))
      as (dv & Hdv & Hcases).
    { destruct Hd as [Hd|[d Hd]]; eexists; (split; [exact Hd|]); eauto. }
    destruct (taxon_is_alive_integer (σ !!! l) t o dv not_destroyed_value
                origin_attribute Hdv Hcases Ho) as (b & Hb & Hiff).
    exists b. split; [done|]. rewrite Hiff, Hdv, Ho. split.
    - intros [Hlt Hc]. split; [by exists o|].
      destruct Hc as [->|(d & -> & Htd)]; [by left|right; by exists d].
    - intros [(o' & [= <-] & Hlt) Hc]. split; [done|].
      destruct Hc as [[= ->]|(d & [= ->] & Htd)]; [by left|right; by exists d]. }
  unfold get_extant_taxa_ids, validate_destruction_time, validate_origin_time.
  assert (all_taxa_have_attribute σ g "destruction_time" = true) as ->.
  { apply forallb_elem_of. intros [n l] Hin. apply bool_decide_eq_true_2.
    destruct (Htyped n l Hin) as [_ [Hd|[d Hd]]]; simpl; by rewrite Hd. }
  assert (all_taxa_have_attribute σ g origin_attribute = true) as Horigin.
  { apply forallb_elem_of. intros [n l] Hin. apply bool_decide_eq_true_2.
    destruct (Htyped n l Hin) as [[o Ho] _]. simpl. by rewrite Ho. }
  assert (py_eq (VInt t) (VStr "present") = false) as -> by done.
  cbn [negb]. rewrite Horigin. cbn.
  destruct (filter_out_returns
              (λ node, a ← node_attrs σ g node;
                       taxon_is_alive a (VInt t) not_destroyed_value
                                      "destruction_time" origin_attribute)
              (node_ids g)) as [ids Hids].
  { intros n ([n' l] & -> & Hin)%list_elem_of_fmap.
    destruct (Halive n' l Hin) as (b & Hb & _). by exists b. }
  exists ids. split_and!; [done|by eapply filter_out_sublist|].
  intros n l Hin. rewrite (filter_out_elem_of _ _ _ n Hids).
  destruct (Halive n l Hin) as (b & Hb & Hiff). rewrite Hb, <- Hiff. split.
  - by intros [_ [= ->]].
  - intros ->. split; [|done]. apply list_elem_of_fmap. by exists (n, l).
Qed.

Lemma get_extant_taxa_ids_at_integer_time_witness :
  ∃ ids,
    get_extant_taxa_ids chain_store chain_ABCD (VInt 2) (VStr "none")
                        "destruction_time" "origin_time" = Ret ids ∧
    ids `sublist_of` node_ids chain_ABCD ∧
    ∀ n l, (n, l) ∈ nodes chain_ABCD →
      (n ∈ ids ↔
         (∃ o, (chain_store !!! l : gmap string value) !! "origin_time"
                 = Some (VInt o) ∧ (o < 2)%Z) ∧
         ((chain_store !!! l : gmap string value) !! "destruction_time"
            = Some (VStr "none") ∨
          ∃ d, (chain_store !!! l : gmap string value) !! "destruction_time"
                 = Some (VInt d) ∧ (2 < d)%Z)).
Proof.
  apply get_extant_taxa_ids_at_integer_time; [apply chain_ABCD_wf|].
  intros n l Hin.
  apply (Forall_forall (λ p : value * nat,
           (∃ o, (chain_store !!! p.2 : gmap string value) !! "origin_time"
                   = Some (VInt o)) ∧
           ((chain_store !!! p.2 : gmap string value) !! "destruction_time"
              = Some (VStr "none") ∨
            ∃ d, (chain_store !!! p.2 : gmap string value) !! "destruction_time"
                   = Some (VInt d))) (nodes chain_ABCD)) in Hin; [exact Hin|].
  repeat constructor; try (eexists; reflexivity); right; eexists; reflexivity.
Defined.

Lemma filter_out_ext {A} (f f' : A → outcome bool) (l : list A) :
  (∀ x, x ∈ l → f x = f' x) → filter_out f l = filter_out f' l.
Proof.
  induction l as [|x l IH]; intros Hall; [done|]. cbn [filter_out].
  rewrite (Hall x) by left. rewrite IH; [done|].
  intros y Hy. apply Hall. by right.
Qed.

(** X14.  The checks of [get_extant_taxa_ids] come first and in this
    order: if a taxon lacks the destruction attribute the call raises for
    it, whatever the time; if none does, the time is not ["present"] and a
    taxon lacks the origin attribute, it raises for that one.  At
    ["present"] the origin attribute is neither checked nor read: the
    result is the same for every origin attribute.  On a graph without
    nodes the result is the empty list. *)
Theorem get_extant_taxa_ids_checks (σ : store) (g : DiGraph loc)
    (time not_destroyed_value : value)
    (destruction_attribute origin_attribute : string) :
  (all_taxa_have_attribute σ g destruction_attribute = false →
     get_extant_taxa_ids σ g time not_destroyed_value
                         destruction_attribute origin_attribute
     = Raise (MissingAttribute destruction_attribute)) ∧
  (all_taxa_have_attribute σ g destruction_attribute = true →
   time ≠ VStr "present" →
   all_taxa_have_attribute σ g origin_attribute = false →
     get_extant_taxa_ids σ g time not_destroyed_value
                         destruction_attribute origin_attribute
     = Raise (MissingAttribute origin_attribute)) ∧
  (∀ origin_attribute',
     get_extant_taxa_ids σ g (VStr "present") not_destroyed_value
                         destruction_attribute origin_attribute
     = get_extant_taxa_ids σ g (VStr "present") not_destroyed_value
                           destruction_attribute origin_attribute') ∧
  (nodes g = [] →
     get_extant_taxa_ids σ g time not_destroyed_value
                         destruction_attribute origin_attribute = Ret []).
Proof.
  unfold get_extant_taxa_ids, validate_destruction_time, validate_origin_time.
  split_and!.
  - by intros ->.
  - intros -> Htime ->. unfold py_eq.
    by rewrite (bool_decide_eq_false_2 _ Htime).
  - intros origin_attribute'.
    destruct (all_taxa_have_attribute σ g destruction_attribute); [|done].
    cbn. apply filter_out_ext. intros n _.
    destruct (node_attrs σ g n) as [a| |]; [|done..]. cbn.
    unfold taxon_is_alive.
    destruct (getitem a "destruction_time") as [d0| |]; [|done..]. cbn.
    by destruct (if py_eq d0 not_destroyed_value then Ret true
                 else d ← getitem a destruction_attribute;
                      py_gt d (VStr "present")) as [[]| |].
  - intros Hnil. unfold all_taxa_have_attribute, node_ids. rewrite Hnil. cbn.
    by destruct (negb (py_eq time (VStr "present"))).
Qed.

(** ** The extracted lineage and the ancestors *)

Section ancestors.
Context (σ : store) (g : DiGraph loc) (taxa_id : value) (fuel : nat)
        (t : list value).
Hypothesis Hwf : world_wf σ g.
Hypothesis Hacyc : acyclic g.
Hypothesis Hsex : is_asexual g = true.
Hypothesis Hin : taxa_id ∈ node_ids g.
Hypothesis Ht : trail (predecessors g) fuel taxa_id = Some t.

Let lin := (subgraph_copy σ g t).1.

Lemma back_trail_closed x y : y ∈ t → edge g x y → x ∈ t.
Proof using Hwf Hsex Hin Ht.
  intros [i Hi]%list_elem_of_lookup_1 Hxy%elem_of_predecessors.
  destruct (back_trail_cases σ g taxa_id fuel t Hwf Hsex Hin Ht i y Hi)
    as [[Hnil _]|(b & Hb & Hpred)].
  - rewrite Hnil in Hxy. by apply elem_of_nil in Hxy.
  - rewrite Hpred in Hxy. apply list_elem_of_singleton in Hxy as ->.
    by eapply list_elem_of_lookup_2.
Qed.

Lemma back_trail_ancestors n : n ∈ t ↔ rtc (edge g) n taxa_id.
Proof using Hwf Hsex Hin Ht.
  split.
  - intros Hn. apply rtc_flip. eapply rtc_subrel; [|by eapply trail_reach_rtc].
    intros a b Hab. by apply elem_of_predecessors in Hab.
  - revert n. apply rtc_ind_l.
    + destruct (trail_start _ _ _ _ Ht) as [t' ->]. left.
    + intros x y Hxy _ Hy. by eapply back_trail_closed.
Qed.

Lemma extracted_node_ids n : n ∈ node_ids lin ↔ n ∈ t.
Proof using Hwf Hin Ht.
  apply subgraph_copy_nodes. by eapply back_trail_nodes.
Qed.

Lemma extracted_leaf : get_leaf_taxa_ids lin = [taxa_id].
Proof using All.
  destruct (trail_start _ _ _ _ Ht) as [t' Heq].
  assert (taxa_id ∈ t) as Hhead by (rewrite Heq; left).
  assert (successors lin taxa_id = []) as Hnone.
  { destruct (successors lin taxa_id) as [|v vs] eqn:Hs; [done|]. exfalso.
    assert (edge lin taxa_id v) as He.
    { apply elem_of_successors. rewrite Hs. left. }
    apply subgraph_copy_edges in He as (He & _ & Hv).
    apply back_trail_ancestors in Hv.
    apply (Hacyc taxa_id). eapply tc_rtc_r; [by apply tc_once|done]. }
  apply filter_only.
  - unfold lin. rewrite subgraph_copy_node_ids. apply NoDup_filter, Hwf.
  - by apply extracted_node_ids.
  - intros n Hn%extracted_node_ids. split; [|by intros ->; rewrite Hnone].
    intros Hleaf. apply list_elem_of_lookup_1 in Hn as [[|j] Hj].
    { rewrite Heq in Hj. by injection Hj as <-. }
    exfalso.
    pose proof (lookup_lt_Some _ _ _ Hj) as Hlt.
    destruct (lookup_lt_is_Some_2 t j) as [a Ha]; [lia|].
    destruct (back_trail_cases σ g taxa_id fuel t Hwf Hsex Hin Ht j a Ha)
      as [[_ Hlast]|(b & Hb & Hpred)].
    + rewrite last_lookup in Hlast.
      assert (Init.Nat.pred (length t) = j) as Hend.
      { eapply NoDup_lookup; [by eapply back_trail_NoDup|done..]. }
      lia.
    + rewrite Hj in Hb. injection Hb as <-.
      assert (edge lin n a) as He.
      { apply subgraph_copy_edges. split_and!.
        - apply elem_of_predecessors. rewrite Hpred. left.
        - by eapply list_elem_of_lookup_2.
        - by eapply list_elem_of_lookup_2. }
      apply elem_of_successors in He.
      destruct (successors lin n); [by apply elem_of_nil in He|done].
Qed.
End ancestors.

(** X15.  On an asexual acyclic phylogeny the lineage extracted at a taxon
    has as its nodes exactly the taxon and its ancestors; the taxon is its
    only leaf, and its only root is a root of the phylogeny.  Extracted at a
    root, the lineage is that one taxon without an edge. *)
Theorem extracted_lineage_ancestors (σ : store) (g : DiGraph loc)
    (taxa_id : value) (fuel : nat) :
  world_wf σ g → acyclic g → is_asexual g = true → taxa_id ∈ node_ids g →
  length (nodes g) ≤ fuel →
  ∃ lin σ' r,
    extract_asexual_lineage fuel σ g taxa_id = Ret (lin, σ') ∧
    (∀ n, n ∈ node_ids lin ↔ rtc (edge g) n taxa_id) ∧
    get_leaf_taxa_ids lin = [taxa_id] ∧
    get_root_ids lin = [r] ∧ r ∈ get_root_ids g ∧
    (taxa_id ∈ get_root_ids g → node_ids lin = [taxa_id] ∧ edges lin = []).
Proof.
  intros Hwf Hacyc Hsex Hin Hfuel.
  destruct (predecessors_trail_terminates g fuel taxa_id (proj1 Hwf) Hacyc Hin
              Hfuel) as [t Ht].
  destruct (extracted_roots σ g taxa_id fuel t Hwf Hacyc Hsex Hin Ht)
    as (r & Hlast & Hroot).
  exists (subgraph_copy σ g t).1, (subgraph_copy σ g t).2, r.
  split_and!.
  - unfold extract_asexual_lineage.
    rewrite (bool_decide_eq_true_2 _ Hin), Hsex. cbn [negb].
    rewrite (ancestor_walk_trail g fuel [] taxa_id
             : ancestor_walk fuel g [taxa_id] = _), Ht.
    reflexivity.
  - intros n. rewrite (extracted_node_ids σ g taxa_id fuel t Hwf Hin Ht).
    by apply (back_trail_ancestors σ g taxa_id fuel t).
  - by apply (extracted_leaf σ g taxa_id fuel t).
  - done.
  - destruct (trail_end _ _ _ _ Ht) as (z & Hz & Hpred).
    assert (z = r) as -> by congruence.
    apply list_elem_of_filter. split; [by rewrite Hpred|].
    eapply back_trail_nodes; [done..|]. by apply last_Some_elem_of.
  - intros [_ Hpred]%get_root_ids_nodes.
    assert (t = [taxa_id]) as ->.
    { destruct fuel as [|fuel']; [done|]. cbn [trail] in Ht.
      rewrite Hpred in Ht. by injection Ht as <-. }
    split.
    + rewrite subgraph_copy_node_ids. apply filter_only; [apply Hwf|done|].
      intros x _. by rewrite list_elem_of_singleton.
    + cbn. apply filter_none. intros [u v] Huv [_ Hv]. cbn in Hv.
      apply list_elem_of_singleton in Hv as ->.
      change (edge g u taxa_id) in Huv. apply elem_of_predecessors in Huv.
      rewrite Hpred in Huv. by apply elem_of_nil in Huv.
Qed.

Lemma extracted_lineage_ancestors_witness :
  ∃ lin σ' r,
    extract_asexual_lineage 4 chain_store chain_ABCD (VStr "C") = Ret (lin, σ') ∧
    (∀ n, n ∈ node_ids lin ↔ rtc (edge chain_ABCD) n (VStr "C")) ∧
    get_leaf_taxa_ids lin = [VStr "C"] ∧
    get_root_ids lin = [r] ∧ r ∈ get_root_ids chain_ABCD ∧
    (VStr "C" ∈ get_root_ids chain_ABCD →
       node_ids lin = [VStr "C"] ∧ edges lin = []).
Proof.
  apply extracted_lineage_ancestors.
  - apply chain_ABCD_wf.
  - apply chain_ABCD_acyclic.
  - reflexivity.
  - by_compute.
  - vm_compute. lia.
Defined.

(** ** What a state holds when it is opened *)

Lemma copy_attrs_values (g : DiGraph sattrs) n (taxon : gmap string value)
    attribute_list :
  n ∈ node_ids g →
  (∀ a, a ∈ attribute_list → is_Some (taxon !! a)) →
  ∃ g', copy_attrs g n taxon attribute_list = Ret g' ∧
        node_ids g' = node_ids g ∧ edges g' = edges g ∧
        ∀ m key, attr_of g' m key =
                   if decide (m = n ∧ key ∈ attribute_list)
                   then SVal <$> taxon !! key else attr_of g m key.
Proof.
  unfold copy_attrs. revert g.
  induction attribute_list as [|a attribute_list IH]; intros g Hn Hall.
  { exists g. split_and!; [done..|]. intros m key.
    rewrite decide_False; [done|]. intros [_ H]. by apply elem_of_nil in H. }
  cbn [fold_out]. destruct (Hall a) as [x Hx]; [left|].
  rewrite (getitem_Some _ _ _ Hx). cbn [mbind outcome_bind].
  destruct (node_set_spec g n a (SVal x) Hn) as (g1 & -> & Hi1 & He1 & Ha1).
  cbn [mbind outcome_bind].
  destruct (IH g1) as (g' & -> & Hi & He & Ha).
  { by rewrite Hi1. }
  { intros b Hb. apply Hall. by right. }
  exists g'. split_and!; [done|congruence..|].
  intros m key. rewrite Ha, Ha1.
  destruct (decide (m = n ∧ key ∈ attribute_list)) as [[-> Hk]|Hno].
  - rewrite decide_True; [done|]. split; [done|by right].
  - destruct (decide (m = n ∧ key = a)) as [[-> ->]|Hno'].
    + rewrite decide_True; [by rewrite Hx|]. split; [done|left].
    + rewrite decide_False; [done|].
      intros [-> [->|Hk]%elem_of_cons]; [by apply Hno'|by apply Hno].
Qed.

Lemma optional_set_value (g : DiGraph sattrs) n (b : bool)
    (taxon : gmap string value) attr key :
  n ∈ node_ids g →
  (b = true → is_Some (taxon !! attr)) →
  ∃ g', (if b then o ← getitem taxon attr; node_set g n key (SVal o)
         else Ret g) = Ret g' ∧
        node_ids g' = node_ids g ∧ edges g' = edges g ∧
        ∀ m key', attr_of g' m key' =
                    if decide (m = n ∧ key' = key ∧ b = true)
                    then SVal <$> taxon !! attr else attr_of g m key'.
Proof.
  intros Hn Hb. destruct b.
  - destruct Hb as [o Ho]; [done|]. rewrite (getitem_Some _ _ _ Ho).
    cbn [mbind outcome_bind].
    destruct (node_set_spec g n key (SVal o) Hn) as (g' & -> & Hi & He & Ha).
    exists g'. split_and!; [done..|]. intros m key'. rewrite Ha, Ho.
    destruct (decide (m = n ∧ key' = key)) as [[-> ->]|Hno].
    + by rewrite decide_True.
    + rewrite decide_False; [done|]. intros (? & ? & _). by apply Hno.
  - exists g. split_and!; [done..|]. intros m key'.
    rewrite decide_False; [done|]. by intros (_ & _ & ?).
Qed.

Section opening.
Context (σ : store) (attribute_list : list string)
        (origin_time_attr destruction_time_attr : string)
        (track_origin track_destruction : bool).
Hypothesis Hns : "node_state" ∉ attribute_list.
Hypothesis Hmem : "members" ∉ attribute_list.

Lemma opened_from_frame al al' i h :
  (∀ key, key ≠ "members" → key ≠ "destruction_time" →
          attr_of al' (sid i) key = attr_of al (sid i) key) →
  opened_from σ attribute_list origin_time_attr track_origin al i h →
  opened_from σ attribute_list origin_time_attr track_origin al' i h.
Proof using Hmem.
  intros Hframe (H1 & H2 & H3). unfold opened_from, state_attr in *.
  fold (sid i) in *. split_and!.
  - by rewrite Hframe.
  - intros a Ha Hao Had. rewrite Hframe; [by apply H2| |done].
    by intros ->.
  - intros Ht Hot. rewrite Hframe; [by apply H3|done..].
Qed.

Lemma new_state_opened al k y l :
  sid k ∈ node_ids al → sid (S k) ∉ node_ids al →
  (∀ a, a ∈ attribute_list → is_Some ((σ !!! l : gmap string value) !! a)) →
  (track_origin = true →
     is_Some ((σ !!! l : gmap string value) !! origin_time_attr)) →
  ∃ al' ns,
    project (σ !!! l) attribute_list = Ret ns ∧
    new_state σ attribute_list origin_time_attr track_origin
              al (Z.of_nat k + 1) y l = Ret al' ∧
    opened_from σ attribute_list origin_time_attr track_origin
                al' (S k) (y, l, ns).
Proof using Hns Hmem.
  intros Hk Hfresh Hattrs Ho. unfold new_state.
  replace (Z.of_nat k + 1)%Z with (Z.of_nat (S k)) by lia.
  replace (Z.of_nat (S k) - 1)%Z with (Z.of_nat k) by lia.
  fold (sid k) (sid (S k)).
  set (al1 := add_edge (add_node al (sid (S k))) (sid k) (sid (S k))).
  assert (sid (S k) ∈ node_ids al1) as Hk1.
  { unfold al1, add_edge.
    destruct (add_node_spec al (sid (S k)) Hfresh) as (Hi0 & _ & _).
    set (al0 := add_node al (sid (S k))) in *.
    assert (sid k ∈ node_ids al0) as Hk0.
    { rewrite Hi0, elem_of_app. by left. }
    assert (sid (S k) ∈ node_ids al0) as Hk0'.
    { rewrite Hi0, elem_of_app. right. left. }
    assert (add_node al0 (sid k) = al0) as ->.
    { unfold add_node. by rewrite bool_decide_eq_true_2. }
    assert (add_node al0 (sid (S k)) = al0) as ->.
    { unfold add_node. by rewrite bool_decide_eq_true_2. }
    by case_bool_decide. }
  clearbody al1.
  destruct (node_set_spec al1 (sid (S k)) "state_id" (SVal (sid (S k))) Hk1)
    as (al2 & -> & Hi2 & _ & Ha2).
  cbn [mbind outcome_bind].
  destruct (project_spec (σ !!! l) attribute_list Hattrs) as [ns Hproj].
  rewrite Hproj. cbn [mbind outcome_bind].
  assert (sid (S k) ∈ node_ids al2) as Hk2 by by rewrite Hi2.
  destruct (node_set_spec al2 (sid (S k)) "node_state" (SList ns) Hk2)
    as (al3 & -> & Hi3 & _ & Ha3).
  cbn [mbind outcome_bind].
  assert (sid (S k) ∈ node_ids al3) as Hk3 by by rewrite Hi3.
  destruct (optional_set_value al3 (sid (S k)) track_origin (σ !!! l)
              origin_time_attr "origin_time" Hk3 Ho)
    as (al4 & -> & Hi4 & _ & Ha4).
  cbn [mbind outcome_bind].
  assert (sid (S k) ∈ node_ids al4) as Hk4 by by rewrite Hi4.
  destruct (copy_attrs_values al4 (sid (S k)) (σ !!! l) attribute_list
              Hk4 Hattrs) as (al5 & -> & Hi5 & _ & Ha5).
  cbn [mbind outcome_bind].
  assert (sid (S k) ∈ node_ids al5) as Hk5 by by rewrite Hi5.
  destruct (node_set_spec al5 (sid (S k)) "members" (SMembers {[y := l]}) Hk5)
    as (al6 & -> & Hi6 & _ & Ha6).
  exists al6, ns. split; [done|]. split; [done|].
  unfold opened_from, state_attr. fold (sid (S k)). cbn [fst snd].
  split_and!.
  - rewrite Ha6, decide_False by (by intros [_ ?]).
    rewrite Ha5, decide_False by (by intros [_ ?]).
    rewrite Ha4, decide_False by (by intros (_ & ? & _)).
    rewrite Ha3, decide_True by done. done.
  - intros a Ha _ _.
    rewrite Ha6, decide_False by (intros [_ ->]; done).
    rewrite Ha5, decide_True by done. done.
  - intros Ht Hot.
    rewrite Ha6, decide_False by (by intros [_ ?]).
    rewrite Ha5, decide_False by (by intros [_ ?]).
    rewrite Ha4, decide_True by done. done.
Qed.

Lemma root_state_opened root_id l :
  (∀ a, a ∈ attribute_list → is_Some ((σ !!! l : gmap string value) !! a)) →
  (track_origin = true →
     is_Some ((σ !!! l : gmap string value) !! origin_time_attr)) →
  (track_destruction = true →
     is_Some ((σ !!! l : gmap string value) !! destruction_time_attr)) →
  ∃ al ns,
    project (σ !!! l) attribute_list = Ret ns ∧
    root_state σ attribute_list origin_time_attr destruction_time_attr
               track_origin track_destruction root_id l = Ret al ∧
    opened_from σ attribute_list origin_time_attr track_origin
                al 0 (root_id, l, ns).
Proof using Hns Hmem.
  intros Hattrs Ho Hd. unfold root_state.
  change (add_node (mkDiGraph [] []) (VInt 0))
    with (mkDiGraph [(sid 0, ∅ : gmap string svalue)] []).
  change (VInt 0) with (sid 0).
  set (al1 := mkDiGraph [(sid 0, ∅ : gmap string svalue)] []).
  assert (sid 0 ∈ node_ids al1) as Hk1 by (simpl; left).
  clearbody al1.
  destruct (node_set_spec al1 (sid 0) "state_id" (SVal (sid 0)) Hk1)
    as (al2 & -> & Hi2 & _ & Ha2).
  cbn [mbind outcome_bind].
  destruct (project_spec (σ !!! l) attribute_list Hattrs) as [ns Hproj].
  rewrite Hproj. cbn [mbind outcome_bind].
  assert (sid 0 ∈ node_ids al2) as Hk2 by by rewrite Hi2.
  destruct (node_set_spec al2 (sid 0) "node_state" (SList ns) Hk2)
    as (al3 & -> & Hi3 & _ & Ha3).
  cbn [mbind outcome_bind].
  assert (sid 0 ∈ node_ids al3) as Hk3 by by rewrite Hi3.
  destruct (copy_attrs_values al3 (sid 0) (σ !!! l) attribute_list
              Hk3 Hattrs) as (al4 & -> & Hi4 & _ & Ha4).
  cbn [mbind outcome_bind].
  assert (sid 0 ∈ node_ids al4) as Hk4 by by rewrite Hi4.
  destruct (optional_set_value al4 (sid 0) track_origin (σ !!! l)
              origin_time_attr "origin_time" Hk4 Ho)
    as (al5 & -> & Hi5 & _ & Ha5).
  cbn [mbind outcome_bind].
  assert (sid 0 ∈ node_ids al5) as Hk5 by by rewrite Hi5.
  destruct (optional_set_value al5 (sid 0) track_destruction (σ !!! l)
              destruction_time_attr "destruction_time" Hk5 Hd)
    as (al6 & -> & Hi6 & _ & Ha6).
  cbn [mbind outcome_bind].
  assert (sid 0 ∈ node_ids al6) as Hk6 by by rewrite Hi6.
  destruct (node_set_spec al6 (sid 0) "members" (SMembers {[root_id := l]}) Hk6)
    as (al7 & -> & Hi7 & _ & Ha7).
  exists al7, ns. split; [done|]. split; [done|].
  unfold opened_from, state_attr. change (VInt (Z.of_nat 0)) with (sid 0).
  cbn [fst snd]. split_and!.
  - rewrite Ha7, decide_False by (by intros [_ ?]).
    rewrite Ha6, decide_False by (by intros (_ & ? & _)).
    rewrite Ha5, decide_False by (by intros (_ & ? & _)).
    rewrite Ha4, decide_False by (by intros [_ ?]).
    rewrite Ha3, decide_True by done. done.
  - intros a Ha Hao Had.
    rewrite Ha7, decide_False by (intros [_ ->]; done).
    rewrite Ha6, decide_False by (by intros (_ & ? & _)).
    rewrite Ha5, decide_False by (by intros (_ & ? & _)).
    rewrite Ha4, decide_True by done. done.
  - intros Ht _.
    rewrite Ha7, decide_False by (by intros [_ ?]).
    rewrite Ha6, decide_False by (by intros (_ & ? & _)).
    rewrite Ha5, decide_True by done. done.
Qed.
End opening.

(** ** The loop, state by state *)

Lemma lookup_snoc_head {A} (Segs : list (list A)) (open : list A) r i seg h :
  open ≠ [] →
  (Segs ++ [open ++ [r]]) !! i = Some seg → head seg = Some h →
  ∃ seg0, (Segs ++ [open]) !! i = Some seg0 ∧ head seg0 = Some h.
Proof.
  intros Hne Hi Hh. apply lookup_app_Some in Hi as [Hi|[Hle Hi]].
  - exists seg. split; [|done]. apply lookup_app_Some. by left.
  - apply list_lookup_singleton_Some in Hi as [Hi <-].
    exists open. split.
    + apply lookup_app_Some. right. split; [done|]. by rewrite Hi.
    + destruct open; [done|]. done.
Qed.

Section abstract_segments.
Context (σ : store) (lineage : DiGraph loc) (attribute_list : list string)
        (origin_time_attr destruction_time_attr : string).
Hypothesis Hwf : graph_wf lineage.
Hypothesis Hattrs :
  all_taxa_have_attributes σ lineage attribute_list = true.
Hypothesis Hns : "node_state" ∉ attribute_list.
Hypothesis Hmem : "members" ∉ attribute_list.
Hypothesis Hsid : "state_id" ∉ attribute_list.

Let track_origin := all_taxa_have_attribute σ lineage origin_time_attr.
Let track_destruction :=
  all_taxa_have_attribute σ lineage destruction_time_attr.

Lemma abstract_loop_segments fuel al k x t Ms cur ns Segs open :
  trail (successors lineage) fuel x = Some (x :: t) →
  abstract_at al k (Ms ++ [cur]) ns →
  length Segs = k → open ≠ [] →
  (∀ i seg h, (Segs ++ [open]) !! i = Some seg → head seg = Some h →
     opened_from σ attribute_list origin_time_attr track_origin al i h) →
  ∃ al' k' ns' rest,
    abstract_loop σ lineage attribute_list origin_time_attr
                  destruction_time_attr track_origin track_destruction
                  fuel al (Z.of_nat k) x = Ret al' ∧
    Forall2 (row_of σ lineage attribute_list) t rest ∧
    abstract_at al' k' (Ms ++ runs ns cur rest) ns' ∧
    (∀ i seg h,
       (Segs ++ segments open ns rest) !! i = Some seg → head seg = Some h →
       opened_from σ attribute_list origin_time_attr track_origin al' i h).
Proof using All.
  revert al k x t Ms cur ns Segs open.
  induction fuel as [|fuel IH];
    intros al k x t Ms cur ns Segs open Ht Hat Hlen Hne Hopen; [done|].
  simpl in Ht |- *.
  destruct (successors lineage x) as [|y ys] eqn:Hx.
  { injection Ht as <-. exists al, k, ns, []. split; [done|].
    split; [constructor|]. split; done. }
  destruct (trail (successors lineage) fuel y) as [t'|] eqn:Hy; [|done].
  injection Ht as <-.
  destruct (trail_start _ _ _ _ Hy) as [t'' ->].
  assert (y ∈ node_ids lineage) as Hyn.
  { assert (edge lineage x y) as Hxy.
    { apply elem_of_successors. rewrite Hx. left. }
    by apply Hwf in Hxy as [_ ?]. }
  destruct (node_lookup_is_Some lineage y Hyn) as [l Hl].
  unfold node_ref. rewrite Hl. cbn [mbind outcome_bind].
  pose proof (node_lookup_elem_of _ _ _ Hl) as Hyl.
  assert (∀ a, a ∈ attribute_list →
            is_Some ((σ !!! l : gmap string value) !! a)) as Hall.
  { intros a Ha. by eapply all_taxa_have_attributes_spec. }
  destruct (project_spec (σ !!! l) attribute_list Hall) as [state Hproj].
  rewrite Hproj. cbn [mbind outcome_bind].
  pose proof Hat as (Hids & Hes & HlenM & HM & Hstate_id & Hstate).
  rewrite length_app in HlenM. simpl in HlenM.
  rewrite (node_get_spec _ _ _ _ Hstate). cbn [mbind outcome_bind].
  unfold state_eq. case_bool_decide as Heq.
  - assert (attr_of al (sid k) "members" = Some (SMembers cur)) as Hm.
    { apply members_of_attr. rewrite HM.
      replace k with (length Ms) by lia. apply lookup_snoc_last. }
    destruct (join_state_exact σ destruction_time_attr track_destruction
                al k cur y l Hm) as (al1 & -> & Hi1 & He1 & Hm1 & Ho1).
    { intros Htd. by eapply all_taxa_have_attribute_spec. }
    cbn [mbind outcome_bind].
    pose proof (abstract_at_join _ _ _ _ _ y l al1 Hat Hi1 He1 Hm1 Ho1) as Hat1.
    destruct (IH al1 k y t'' Ms (<[y := l]> cur) ns Segs
                (open ++ [(y, l, state)]) Hy Hat1 Hlen)
      as (al' & k' & ns' & rest & -> & Hrest & Hat' & Hopen').
    { by destruct open. }
    { intros i seg h Hi Hh.
      destruct (lookup_snoc_head Segs open (y, l, state) i seg h Hne Hi Hh)
        as (seg0 & Hi0 & Hh0).
      eapply (opened_from_frame σ attribute_list origin_time_attr
                track_origin Hmem al al1 i h); [|by eapply Hopen].
      intros key Hk1 Hk2. apply Ho1. by right. }
    exists al', k', ns', ((y, l, state) :: rest). split; [done|].
    split_and!.
    + constructor; [done|done].
    + simpl. by rewrite bool_decide_eq_true_2.
    + cbn [segments snd]. by rewrite bool_decide_eq_true_2.
  - destruct (new_state_exact σ attribute_list origin_time_attr track_origin
                Hns Hsid al k y l)
      as (al1 & ns1 & Hproj1 & Hnew & Hi1 & He1 & Hm1 & Hn1 & Hs1 & Ho1).
    { rewrite Hids. apply elem_of_sids. lia. }
    { rewrite Hids, elem_of_sids. lia. }
    { rewrite Hes, list_elem_of_fmap.
      intros (i & Hpair & Hi%elem_of_seq).
      assert (k = i) by (apply sid_inj; congruence). lia. }
    { done. }
    { intros Hto. by eapply all_taxa_have_attribute_spec. }
    destruct (new_state_opened σ attribute_list origin_time_attr track_origin
                Hns Hmem al k y l)
      as (al1' & ns1' & Hproj1' & Hnew' & Hopened).
    { rewrite Hids. apply elem_of_sids. lia. }
    { rewrite Hids, elem_of_sids. lia. }
    { done. }
    { intros Hto. by eapply all_taxa_have_attribute_spec. }
    assert (al1' = al1) as -> by congruence.
    assert (ns1' = state) as -> by congruence.
    assert (ns1 = state) as -> by congruence.
    rewrite Hnew. cbn [mbind outcome_bind].
    replace (Z.of_nat k + 1)%Z with (Z.of_nat (S k)) by lia.
    pose proof (abstract_at_new _ _ _ _ y l al1 state
                  Hat Hi1 He1 Hm1 Hn1 Hs1 Ho1) as Hat1.
    destruct (IH al1 (S k) y t'' (Ms ++ [cur]) {[y := l]} state
                (Segs ++ [open]) [(y, l, state)] Hy Hat1)
      as (al' & k' & ns' & rest & -> & Hrest & Hat' & Hopen').
    { rewrite length_app. simpl. lia. }
    { done. }
    { intros i seg h Hi Hh. apply lookup_app_Some in Hi as [Hi|[Hle Hi]].
      - eapply (opened_from_frame σ attribute_list origin_time_attr
                  track_origin Hmem al al1 i h); [|by eapply Hopen].
        intros key _ _. apply Ho1. intros Hs%sid_inj.
        apply lookup_lt_Some in Hi. rewrite length_app in Hi. simpl in Hi.
        lia.
      - apply list_lookup_singleton_Some in Hi as [Hi <-].
        injection Hh as <-. rewrite length_app in Hle, Hi. simpl in Hle, Hi.
        replace i with (S k) by lia. done. }
    exists al', k', ns', ((y, l, state) :: rest). split; [done|].
    split_and!.
    + constructor; [done|done].
    + simpl. rewrite bool_decide_eq_false_2 by done.
      by rewrite <- app_assoc in Hat'.
    + cbn [segments snd]. rewrite bool_decide_eq_false_2 by done.
      by rewrite <- app_assoc in Hopen'.
Qed.
End abstract_segments.

(** ** The runs of a lineage *)

Section segments_facts.
Implicit Types (open rest seg : list (value * nat * list value))
               (state : list value).

Lemma concat_segments open state rest :
  concat (segments open state rest) = open ++ rest.
Proof.
  revert open state. induction rest as [|r rest IH]; intros open state.
  { cbn. by rewrite !app_nil_r. }
  cbn [segments]. case_bool_decide.
  - by rewrite IH, <- app_assoc.
  - cbn [concat]. by rewrite IH.
Qed.

Lemma segments_nonempty open state rest :
  open ≠ [] → Forall (λ seg, seg ≠ []) (segments open state rest).
Proof.
  revert open state. induction rest as [|r rest IH]; intros open state Hne.
  { by repeat constructor. }
  cbn [segments]. case_bool_decide.
  - apply IH. by destruct open.
  - constructor; [done|]. by apply IH.
Qed.

(** The first run extends the open one by taxa of the same projection. *)
Lemma segments_first open state rest :
  ∃ ext segs, segments open state rest = (open ++ ext) :: segs ∧
              ∀ r, r ∈ ext → r.2 = state.
Proof.
  revert open. induction rest as [|r rest IH]; intros open.
  { exists [], []. split; [by rewrite app_nil_r|].
    intros r Hr. by apply elem_of_nil in Hr. }
  cbn [segments]. case_bool_decide as Heq.
  - destruct (IH (open ++ [r])) as (ext & segs & -> & Hext).
    exists (r :: ext), segs. split; [by rewrite <- app_assoc|].
    intros r' [->|Hr']%elem_of_cons; [done|by apply Hext].
  - exists [], (segments [r] r.2 rest). split; [by rewrite app_nil_r|].
    intros r' Hr'. by apply elem_of_nil in Hr'.
Qed.

Lemma segments_uniform open state rest :
  (∀ r, r ∈ open → r.2 = state) →
  Forall (λ seg, ∀ r r', r ∈ seg → r' ∈ seg → r.2 = r'.2)
         (segments open state rest).
Proof.
  revert open state. induction rest as [|r rest IH]; intros open state Hopen.
  { constructor; [|constructor]. intros r r' Hr Hr'.
    by rewrite (Hopen r), (Hopen r'). }
  cbn [segments]. case_bool_decide as Heq.
  - apply IH. intros r' [Hr'|Hr'%list_elem_of_singleton]%elem_of_app;
      [by apply Hopen|by subst].
  - constructor.
    + intros r1 r2 H1 H2. by rewrite (Hopen r1), (Hopen r2).
    + apply IH. intros r' Hr'%list_elem_of_singleton. by subst.
Qed.

Lemma segments_adjacent open state rest i seg seg' r r' :
  open ≠ [] → (∀ r, r ∈ open → r.2 = state) →
  segments open state rest !! i = Some seg →
  segments open state rest !! S i = Some seg' →
  r ∈ seg → r' ∈ seg' → r.2 ≠ r'.2.
Proof.
  revert open state i. induction rest as [|r0 rest IH];
    intros open state i Hne Hopen Hi Hi' Hr Hr'.
  { simpl in Hi'. by rewrite lookup_nil in Hi'. }
  cbn [segments] in Hi, Hi'. case_bool_decide as Heq.
  - eapply (IH (open ++ [r0]) state i); [by destruct open| |done..].
    intros r1 [H1|H1%list_elem_of_singleton]%elem_of_app;
      [by apply Hopen|by subst].
  - destruct i as [|i]; simpl in Hi, Hi'.
    + injection Hi as <-.
      destruct (segments_first [r0] r0.2 rest) as (ext & segs & Hsegs & Hext).
      rewrite Hsegs in Hi'. injection Hi' as <-.
      rewrite (Hopen r Hr).
      assert (r'.2 = r0.2) as ->; [|done].
      apply elem_of_cons in Hr' as [->|Hr']; [done|by apply Hext].
    + eapply (IH [r0] r0.2 i); [done| |done..].
      intros r1 H1%list_elem_of_singleton. by subst.
Qed.

(** The members of the states are the taxa of the runs. *)
Lemma runs_segments (cur : gmap value nat) open state rest :
  NoDup ((λ r, r.1.1) <$> (open ++ rest)) →
  (∀ y l, cur !! y = Some l ↔ ∃ s, (y, l, s) ∈ open) →
  Forall2 (λ (m : gmap value nat) seg,
             ∀ y l, m !! y = Some l ↔ ∃ s, (y, l, s) ∈ seg)
          (runs state cur rest) (segments open state rest).
Proof.
  revert cur open state. induction rest as [|[[y0 l0] s0] rest IH];
    intros cur open state Hnd Hcur.
  { cbn. constructor; [done|constructor]. }
  cbn [runs segments snd]. case_bool_decide as Heq.
  - apply IH; [by rewrite <- app_assoc|].
    intros y l. rewrite lookup_insert_Some, Hcur. split.
    + intros [[<- <-]|[Hne [s Hs]]].
      * exists s0. apply elem_of_app. right. left.
      * exists s. apply elem_of_app. by left.
    + intros [s [Hs|Hs%list_elem_of_singleton]%elem_of_app].
      * right. split; [|by exists s]. intros <-.
        rewrite fmap_app, fmap_cons in Hnd.
        apply NoDup_app in Hnd as (_ & Hdisj & _).
        apply (Hdisj y0); [|left].
        apply list_elem_of_fmap. by exists (y0, l, s).
      * injection Hs as -> -> ->. by left.
  - constructor; [done|]. apply IH.
    + rewrite fmap_app in Hnd. by apply NoDup_app in Hnd as (_ & _ & ?).
    + intros y l. rewrite lookup_singleton_Some. split.
      * intros [<- <-]. exists s0. left.
      * by intros [s [= -> -> ->]%list_elem_of_singleton].
Qed.
End segments_facts.

Lemma project_lookup (d d' : gmap string value) attribute_list ns a :
  project d attribute_list = Ret ns → project d' attribute_list = Ret ns →
  a ∈ attribute_list → d !! a = d' !! a.
Proof.
  unfold project. revert ns.
  induction attribute_list as [|b attribute_list IH]; intros ns Hd Hd' Ha.
  { by apply elem_of_nil in Ha. }
  cbn [map_out] in Hd, Hd'. unfold getitem in Hd, Hd'.
  destruct (d !! b) as [x|] eqn:Hx; [|done].
  destruct (d' !! b) as [x'|] eqn:Hx'; [|done].
  cbn in Hd, Hd'.
  destruct (map_out _ attribute_list) as [r| |] eqn:Hr in Hd; [|done..].
  destruct (map_out _ attribute_list) as [r'| |] eqn:Hr' in Hd'; [|done..].
  cbn in Hd, Hd'. injection Hd as <-. injection Hd' as -> ->.
  apply elem_of_cons in Ha as [->|Ha]; [congruence|].
  by apply (IH r).
Qed.

(** ** The destruction time of a state *)

Lemma rows_unique σ (lineage : DiGraph loc) attribute_list t rest rest' :
  Forall2 (row_of σ lineage attribute_list) t rest →
  Forall2 (row_of σ lineage attribute_list) t rest' →
  rest = rest'.
Proof.
  intros H. revert rest'.
  induction H as [|y [[y1 l1] s1] t rest (Hy1 & Hl1 & Hp1) _ IH];
    intros rest' H'; inversion H' as [|? [[y2 l2] s2] ? ? (Hy2 & Hl2 & Hp2) Hrest];
    subst; [done|].
  cbn [fst snd] in *. f_equal; [|by apply IH]. congruence.
Qed.

Lemma attr_of_add_edge (g : DiGraph sattrs) u v m key :
  u ∈ node_ids g → v ∈ node_ids g →
  attr_of (add_edge g u v) m key = attr_of g m key.
Proof.
  intros Hu Hv. unfold add_edge.
  assert (add_node g u = g) as ->.
  { unfold add_node. by rewrite bool_decide_eq_true_2. }
  assert (add_node g v = g) as ->.
  { unfold add_node. by rewrite bool_decide_eq_true_2. }
  case_bool_decide; [done|]. unfold attr_of. destruct g as [ns es].
  cbn [nodes edges]. by rewrite (node_lookup_edges_irrel ns _ es).
Qed.

Section destruction_steps.
Context (σ : store) (attribute_list : list string)
        (origin_time_attr destruction_time_attr : string)
        (track_origin track_destruction : bool).

Lemma join_state_destruction al k m y l :
  attr_of al (sid k) "members" = Some (SMembers m) →
  (track_destruction = true →
     is_Some ((σ !!! l : gmap string value) !! destruction_time_attr)) →
  ∃ al', join_state σ destruction_time_attr track_destruction
                    al (Z.of_nat k) y l = Ret al' ∧
         attr_of al' (sid k) "destruction_time" =
           if track_destruction
           then SVal <$> ((σ !!! l : gmap string value) !! destruction_time_attr)
           else attr_of al (sid k) "destruction_time".
Proof.
  intros Hm Hd. unfold join_state. fold (sid k).
  rewrite (node_get_spec _ _ _ _ Hm). cbn [mbind outcome_bind].
  assert (sid k ∈ node_ids al) as Hk.
  { destruct (decide (sid k ∈ node_ids al)) as [|Hout]; [done|].
    by rewrite (attr_of_outside _ _ _ Hout) in Hm. }
  destruct (node_set_spec al (sid k) "members" (SMembers (<[y := l]> m)) Hk)
    as (al1 & -> & Hi1 & _ & Ha1).
  cbn [mbind outcome_bind].
  assert (sid k ∈ node_ids al1) as Hk1 by by rewrite Hi1.
  destruct (optional_set_value al1 (sid k) track_destruction (σ !!! l)
              destruction_time_attr "destruction_time" Hk1 Hd)
    as (al2 & -> & _ & _ & Ha2).
  exists al2. split; [done|]. rewrite Ha2. destruct track_destruction.
  - by rewrite decide_True.
  - rewrite decide_False by (by intros (_ & _ & ?)).
    rewrite Ha1, decide_False by (by intros [_ ?]). done.
Qed.

Lemma new_state_no_destruction al k y l :
  "destruction_time" ∉ attribute_list →
  sid k ∈ node_ids al → sid (S k) ∉ node_ids al →
  (∀ a, a ∈ attribute_list → is_Some ((σ !!! l : gmap string value) !! a)) →
  (track_origin = true →
     is_Some ((σ !!! l : gmap string value) !! origin_time_attr)) →
  ∃ al',
    new_state σ attribute_list origin_time_attr track_origin
              al (Z.of_nat k + 1) y l = Ret al' ∧
    attr_of al' (sid (S k)) "destruction_time" = None.
Proof.
  intros Hdt Hk Hfresh Hattrs Ho. unfold new_state.
  replace (Z.of_nat k + 1)%Z with (Z.of_nat (S k)) by lia.
  replace (Z.of_nat (S k) - 1)%Z with (Z.of_nat k) by lia.
  fold (sid k) (sid (S k)).
  destruct (add_node_spec al (sid (S k)) Hfresh) as (Hi0 & _ & Ha0).
  set (al0 := add_node al (sid (S k))) in *.
  assert (sid k ∈ node_ids al0) as Hk0.
  { rewrite Hi0, elem_of_app. by left. }
  assert (sid (S k) ∈ node_ids al0) as Hk0'.
  { rewrite Hi0, elem_of_app. right. left. }
  pose proof (attr_of_add_edge al0 (sid k) (sid (S k)) (sid (S k))
                "destruction_time" Hk0 Hk0') as Ha1.
  rewrite Ha0, (attr_of_outside al _ _ Hfresh) in Ha1.
  set (al1 := add_edge al0 (sid k) (sid (S k))) in *.
  assert (sid (S k) ∈ node_ids al1) as Hk1.
  { unfold al1, add_edge.
    assert (add_node al0 (sid k) = al0) as ->.
    { unfold add_node. by rewrite bool_decide_eq_true_2. }
    assert (add_node al0 (sid (S k)) = al0) as ->.
    { unfold add_node. by rewrite bool_decide_eq_true_2. }
    by case_bool_decide. }
  clearbody al1. clearbody al0.
  destruct (node_set_spec al1 (sid (S k)) "state_id" (SVal (sid (S k))) Hk1)
    as (al2 & -> & Hi2 & _ & Ha2).
  cbn [mbind outcome_bind].
  destruct (project_spec (σ !!! l) attribute_list Hattrs) as [ns Hproj].
  rewrite Hproj. cbn [mbind outcome_bind].
  assert (sid (S k) ∈ node_ids al2) as Hk2 by by rewrite Hi2.
  destruct (node_set_spec al2 (sid (S k)) "node_state" (SList ns) Hk2)
    as (al3 & -> & Hi3 & _ & Ha3).
  cbn [mbind outcome_bind].
  assert (sid (S k) ∈ node_ids al3) as Hk3 by by rewrite Hi3.
  destruct (optional_set_value al3 (sid (S k)) track_origin (σ !!! l)
              origin_time_attr "origin_time" Hk3 Ho)
    as (al4 & -> & Hi4 & _ & Ha4).
  cbn [mbind outcome_bind].
  assert (sid (S k) ∈ node_ids al4) as Hk4 by by rewrite Hi4.
  destruct (copy_attrs_values al4 (sid (S k)) (σ !!! l) attribute_list
              Hk4 Hattrs) as (al5 & -> & Hi5 & _ & Ha5).
  cbn [mbind outcome_bind].
  assert (sid (S k) ∈ node_ids al5) as Hk5 by by rewrite Hi5.
  destruct (node_set_spec al5 (sid (S k)) "members" (SMembers {[y := l]}) Hk5)
    as (al6 & -> & Hi6 & _ & Ha6).
  exists al6. split; [done|].
  rewrite Ha6, decide_False by (by intros [_ ?]).
  rewrite Ha5, decide_False by (by intros [_ ?]).
  rewrite Ha4, decide_False by (by intros (_ & ? & _)).
  rewrite Ha3, decide_False by (by intros [_ ?]).
  rewrite Ha2, decide_False by (by intros [_ ?]). done.
Qed.

Lemma root_state_destruction root_id l :
  (∀ a, a ∈ attribute_list → is_Some ((σ !!! l : gmap string value) !! a)) →
  (track_origin = true →
     is_Some ((σ !!! l : gmap string value) !! origin_time_attr)) →
  (track_destruction = true →
     is_Some ((σ !!! l : gmap string value) !! destruction_time_attr)) →
  ∃ al,
    root_state σ attribute_list origin_time_attr destruction_time_attr
               track_origin track_destruction root_id l = Ret al ∧
    if track_destruction
    then attr_of al (sid 0) "destruction_time"
         = SVal <$> ((σ !!! l : gmap string value) !! destruction_time_attr)
    else "destruction_time" ∉ attribute_list →
         attr_of al (sid 0) "destruction_time" = None.
Proof.
  intros Hattrs Ho Hd. unfold root_state.
  change (add_node (mkDiGraph [] []) (VInt 0))
    with (mkDiGraph [(sid 0, ∅ : gmap string svalue)] []).
  change (VInt 0) with (sid 0).
  set (al1 := mkDiGraph [(sid 0, ∅ : gmap string svalue)] []).
  assert (sid 0 ∈ node_ids al1) as Hk1 by (simpl; left).
  assert (attr_of al1 (sid 0) "destruction_time" = None) as Ha1 by done.
  clearbody al1.
  destruct (node_set_spec al1 (sid 0) "state_id" (SVal (sid 0)) Hk1)
    as (al2 & -> & Hi2 & _ & Ha2).
  cbn [mbind outcome_bind].
  destruct (project_spec (σ !!! l) attribute_list Hattrs) as [ns Hproj].
  rewrite Hproj. cbn [mbind outcome_bind].
  assert (sid 0 ∈ node_ids al2) as Hk2 by by rewrite Hi2.
  destruct (node_set_spec al2 (sid 0) "node_state" (SList ns) Hk2)
    as (al3 & -> & Hi3 & _ & Ha3).
  cbn [mbind outcome_bind].
  assert (sid 0 ∈ node_ids al3) as Hk3 by by rewrite Hi3.
  destruct (copy_attrs_values al3 (sid 0) (σ !!! l) attribute_list
              Hk3 Hattrs) as (al4 & -> & Hi4 & _ & Ha4).
  cbn [mbind outcome_bind].
  assert (sid 0 ∈ node_ids al4) as Hk4 by by rewrite Hi4.
  destruct (optional_set_value al4 (sid 0) track_origin (σ !!! l)
              origin_time_attr "origin_time" Hk4 Ho)
    as (al5 & -> & Hi5 & _ & Ha5).
  cbn [mbind outcome_bind].
  assert (sid 0 ∈ node_ids al5) as Hk5 by by rewrite Hi5.
  destruct (optional_set_value al5 (sid 0) track_destruction (σ !!! l)
              destruction_time_attr "destruction_time" Hk5 Hd)
    as (al6 & -> & Hi6 & _ & Ha6).
  cbn [mbind outcome_bind].
  assert (sid 0 ∈ node_ids al6) as Hk6 by by rewrite Hi6.
  destruct (node_set_spec al6 (sid 0) "members" (SMembers {[root_id := l]}) Hk6)
    as (al7 & -> & Hi7 & _ & Ha7).
  exists al7. split; [done|].
  rewrite Ha7, decide_False by (by intros [_ ?]).
  rewrite Ha6. destruct track_destruction.
  - by rewrite decide_True.
  - intros Hdt.
    rewrite decide_False by (by intros (_ & _ & ?)).
    rewrite Ha5, decide_False by (by intros (_ & ? & _)).
    rewrite Ha4, decide_False by (by intros [_ ?]).
    rewrite Ha3, decide_False by (by intros [_ ?]).
    rewrite Ha2, decide_False by (by intros [_ ?]). done.
Qed.
End destruction_steps.

(** A property of the states that the steps of the loop keep is a property
    of the states of the result. *)
Section loop_invariant.
Context (σ : store) (lineage : DiGraph loc) (attribute_list : list string)
        (origin_time_attr destruction_time_attr : string).
Hypothesis Hwf : graph_wf lineage.
Hypothesis Hattrs :
  all_taxa_have_attributes σ lineage attribute_list = true.
Hypothesis Hns : "node_state" ∉ attribute_list.
Hypothesis Hsid : "state_id" ∉ attribute_list.

Let track_origin := all_taxa_have_attribute σ lineage origin_time_attr.
Let track_destruction :=
  all_taxa_have_attribute σ lineage destruction_time_attr.

Context (Inv : DiGraph sattrs → nat → list (value * nat * list value) → Prop).
Hypothesis Inv_frame : ∀ al al' i seg,
  (∀ key, attr_of al' (sid i) key = attr_of al (sid i) key) →
  Inv al i seg → Inv al' i seg.
Hypothesis Inv_join : ∀ al al1 k cur open y l state,
  open ≠ [] → attr_of al (sid k) "members" = Some (SMembers cur) →
  (y, l) ∈ nodes lineage →
  join_state σ destruction_time_attr track_destruction
             al (Z.of_nat k) y l = Ret al1 →
  Inv al k open → Inv al1 k (open ++ [(y, l, state)]).
Hypothesis Inv_new : ∀ al al1 k y l state,
  sid k ∈ node_ids al → sid (S k) ∉ node_ids al →
  (y, l) ∈ nodes lineage →
  new_state σ attribute_list origin_time_attr track_origin
            al (Z.of_nat k + 1) y l = Ret al1 →
  Inv al1 (S k) [(y, l, state)].

Lemma abstract_loop_invariant fuel al k x t Ms cur ns Segs open al' rest :
  trail (successors lineage) fuel x = Some (x :: t) →
  abstract_at al k (Ms ++ [cur]) ns →
  length Segs = k → open ≠ [] →
  (∀ i seg, (Segs ++ [open]) !! i = Some seg → Inv al i seg) →
  abstract_loop σ lineage attribute_list origin_time_attr
                destruction_time_attr track_origin track_destruction
                fuel al (Z.of_nat k) x = Ret al' →
  Forall2 (row_of σ lineage attribute_list) t rest →
  ∀ i seg, (Segs ++ segments open ns rest) !! i = Some seg → Inv al' i seg.
Proof using All.
  revert al k x t Ms cur ns Segs open rest.
  induction fuel as [|fuel IH];
    intros al k x t Ms cur ns Segs open rest Ht Hat Hlen Hne Hinv Hloop Hrest;
    [done|].
  simpl in Ht, Hloop.
  destruct (successors lineage x) as [|y ys] eqn:Hx.
  { injection Ht as <-. injection Hloop as <-.
    apply Forall2_nil_inv_l in Hrest as ->. exact Hinv. }
  destruct (trail (successors lineage) fuel y) as [t'|] eqn:Hy; [|done].
  injection Ht as <-.
  destruct (trail_start _ _ _ _ Hy) as [t'' ->].
  apply Forall2_cons_inv_l in Hrest
    as ([[y' l'] state'] & rest' & (Hy' & Hl' & Hp') & Hrest' & ->).
  cbn [fst snd] in Hy', Hl', Hp'. subst y'.
  assert (y ∈ node_ids lineage) as Hyn.
  { assert (edge lineage x y) as Hxy.
    { apply elem_of_successors. rewrite Hx. left. }
    by apply Hwf in Hxy as [_ ?]. }
  unfold node_ref in Hloop. rewrite Hl' in Hloop.
  cbn [mbind outcome_bind] in Hloop.
  pose proof (node_lookup_elem_of _ _ _ Hl') as Hyl.
  assert (∀ a, a ∈ attribute_list →
            is_Some ((σ !!! l' : gmap string value) !! a)) as Hall.
  { intros a Ha. by eapply all_taxa_have_attributes_spec. }
  rewrite Hp' in Hloop. cbn [mbind outcome_bind] in Hloop.
  pose proof Hat as (Hids & Hes & HlenM & HM & Hstate_id & Hstate).
  rewrite length_app in HlenM. simpl in HlenM.
  rewrite (node_get_spec _ _ _ _ Hstate) in Hloop.
  cbn [mbind outcome_bind] in Hloop.
  unfold state_eq in Hloop. cbn [segments snd].
  case_bool_decide as Heq.
  - assert (attr_of al (sid k) "members" = Some (SMembers cur)) as Hm.
    { apply members_of_attr. rewrite HM.
      replace k with (length Ms) by lia. apply lookup_snoc_last. }
    destruct (join_state_exact σ destruction_time_attr track_destruction
                al k cur y l' Hm) as (al1 & Hjoin & Hi1 & He1 & Hm1 & Ho1).
    { intros Htd. by eapply all_taxa_have_attribute_spec. }
    rewrite Hjoin in Hloop. cbn [mbind outcome_bind] in Hloop.
    pose proof (abstract_at_join _ _ _ _ _ y l' al1 Hat Hi1 He1 Hm1 Ho1) as Hat1.
    eapply (IH al1 k y t'' Ms (<[y := l']> cur) ns Segs
              (open ++ [(y, l', state')])); [done|done|done| | |done|done].
    + by destruct open.
    + intros i seg Hi. apply lookup_app_Some in Hi as [Hi|[Hle Hi]].
      * apply (Inv_frame al al1 i seg).
        -- intros key. apply Ho1. left. intros Hs%sid_inj.
           apply lookup_lt_Some in Hi. lia.
        -- apply Hinv. apply lookup_app_Some. by left.
      * apply list_lookup_singleton_Some in Hi as [Hi <-].
        replace i with k by lia.
        apply (Inv_join al al1 k cur open y l' state' Hne Hm Hyl Hjoin).
        apply Hinv.
        apply lookup_app_Some. right. split; [lia|].
        by rewrite Hlen, Nat.sub_diag.
  - destruct (new_state_exact σ attribute_list origin_time_attr track_origin
                Hns Hsid al k y l')
      as (al1 & ns1 & Hproj1 & Hnew & Hi1 & He1 & Hm1 & Hn1 & Hs1 & Ho1).
    { rewrite Hids. apply elem_of_sids. lia. }
    { rewrite Hids, elem_of_sids. lia. }
    { rewrite Hes, list_elem_of_fmap.
      intros (i & Hpair & Hi%elem_of_seq).
      assert (k = i) by (apply sid_inj; congruence). lia. }
    { done. }
    { intros Hto. by eapply all_taxa_have_attribute_spec. }
    assert (ns1 = state') as -> by congruence.
    rewrite Hnew in Hloop. cbn [mbind outcome_bind] in Hloop.
    replace (Z.of_nat k + 1)%Z with (Z.of_nat (S k)) in Hloop by lia.
    pose proof (abstract_at_new _ _ _ _ y l' al1 state'
                  Hat Hi1 He1 Hm1 Hn1 Hs1 Ho1) as Hat1.
    rewrite cons_middle, app_assoc.
    eapply (IH al1 (S k) y t'' (Ms ++ [cur]) {[y := l']} state'
              (Segs ++ [open]) [(y, l', state')]); [done|done| |done| |done|done].
    + rewrite length_app. simpl. lia.
    + intros i seg Hi. apply lookup_app_Some in Hi as [Hi|[Hle Hi]].
      * apply (Inv_frame al al1 i seg); [|by apply Hinv].
        intros key. apply Ho1. intros Hs%sid_inj.
        apply lookup_lt_Some in Hi. rewrite length_app in Hi. simpl in Hi.
        lia.
      * apply list_lookup_singleton_Some in Hi as [Hi <-].
        rewrite length_app in Hle, Hi. simpl in Hle, Hi.
        replace i with (S k) by lia.
        apply (Inv_new al al1 k y l' state'); [| |done|done].
        -- rewrite Hids. apply elem_of_sids. lia.
        -- rewrite Hids, elem_of_sids. lia.
Qed.
End loop_invariant.

(** ** The abstract lineage, state by state *)

Lemma rows_keys σ (lineage : DiGraph loc) attribute_list t rest :
  Forall2 (row_of σ lineage attribute_list) t rest →
  (λ r : value * nat * list value, r.1.1) <$> rest = t.
Proof.
  induction 1 as [|y [[y' l'] s'] t rest [Hy _] _ IH]; [done|].
  rewrite fmap_cons. simpl in *. by rewrite IH, Hy.
Qed.

Lemma rows_elem_of σ (lineage : DiGraph loc) attribute_list t rest row :
  Forall2 (row_of σ lineage attribute_list) t rest → row ∈ rest →
  row_of σ lineage attribute_list row.1.1 row.
Proof.
  induction 1 as [|y r t rest Hrow _ IH]; [by intros ?%elem_of_nil|].
  intros [->|Hin]%elem_of_cons; [|by apply IH].
  destruct Hrow as (Hy & Hl & Hp). by rewrite Hy.
Qed.

Lemma concat_fmap_fmap {A B} (f : A → B) (ls : list (list A)) :
  concat ((λ l : list A, f <$> l) <$> ls) = f <$> concat ls.
Proof.
  induction ls as [|l ls IH]; [done|]. cbn. by rewrite IH, fmap_app.
Qed.

Section destruction_invariant.
Context (σ : store) (lineage : DiGraph loc) (attribute_list : list string)
        (origin_time_attr destruction_time_attr : string).
Hypothesis Hattrs :
  all_taxa_have_attributes σ lineage attribute_list = true.

Let track_origin := all_taxa_have_attribute σ lineage origin_time_attr.
Let track_destruction :=
  all_taxa_have_attribute σ lineage destruction_time_attr.

Lemma destruction_from_frame al al' i seg :
  (∀ key, attr_of al' (sid i) key = attr_of al (sid i) key) →
  destruction_from σ attribute_list destruction_time_attr
                   track_destruction al i seg →
  destruction_from σ attribute_list destruction_time_attr
                   track_destruction al' i seg.
Proof.
  unfold destruction_from, state_attr. fold (sid i). by intros ->.
Qed.

Lemma destruction_from_join al al1 k cur open y l state :
  open ≠ [] → attr_of al (sid k) "members" = Some (SMembers cur) →
  (y, l) ∈ nodes lineage →
  join_state σ destruction_time_attr track_destruction
             al (Z.of_nat k) y l = Ret al1 →
  destruction_from σ attribute_list destruction_time_attr
                   track_destruction al k open →
  destruction_from σ attribute_list destruction_time_attr
                   track_destruction al1 k (open ++ [(y, l, state)]).
Proof.
  intros Hne Hm Hyl Hjoin Hinv.
  destruct (join_state_destruction σ destruction_time_attr track_destruction
              al k cur y l Hm) as (al1' & Hjoin' & Hd).
  { intros Htd. by eapply all_taxa_have_attribute_spec. }
  assert (al1' = al1) as -> by congruence.
  unfold destruction_from, state_attr in *. fold (sid k) in *.
  rewrite Hd, last_snoc. cbn [mbind option_bind fst snd].
  rewrite (bool_decide_eq_true_2 (k = 0 ∨ 2 ≤ length (open ++ [(y, l, state)]))).
  - destruct track_destruction; [done|]. exact Hinv.
  - right. rewrite length_app. destruct open; [done|]. simpl. lia.
Qed.

Lemma destruction_from_new al al1 k y l state :
  sid k ∈ node_ids al → sid (S k) ∉ node_ids al →
  (y, l) ∈ nodes lineage →
  new_state σ attribute_list origin_time_attr track_origin
            al (Z.of_nat k + 1) y l = Ret al1 →
  destruction_from σ attribute_list destruction_time_attr
                   track_destruction al1 (S k) [(y, l, state)].
Proof using Hattrs.
  intros Hk Hfresh Hyl Hnew.
  unfold destruction_from, state_attr. fold (sid (S k)).
  rewrite (bool_decide_eq_false_2 (S k = 0 ∨ 2 ≤ length [(y, l, state)]))
    by (simpl; lia).
  rewrite andb_false_r. intros Hdt.
  destruct (new_state_no_destruction σ attribute_list origin_time_attr
              track_origin al k y l Hdt Hk Hfresh) as (al1' & Hnew' & Hd).
  { intros a Ha. by eapply all_taxa_have_attributes_spec. }
  { intros Hto. by eapply all_taxa_have_attribute_spec. }
  by assert (al1' = al1) as -> by congruence.
Qed.
End destruction_invariant.

Section abstract_exact.
Context (σ : store) (lineage : DiGraph loc) (attribute_list : list string)
        (origin_time_attr destruction_time_attr : string) (fuel : nat).
Hypothesis Hwf : world_wf σ lineage.
Hypothesis Hacyc : acyclic lineage.
Hypothesis Hlin : is_asexual_lineage fuel lineage = Ret true.
Hypothesis Hattrs :
  all_taxa_have_attributes σ lineage attribute_list = true.
Hypothesis Hns : "node_state" ∉ attribute_list.
Hypothesis Hmem : "members" ∉ attribute_list.
Hypothesis Hsid : "state_id" ∉ attribute_list.

(** The lineage from the root to the tip, as rows, and the abstract
    lineage with one state for each of its runs. *)
Lemma abstract_asexual_lineage_segments :
  ∃ al r l0 ns0 t rest,
    get_root_ids lineage = [r] ∧
    trail (successors lineage) fuel r = Some (r :: t) ∧
    NoDup (r :: t) ∧
    (∀ n, n ∈ node_ids lineage ↔ n ∈ r :: t) ∧
    (∀ row, row ∈ (r, l0, ns0) :: rest →
            row_of σ lineage attribute_list row.1.1 row) ∧
    (λ row : value * nat * list value, row.1.1) <$> ((r, l0, ns0) :: rest)
      = r :: t ∧
    abstract_asexual_lineage fuel σ lineage attribute_list
                             origin_time_attr destruction_time_attr = Ret al ∧
    node_ids al
      = sid <$> seq 0 (length (segments [(r, l0, ns0)] ns0 rest)) ∧
    ∀ i seg, segments [(r, l0, ns0)] ns0 rest !! i = Some seg →
      ∃ h m,
        head seg = Some h ∧
        (∀ row, row ∈ seg → row.2 = h.2) ∧
        members_of al (Z.of_nat i) = Some m ∧
        (∀ y l, m !! y = Some l ↔ ∃ s, (y, l, s) ∈ seg) ∧
        opened_from σ attribute_list origin_time_attr
                    (all_taxa_have_attribute σ lineage origin_time_attr)
                    al i h ∧
        destruction_from σ attribute_list destruction_time_attr
                         (all_taxa_have_attribute σ lineage destruction_time_attr)
                         al i seg ∧
        state_attr al (Z.of_nat i) "state_id" = Some (SVal (sid i)).
Proof using All.
  unfold abstract_asexual_lineage. rewrite Hlin.
  cbn [mbind outcome_bind negb]. rewrite Hattrs. cbn [negb].
  rewrite !bool_decide_eq_false_2 by done.
  pose proof Hlin as Hwalk.
  unfold is_asexual_lineage in Hwalk. case_bool_decide as Hroots; [done|].
  destruct (get_root_ids lineage) as [|r [|??]] eqn:Hr; try done.
  change [r] with ([] ++ [r]) in Hwalk.
  apply lineage_walk_true in Hwalk as (t & Ht & Hsucc).
  destruct (trail_start _ _ _ _ Ht) as [t' ->].
  assert (r ∈ node_ids lineage) as Hrn.
  { eapply get_root_ids_nodes. rewrite Hr. left. }
  destruct (node_lookup_is_Some lineage r Hrn) as [l Hl].
  unfold node_ref. rewrite Hl. cbn [mbind outcome_bind].
  pose proof (node_lookup_elem_of _ _ _ Hl) as Hl'.
  assert (∀ a, a ∈ attribute_list →
            is_Some ((σ !!! l : gmap string value) !! a)) as Hall.
  { intros a Ha. by eapply all_taxa_have_attributes_spec. }
  destruct (root_state_exact σ attribute_list origin_time_attr
              destruction_time_attr
              (all_taxa_have_attribute σ lineage origin_time_attr)
              (all_taxa_have_attribute σ lineage destruction_time_attr)
              Hns Hsid r l Hall) as (al0 & ns0 & Hproj0 & Hroot & Hat0).
  { intros Hto. by eapply all_taxa_have_attribute_spec. }
  { intros Htd. by eapply all_taxa_have_attribute_spec. }
  destruct (root_state_opened σ attribute_list origin_time_attr
              destruction_time_attr
              (all_taxa_have_attribute σ lineage origin_time_attr)
              (all_taxa_have_attribute σ lineage destruction_time_attr)
              Hns Hmem r l Hall) as (al0' & ns0' & Hproj0' & Hroot' & Hop0).
  { intros Hto. by eapply all_taxa_have_attribute_spec. }
  { intros Htd. by eapply all_taxa_have_attribute_spec. }
  assert (al0' = al0) as -> by congruence.
  assert (ns0' = ns0) as -> by congruence.
  destruct (root_state_destruction σ attribute_list origin_time_attr
              destruction_time_attr
              (all_taxa_have_attribute σ lineage origin_time_attr)
              (all_taxa_have_attribute σ lineage destruction_time_attr)
              r l Hall) as (al0' & Hroot'' & Hd0).
  { intros Hto. by eapply all_taxa_have_attribute_spec. }
  { intros Htd. by eapply all_taxa_have_attribute_spec. }
  assert (al0' = al0) as -> by congruence.
  rewrite Hroot. cbn [mbind outcome_bind].
  assert (NoDup (r :: t')) as Hnd.
  { eapply trail_NoDup; [|exact Ht]. intros n Hn. apply (Hacyc n).
    eapply tc_congruence with (f := id); [|exact Hn].
    intros a b Hab. by apply elem_of_successors. }
  destruct (abstract_loop_segments σ lineage attribute_list origin_time_attr
              destruction_time_attr (proj1 Hwf) Hattrs Hns Hmem Hsid
              fuel al0 0 r t' [] {[r := l]} ns0 [] [(r, l, ns0)] Ht Hat0)
    as (al & k & ns & rest & Hal & Hrest & Hat & Hopened).
  { done. }
  { done. }
  { intros i seg h Hi Hh. apply list_lookup_singleton_Some in Hi as [-> <-].
    by injection Hh as <-. }
  assert (∀ i seg, segments [(r, l, ns0)] ns0 rest !! i = Some seg →
            destruction_from σ attribute_list destruction_time_attr
              (all_taxa_have_attribute σ lineage destruction_time_attr)
              al i seg) as Hdest.
  { apply (abstract_loop_invariant σ lineage attribute_list origin_time_attr
             destruction_time_attr (proj1 Hwf) Hattrs Hns Hsid
             (destruction_from σ attribute_list destruction_time_attr
                (all_taxa_have_attribute σ lineage destruction_time_attr))
             (destruction_from_frame σ lineage attribute_list
                destruction_time_attr)
             (destruction_from_join σ lineage attribute_list
                destruction_time_attr)
             (destruction_from_new σ lineage attribute_list origin_time_attr
                destruction_time_attr Hattrs)
             fuel al0 0 r t' [] {[r := l]} ns0 [] [(r, l, ns0)] al rest
             Ht Hat0); [done|done| |done|done].
    intros i seg Hi. apply list_lookup_singleton_Some in Hi as [-> <-].
    unfold destruction_from, state_attr. change (VInt (Z.of_nat 0)) with (sid 0).
    rewrite (bool_decide_eq_true_2 (0 = 0 ∨ _)) by (by left).
    by destruct (all_taxa_have_attribute σ lineage destruction_time_attr). }
  change (Z.of_nat 0) with 0%Z in Hal. rewrite Hal.
  cbn [app] in Hat, Hopened.
  pose proof (rows_keys _ _ _ _ _ Hrest) as Hkeys.
  assert (Forall2 (λ (m : gmap value nat) seg,
                     ∀ y l', m !! y = Some l' ↔ ∃ s, (y, l', s) ∈ seg)
            (runs ns0 {[r := l]} rest)
            (segments [(r, l, ns0)] ns0 rest)) as Hruns.
  { apply runs_segments.
    - cbn [app]. rewrite fmap_cons. cbn [fst]. by rewrite Hkeys.
    - intros y l'. rewrite lookup_singleton_Some. split.
      + intros [<- <-]. exists ns0. left.
      + intros [s Hs%list_elem_of_singleton]. by injection Hs as -> -> ->. }
  destruct Hat as (Hids & _ & Hlen & HM & Hstate_id & _).
  pose proof (Forall2_length _ _ _ Hruns) as Hlens.
  exists al, r, l, ns0, t', rest. split_and!; [done..| | | |done| |].
  - intros n. split.
    + by apply (single_root_trail_covers lineage r fuel (r :: t'));
        [apply Hwf|..].
    + eapply successors_trail_nodes; [apply Hwf|done|done].
  - intros row [->|Hrow]%elem_of_cons; [done|]. by eapply rows_elem_of.
  - rewrite fmap_cons. cbn [fst]. by rewrite Hkeys.
  - rewrite Hids. do 2 f_equal. lia.
  - intros i seg Hseg.
    destruct (Forall2_lookup_r _ _ _ _ _ Hruns Hseg) as (m & Hm & Hmseg).
    pose proof (segments_nonempty [(r, l, ns0)] ns0 rest) as Hne.
    rewrite Forall_forall in Hne.
    assert (seg ≠ []) as Hsegne.
    { apply Hne; [done|]. by eapply list_elem_of_lookup_2. }
    destruct seg as [|h seg']; [done|].
    exists h, m. split_and!; [done| | |done| | |].
    + assert (Forall (λ seg, ∀ r1 r2 : value * nat * list value,
                                r1 ∈ seg → r2 ∈ seg → r1.2 = r2.2)
                (segments [(r, l, ns0)] ns0 rest)) as Huni.
      { apply segments_uniform. intros r0 Hr0%list_elem_of_singleton.
        by subst. }
      rewrite Forall_forall in Huni.
      intros row Hrow. apply (Huni (h :: seg'));
        [by eapply list_elem_of_lookup_2|done|left].
    + by rewrite HM.
    + by apply (Hopened i (h :: seg') h).
    + by apply Hdest.
    + apply Hstate_id. apply lookup_lt_Some in Hseg.
      rewrite <- Hlens in Hseg. simpl in Hlen. lia.
Qed.
End abstract_exact.

Lemma elem_of_concat_2 {A} (ls : list (list A)) l x :
  l ∈ ls → x ∈ l → x ∈ concat ls.
Proof.
  induction ls as [|l' ls IH]; [by intros ?%elem_of_nil|].
  intros [->|Hl]%elem_of_cons Hx; cbn; apply elem_of_app; [by left|].
  right. by apply IH.
Qed.

(** X16.  [abstract_asexual_lineage] abstracts soundly.  Every state
    records as [node_state] the values of the listed attributes that all its
    members have, and holds each listed attribute with that value; its
    [members] maps each member to the attribute object that the lineage
    itself holds for it; and the [node_state] of a state differs from that
    of the next state.  (The attribute list names neither a reserved
    attribute nor [origin_time] or [destruction_time], which the function
    writes itself.) *)
Theorem abstract_states_describe_members
    (σ : store) (lineage : DiGraph loc) (attribute_list : list string)
    (origin_time_attr destruction_time_attr : string) (fuel : nat) :
  world_wf σ lineage → acyclic lineage →
  is_asexual_lineage fuel lineage = Ret true →
  all_taxa_have_attributes σ lineage attribute_list = true →
  "node_state" ∉ attribute_list → "members" ∉ attribute_list →
  "state_id" ∉ attribute_list →
  "origin_time" ∉ attribute_list → "destruction_time" ∉ attribute_list →
  ∃ al n,
    abstract_asexual_lineage fuel σ lineage attribute_list
                             origin_time_attr destruction_time_attr = Ret al ∧
    node_ids al = (λ i, VInt (Z.of_nat i)) <$> seq 0 n ∧
    (∀ i, i < n →
       ∃ ns m,
         state_attr al (Z.of_nat i) "node_state" = Some (SList ns) ∧
         members_of al (Z.of_nat i) = Some m ∧
         ∀ y l, m !! y = Some l →
           node_lookup lineage y = Some l ∧
           project (σ !!! l) attribute_list = Ret ns ∧
           ∀ a, a ∈ attribute_list →
                state_attr al (Z.of_nat i) a
                = SVal <$> ((σ !!! l : gmap string value) !! a)) ∧
    (∀ i ns ns', S i < n →
       state_attr al (Z.of_nat i) "node_state" = Some (SList ns) →
       state_attr al (Z.of_nat (S i)) "node_state" = Some (SList ns') →
       ns ≠ ns').
Proof.
  intros Hwf Hacyc Hlin Hattrs Hns Hmem Hsid Hot Hdt.
  destruct (abstract_asexual_lineage_segments σ lineage attribute_list
              origin_time_attr destruction_time_attr fuel
              Hwf Hacyc Hlin Hattrs Hns Hmem Hsid)
    as (al & r & l0 & ns0 & t & rest & _ & _ & _ & _ & Hrows & _ & Hal & Hids
        & Hstates).
  set (segs := segments [(r, l0, ns0)] ns0 rest) in *.
  assert (∀ i seg row, segs !! i = Some seg → row ∈ seg →
            row_of σ lineage attribute_list row.1.1 row) as Hrow.
  { intros i seg row Hseg Hin. apply Hrows.
    change ((r, l0, ns0) :: rest) with ([(r, l0, ns0)] ++ rest).
    rewrite <- (concat_segments [(r, l0, ns0)] ns0 rest).
    eapply elem_of_concat_2; [|done]. by eapply list_elem_of_lookup_2. }
  exists al, (length segs). split_and!; [done|done|..].
  - intros i Hi. destruct (lookup_lt_is_Some_2 segs i Hi) as [seg Hseg].
    destruct (Hstates i seg Hseg) as (h & m & Hh & Huni & Hm & Hmseg & Hop & _).
    destruct Hop as (Hop1 & Hop2 & _).
    assert (h ∈ seg) as Hhin.
    { destruct seg; [done|]. injection Hh as ->. left. }
    destruct (Hrow i seg h Hseg Hhin) as (_ & _ & Hhp).
    exists h.2, m. split_and!; [done..|].
    intros y l [s Hs]%Hmseg.
    destruct (Hrow i seg (y, l, s) Hseg Hs) as (_ & Hlk & Hp).
    cbn [fst snd] in Hlk, Hp.
    pose proof (Huni (y, l, s) Hs) as Hs2. cbn [snd] in Hs2. rewrite Hs2 in Hp.
    split_and!; [done..|].
    intros a Ha. rewrite (Hop2 a Ha) by (by intros ->). f_equal.
    by apply (project_lookup _ _ attribute_list h.2 a).
  - intros i ns ns' Hi Hn Hn'.
    destruct (lookup_lt_is_Some_2 segs i) as [seg Hseg]; [lia|].
    destruct (lookup_lt_is_Some_2 segs (S i) Hi) as [seg' Hseg'].
    destruct (Hstates i seg Hseg) as (h & _ & Hh & _ & _ & _ & (Hop & _) & _).
    destruct (Hstates (S i) seg' Hseg') as (h' & _ & Hh' & _ & _ & _ & (Hop' & _) & _).
    rewrite Hop in Hn. rewrite Hop' in Hn'.
    injection Hn as <-. injection Hn' as <-.
    apply (segments_adjacent [(r, l0, ns0)] ns0 rest i seg seg' h h');
      [done| |done|done|..].
    + intros r0 Hr0%list_elem_of_singleton. by subst.
    + destruct seg; [done|]. injection Hh as ->. left.
    + destruct seg'; [done|]. injection Hh' as ->. left.
Qed.

Lemma abstract_states_describe_members_witness :
  ∃ al n,
    abstract_asexual_lineage 4 chain_store chain_ABCD ["trait"]
                             "origin_time" "destruction_time" = Ret al ∧
    node_ids al = (λ i, VInt (Z.of_nat i)) <$> seq 0 n ∧
    (∀ i, i < n →
       ∃ ns m,
         state_attr al (Z.of_nat i) "node_state" = Some (SList ns) ∧
         members_of al (Z.of_nat i) = Some m ∧
         ∀ y l, m !! y = Some l →
           node_lookup chain_ABCD y = Some l ∧
           project (chain_store !!! l) ["trait"] = Ret ns ∧
           ∀ a, a ∈ ["trait"] →
                state_attr al (Z.of_nat i) a
                = SVal <$> ((chain_store !!! l : gmap string value) !! a)) ∧
    (∀ i ns ns', S i < n →
       state_attr al (Z.of_nat i) "node_state" = Some (SList ns) →
       state_attr al (Z.of_nat (S i)) "node_state" = Some (SList ns') →
       ns ≠ ns').
Proof.
  apply (abstract_states_describe_members chain_store chain_ABCD ["trait"]
           "origin_time" "destruction_time" 4).
  - apply chain_ABCD_wf.
  - apply chain_ABCD_acyclic.
  - vm_compute. reflexivity.
  - vm_compute. reflexivity.
  - by_compute.
  - by_compute.
  - by_compute.
  - by_compute.
  - by_compute.
Defined.

(** X17.  On an accepted lineage (an acyclic asexual lineage whose taxa all
    carry the listed attributes, none of which is [node_state], [members]
    or [state_id]), the states of the abstract lineage cut the lineage,
    listed from its root to its tip, into consecutive runs: state 0 has the
    first taxa as members, state 1 the next, and so on, no run is empty, and
    every taxon is in one run.  State [i] holds [i] as its [state_id].  When
    origin times are tracked and [origin_time] is not itself a listed
    attribute, state [i] holds the origin time of the first taxon of its run
    as its [origin_time]. *)
Theorem abstract_states_follow_lineage
    (σ : store) (lineage : DiGraph loc) (attribute_list : list string)
    (origin_time_attr destruction_time_attr : string) (fuel : nat) :
  world_wf σ lineage → acyclic lineage →
  is_asexual_lineage fuel lineage = Ret true →
  all_taxa_have_attributes σ lineage attribute_list = true →
  "node_state" ∉ attribute_list → "members" ∉ attribute_list →
  "state_id" ∉ attribute_list →
  ∃ al (pieces : list (list value)) r,
    abstract_asexual_lineage fuel σ lineage attribute_list
                             origin_time_attr destruction_time_attr = Ret al ∧
    node_ids al = (λ i, VInt (Z.of_nat i)) <$> seq 0 (length pieces) ∧
    get_root_ids lineage = [r] ∧ head (concat pieces) = Some r ∧
    NoDup (concat pieces) ∧
    (∀ n, n ∈ node_ids lineage ↔ n ∈ concat pieces) ∧
    (∀ j a b, concat pieces !! j = Some a → concat pieces !! S j = Some b →
              edge lineage a b) ∧
    (∀ i run, pieces !! i = Some run →
       run ≠ [] ∧
       state_attr al (Z.of_nat i) "state_id" = Some (SVal (VInt (Z.of_nat i))) ∧
       ∃ m, members_of al (Z.of_nat i) = Some m ∧
            ∀ y, is_Some (m !! y) ↔ y ∈ run) ∧
    (all_taxa_have_attribute σ lineage origin_time_attr = true →
     "origin_time" ∉ attribute_list →
     ∀ i run y0 l0, pieces !! i = Some run → head run = Some y0 →
       node_lookup lineage y0 = Some l0 →
       state_attr al (Z.of_nat i) "origin_time"
       = SVal <$> ((σ !!! l0 : gmap string value) !! origin_time_attr)).
Proof.
  intros Hwf Hacyc Hlin Hattrs Hns Hmem Hsid.
  destruct (abstract_asexual_lineage_segments σ lineage attribute_list
              origin_time_attr destruction_time_attr fuel
              Hwf Hacyc Hlin Hattrs Hns Hmem Hsid)
    as (al & r & l0 & ns0 & t & rest & Hroot & Ht & Hnd & Hcov & Hrows & Hkeys
        & Hal & Hids & Hstates).
  set (segs := segments [(r, l0, ns0)] ns0 rest) in *.
  set (key := λ row : value * nat * list value, row.1.1).
  assert (concat ((λ seg : list (value * nat * list value), key <$> seg)
                    <$> segs) = r :: t) as Hconcat.
  { rewrite concat_fmap_fmap. unfold segs. rewrite concat_segments.
    exact Hkeys. }
  assert (∀ i seg row, segs !! i = Some seg → row ∈ seg →
            row_of σ lineage attribute_list row.1.1 row) as Hrow.
  { intros i seg row Hseg Hin. apply Hrows.
    change ((r, l0, ns0) :: rest) with ([(r, l0, ns0)] ++ rest).
    rewrite <- (concat_segments [(r, l0, ns0)] ns0 rest).
    eapply elem_of_concat_2; [|done]. by eapply list_elem_of_lookup_2. }
  exists al, ((λ seg : list (value * nat * list value), key <$> seg) <$> segs), r.
  rewrite Hconcat, length_fmap. split_and!; [done..| | |].
  - intros j a b Ha Hb.
    pose proof (trail_link _ _ _ _ _ _ _ Ht Ha Hb) as Hhead.
    apply elem_of_successors.
    destruct (successors lineage a) as [|b' bs]; [done|].
    injection Hhead as ->. left.
  - intros i run Hrun. apply list_lookup_fmap_Some in Hrun as (seg & -> & Hseg).
    destruct (Hstates i seg Hseg) as (h & m & Hh & _ & Hm & Hmseg & _ & _ & Hsid').
    split; [by destruct seg|]. split; [done|]. exists m. split; [done|].
    intros y. split.
    + intros [l [s Hs]%Hmseg]. apply list_elem_of_fmap. by exists (y, l, s).
    + intros ([[y' l] s] & -> & Hs)%list_elem_of_fmap. exists l.
      apply Hmseg. by exists s.
  - intros Htrack Hot i run y0 l1 Hrun Hhead Hlk.
    apply list_lookup_fmap_Some in Hrun as (seg & -> & Hseg).
    destruct (Hstates i seg Hseg) as (h & m & Hh & _ & _ & _ & (_ & _ & Hop) & _).
    destruct seg as [|h' seg']; [done|]. injection Hh as ->.
    cbn in Hhead. injection Hhead as <-.
    destruct (Hrow i (h :: seg') h Hseg) as (_ & Hlk' & _); [left|].
    unfold key in Hlk. rewrite Hlk' in Hlk. injection Hlk as <-.
    by apply Hop.
Qed.

Lemma abstract_states_follow_lineage_witness :
  ∃ al (pieces : list (list value)) r,
    abstract_asexual_lineage 4 chain_store chain_ABCD ["trait"]
                             "origin_time" "destruction_time" = Ret al ∧
    node_ids al = (λ i, VInt (Z.of_nat i)) <$> seq 0 (length pieces) ∧
    get_root_ids chain_ABCD = [r] ∧ head (concat pieces) = Some r ∧
    NoDup (concat pieces) ∧
    (∀ n, n ∈ node_ids chain_ABCD ↔ n ∈ concat pieces) ∧
    (∀ j a b, concat pieces !! j = Some a → concat pieces !! S j = Some b →
              edge chain_ABCD a b) ∧
    (∀ i run, pieces !! i = Some run →
       run ≠ [] ∧
       state_attr al (Z.of_nat i) "state_id" = Some (SVal (VInt (Z.of_nat i))) ∧
       ∃ m, members_of al (Z.of_nat i) = Some m ∧
            ∀ y, is_Some (m !! y) ↔ y ∈ run) ∧
    (all_taxa_have_attribute chain_store chain_ABCD "origin_time" = true →
     "origin_time" ∉ ["trait"] →
     ∀ i run y0 l0, pieces !! i = Some run → head run = Some y0 →
       node_lookup chain_ABCD y0 = Some l0 →
       state_attr al (Z.of_nat i) "origin_time"
       = SVal <$> ((chain_store !!! l0 : gmap string value) !! "origin_time")).
Proof.
  apply (abstract_states_follow_lineage chain_store chain_ABCD ["trait"]
           "origin_time" "destruction_time" 4).
  - apply chain_ABCD_wf.
  - apply chain_ABCD_acyclic.
  - vm_compute. reflexivity.
  - vm_compute. reflexivity.
  - by_compute.
  - by_compute.
  - by_compute.
Defined.

(** X22.  Which states of an accepted lineage (an acyclic asexual lineage
    whose taxa all carry the listed attributes, none of which is
    [node_state], [members] or [state_id]) have a [destruction_time].  When
    destruction times are tracked (every taxon carries the destruction
    attribute), the first state has the destruction time of the last taxon
    of its run, and so has every later state with two or more members.
    The other states (a later state with a single member, and every state
    when destruction times are not tracked) have no [destruction_time] at
    all, provided [destruction_time] is not itself a listed attribute. *)
Theorem abstract_states_destruction_times
    (σ : store) (lineage : DiGraph loc) (attribute_list : list string)
    (origin_time_attr destruction_time_attr : string) (fuel : nat) :
  world_wf σ lineage → acyclic lineage →
  is_asexual_lineage fuel lineage = Ret true →
  all_taxa_have_attributes σ lineage attribute_list = true →
  "node_state" ∉ attribute_list → "members" ∉ attribute_list →
  "state_id" ∉ attribute_list →
  ∃ al (pieces : list (list value)),
    abstract_asexual_lineage fuel σ lineage attribute_list
                             origin_time_attr destruction_time_attr = Ret al ∧
    node_ids al = (λ i, VInt (Z.of_nat i)) <$> seq 0 (length pieces) ∧
    (∀ j a b, concat pieces !! j = Some a → concat pieces !! S j = Some b →
              edge lineage a b) ∧
    (∀ i run, pieces !! i = Some run →
       ∃ m, members_of al (Z.of_nat i) = Some m ∧
            ∀ y, is_Some (m !! y) ↔ y ∈ run) ∧
    (∀ i run y l, pieces !! i = Some run → last run = Some y →
       node_lookup lineage y = Some l →
       if all_taxa_have_attribute σ lineage destruction_time_attr
          && bool_decide (i = 0 ∨ 2 ≤ length run)
       then state_attr al (Z.of_nat i) "destruction_time"
            = SVal <$> ((σ !!! l : gmap string value) !! destruction_time_attr)
       else "destruction_time" ∉ attribute_list →
            state_attr al (Z.of_nat i) "destruction_time" = None).
Proof.
  intros Hwf Hacyc Hlin Hattrs Hns Hmem Hsid.
  destruct (abstract_asexual_lineage_segments σ lineage attribute_list
              origin_time_attr destruction_time_attr fuel
              Hwf Hacyc Hlin Hattrs Hns Hmem Hsid)
    as (al & r & l0 & ns0 & t & rest & Hroot & Ht & Hnd & Hcov & Hrows & Hkeys
        & Hal & Hids & Hstates).
  set (segs := segments [(r, l0, ns0)] ns0 rest) in *.
  set (key := λ row : value * nat * list value, row.1.1).
  assert (concat ((λ seg : list (value * nat * list value), key <$> seg)
                    <$> segs) = r :: t) as Hconcat.
  { rewrite concat_fmap_fmap. unfold segs. rewrite concat_segments.
    exact Hkeys. }
  assert (∀ i seg row, segs !! i = Some seg → row ∈ seg →
            row_of σ lineage attribute_list row.1.1 row) as Hrow.
  { intros i seg row Hseg Hin. apply Hrows.
    change ((r, l0, ns0) :: rest) with ([(r, l0, ns0)] ++ rest).
    rewrite <- (concat_segments [(r, l0, ns0)] ns0 rest).
    eapply elem_of_concat_2; [|done]. by eapply list_elem_of_lookup_2. }
  exists al, ((λ seg : list (value * nat * list value), key <$> seg) <$> segs).
  rewrite Hconcat, length_fmap. split_and!; [done..| | |].
  - intros j a b Ha Hb.
    pose proof (trail_link _ _ _ _ _ _ _ Ht Ha Hb) as Hhead.
    apply elem_of_successors.
    destruct (successors lineage a) as [|b' bs]; [done|].
    injection Hhead as ->. left.
  - intros i run Hrun. apply list_lookup_fmap_Some in Hrun as (seg & -> & Hseg).
    destruct (Hstates i seg Hseg) as (h & m & Hh & _ & Hm & Hmseg & _).
    exists m. split; [done|]. intros y. split.
    + intros [l [s Hs]%Hmseg]. apply list_elem_of_fmap. by exists (y, l, s).
    + intros ([[y' l] s] & -> & Hs)%list_elem_of_fmap. exists l.
      apply Hmseg. by exists s.
  - intros i run y l Hrun Hlast Hlk.
    apply list_lookup_fmap_Some in Hrun as (seg & -> & Hseg).
    destruct (Hstates i seg Hseg) as (h & m & _ & _ & _ & _ & _ & Hdest & _).
    unfold destruction_from in Hdest. rewrite length_fmap.
    rewrite fmap_last in Hlast.
    destruct (last seg) as [row|] eqn:Hrowlast; [|done].
    cbn in Hlast. injection Hlast as <-.
    destruct (Hrow i seg row Hseg) as (_ & Hlk' & _);
      [by apply last_Some_elem_of|].
    unfold key in Hlk. rewrite Hlk' in Hlk. injection Hlk as <-.
    exact Hdest.
Qed.

Lemma abstract_states_destruction_times_witness :
  ∃ al (pieces : list (list value)),
    abstract_asexual_lineage 4 chain_store chain_ABCD ["trait"]
                             "origin_time" "destruction_time" = Ret al ∧
    node_ids al = (λ i, VInt (Z.of_nat i)) <$> seq 0 (length pieces) ∧
    (∀ j a b, concat pieces !! j = Some a → concat pieces !! S j = Some b →
              edge chain_ABCD a b) ∧
    (∀ i run, pieces !! i = Some run →
       ∃ m, members_of al (Z.of_nat i) = Some m ∧
            ∀ y, is_Some (m !! y) ↔ y ∈ run) ∧
    (∀ i run y l, pieces !! i = Some run → last run = Some y →
       node_lookup chain_ABCD y = Some l →
       if all_taxa_have_attribute chain_store chain_ABCD "destruction_time"
          && bool_decide (i = 0 ∨ 2 ≤ length run)
       then state_attr al (Z.of_nat i) "destruction_time"
            = SVal <$> ((chain_store !!! l : gmap string value)
                          !! "destruction_time")
       else "destruction_time" ∉ ["trait"] →
            state_attr al (Z.of_nat i) "destruction_time" = None).
Proof.
  apply (abstract_states_destruction_times chain_store chain_ABCD ["trait"]
           "origin_time" "destruction_time" 4).
  - apply chain_ABCD_wf.
  - apply chain_ABCD_acyclic.
  - vm_compute. reflexivity.
  - vm_compute. reflexivity.
  - by_compute.
  - by_compute.
  - by_compute.
Defined.

(** ** From extraction to abstraction *)

Lemma elem_of_concat_1 {A} (ls : list (list A)) x :
  x ∈ concat ls → ∃ i l, ls !! i = Some l ∧ x ∈ l.
Proof.
  induction ls as [|l ls IH]; [by intros ?%elem_of_nil|].
  cbn. intros [Hx|Hx]%elem_of_app.
  - by exists 0, l.
  - destruct (IH Hx) as (i & l' & Hi & Hl'). by exists (S i), l'.
Qed.

Lemma members_of_state_lt (al : DiGraph sattrs) n i m :
  node_ids al = sid <$> seq 0 n →
  members_of al (Z.of_nat i) = Some m → i < n.
Proof.
  intros Hids Hm. apply members_of_attr in Hm. fold (sid i) in Hm.
  destruct (decide (sid i ∈ node_ids al)) as [Hin|Hout].
  - rewrite Hids in Hin. by apply elem_of_sids in Hin.
  - by rewrite (attr_of_outside al (sid i) "members" Hout) in Hm.
Qed.

(** X18.  The lineage that [extract_asexual_lineage] returns is an input
    that [abstract_asexual_lineage] accepts: on an asexual acyclic
    phylogeny whose taxa all carry the listed attributes, none of which is
    one of the reserved names [node_state], [members] and [state_id],
    extraction at a taxon followed by abstraction returns an abstract
    lineage, the members of its states are exactly the taxon and its
    ancestors, and the objects they are mapped to are those of the extracted
    copy, new objects that hold what the objects of the phylogeny hold. *)
Theorem extract_then_abstract
    (σ : store) (g : DiGraph loc) (taxa_id : value)
    (attribute_list : list string)
    (origin_time_attr destruction_time_attr : string) (fuel : nat) :
  world_wf σ g → acyclic g → is_asexual g = true → taxa_id ∈ node_ids g →
  length (nodes g) ≤ fuel →
  all_taxa_have_attributes σ g attribute_list = true →
  "node_state" ∉ attribute_list → "members" ∉ attribute_list →
  "state_id" ∉ attribute_list →
  ∃ lin σ' al,
    extract_asexual_lineage fuel σ g taxa_id = Ret (lin, σ') ∧
    abstract_asexual_lineage fuel σ' lin attribute_list
                             origin_time_attr destruction_time_attr = Ret al ∧
    (∀ y, rtc (edge g) y taxa_id ↔
          ∃ i m, members_of al (Z.of_nat i) = Some m ∧ is_Some (m !! y)) ∧
    (∀ i m y l, members_of al (Z.of_nat i) = Some m → m !! y = Some l →
                length σ ≤ l ∧ node_attrs σ g y = Ret (σ' !!! l)).
Proof.
  intros Hwf Hacyc Hsex Hin Hfuel Hattrs Hns Hmem Hsid.
  destruct (predecessors_trail_terminates g fuel taxa_id (proj1 Hwf) Hacyc Hin
              Hfuel) as [t Ht].
  set (lin := (subgraph_copy σ g t).1).
  set (σ' := (subgraph_copy σ g t).2).
  assert (∀ n, n ∈ t → n ∈ node_ids g) as Ht_nodes.
  { by eapply back_trail_nodes. }
  assert (world_wf σ' lin) as Hwf' by (by apply subgraph_copy_wf).
  assert (acyclic lin) as Hacyc'.
  { apply (acyclic_sub g lin); [|done].
    by intros u v [? _]%subgraph_copy_edges. }
  assert (length (nodes lin) ≤ fuel) as Hfuel'.
  { etrans; [|exact Hfuel]. unfold lin, subgraph_copy. cbn [fst nodes].
    rewrite length_zip_with, length_fmap, length_seq.
    etrans; [apply Nat.le_min_l|]. apply length_filter. }
  assert (is_asexual_lineage fuel lin = Ret true) as Hlin.
  { by apply (extracted_is_lineage σ g taxa_id fuel t). }
  assert (∀ n l, (n, l) ∈ nodes lin →
            n ∈ t ∧ length σ ≤ l ∧ node_attrs σ g n = Ret (σ' !!! l)) as Hcopy.
  { intros n l Hnl.
    assert (n ∈ t) as Hn.
    { apply (extracted_node_ids σ g taxa_id fuel t Hwf Hin Ht).
      apply list_elem_of_fmap. by exists (n, l). }
    split_and!; [done| |].
    - apply (subgraph_copy_fresh σ g t). apply list_elem_of_fmap.
      by exists (n, l).
    - rewrite <- (subgraph_copy_attrs σ g t Hwf Ht_nodes n Hn).
      by apply node_attrs_node; [apply Hwf'|]. }
  assert (all_taxa_have_attributes σ' lin attribute_list = true) as Hattrs'.
  { unfold all_taxa_have_attributes. apply forallb_elem_of. intros [n l] Hnl.
    apply forallb_elem_of. intros a Ha. apply bool_decide_eq_true_2. cbn [snd].
    destruct (Hcopy n l Hnl) as (Hn & _ & Heq).
    destruct (node_lookup_is_Some g n (Ht_nodes n Hn)) as [l0 Hl0].
    pose proof (node_lookup_elem_of _ _ _ Hl0) as Hl0'.
    rewrite (node_attrs_node σ g n l0 (proj1 (proj1 Hwf)) Hl0') in Heq.
    injection Heq as <-. by eapply all_taxa_have_attributes_spec. }
  destruct (abstract_asexual_lineage_segments σ' lin attribute_list
              origin_time_attr destruction_time_attr fuel
              Hwf' Hacyc' Hlin Hattrs' Hns Hmem Hsid)
    as (al & r & l0 & ns0 & t' & rest & _ & _ & _ & Hcov & Hrows & Hkeys & Hal
        & Hids & Hstates).
  set (segs := segments [(r, l0, ns0)] ns0 rest) in *.
  assert (∀ i seg row, segs !! i = Some seg → row ∈ seg →
            row_of σ' lin attribute_list row.1.1 row) as Hrow.
  { intros i seg row Hseg Hrin. apply Hrows.
    change ((r, l0, ns0) :: rest) with ([(r, l0, ns0)] ++ rest).
    rewrite <- (concat_segments [(r, l0, ns0)] ns0 rest).
    eapply elem_of_concat_2; [|done]. by eapply list_elem_of_lookup_2. }
  assert (∀ i m y l, members_of al (Z.of_nat i) = Some m → m !! y = Some l →
            (y, l) ∈ nodes lin) as Hmember.
  { intros i m y l Hm Hy.
    pose proof (members_of_state_lt al _ i m Hids Hm) as Hi.
    destruct (lookup_lt_is_Some_2 segs i Hi) as [seg Hseg].
    destruct (Hstates i seg Hseg) as (h & m' & _ & _ & Hm' & Hmseg & _).
    rewrite Hm in Hm'. injection Hm' as <-.
    apply Hmseg in Hy as [s Hs].
    destruct (Hrow i seg (y, l, s) Hseg Hs) as (_ & Hlk & _).
    by apply node_lookup_elem_of in Hlk. }
  exists lin, σ', al. split_and!.
  - unfold extract_asexual_lineage.
    rewrite (bool_decide_eq_true_2 _ Hin), Hsex. cbn [negb].
    rewrite (ancestor_walk_trail g fuel [] taxa_id
             : ancestor_walk fuel g [taxa_id] = _), Ht. reflexivity.
  - done.
  - intros y.
    rewrite <- (back_trail_ancestors σ g taxa_id fuel t Hwf Hsex Hin Ht y).
    rewrite <- (extracted_node_ids σ g taxa_id fuel t Hwf Hin Ht y).
    fold lin. split.
    + intros Hy. apply Hcov in Hy. rewrite <- Hkeys in Hy.
      apply list_elem_of_fmap in Hy as ([[y' l] s] & -> & Hrowin).
      change ((r, l0, ns0) :: rest) with ([(r, l0, ns0)] ++ rest) in Hrowin.
      rewrite <- (concat_segments [(r, l0, ns0)] ns0 rest) in Hrowin.
      apply elem_of_concat_1 in Hrowin as (i & seg & Hseg & Hs).
      destruct (Hstates i seg Hseg) as (h & m & _ & _ & Hm & Hmseg & _).
      exists i, m. split; [done|]. exists l. apply Hmseg. by exists s.
    + intros (i & m & Hm & [l Hl]).
      apply list_elem_of_fmap. exists (y, l). split; [done|].
      by eapply Hmember.
  - intros i m y l Hm Hy.
    destruct (Hcopy y l) as (_ & Hfresh & Heq); [by eapply Hmember|]. done.
Qed.

Lemma extract_then_abstract_witness :
  ∃ lin σ' al,
    extract_asexual_lineage 4 chain_store chain_ABCD (VStr "C") = Ret (lin, σ') ∧
    abstract_asexual_lineage 4 σ' lin ["trait"]
                             "origin_time" "destruction_time" = Ret al ∧
    (∀ y, rtc (edge chain_ABCD) y (VStr "C") ↔
          ∃ i m, members_of al (Z.of_nat i) = Some m ∧ is_Some (m !! y)) ∧
    (∀ i m y l, members_of al (Z.of_nat i) = Some m → m !! y = Some l →
                length chain_store ≤ l ∧
                node_attrs chain_store chain_ABCD y = Ret (σ' !!! l)).
Proof.
  apply (extract_then_abstract chain_store chain_ABCD (VStr "C") ["trait"]
           "origin_time" "destruction_time" 4).
  - apply chain_ABCD_wf.
  - apply chain_ABCD_acyclic.
  - reflexivity.
  - by_compute.
  - vm_compute. lia.
  - vm_compute. reflexivity.
  - by_compute.
  - by_compute.
  - by_compute.
Defined.

(** X19.  [get_independent_phylogenies] turns an asexual acyclic phylogeny
    into trees: each graph it returns is asexual and acyclic and has exactly
    one root, which is one of the roots of the phylogeny. *)
Theorem independent_phylogenies_are_trees (σ : store) (g : DiGraph loc) :
  world_wf σ g → acyclic g → is_asexual g = true →
  Forall (λ h,
      is_asexual h = true ∧ acyclic h ∧
      ∃ r, get_root_ids h = [r] ∧ r ∈ get_root_ids g)
    (get_independent_phylogenies σ g).1.
Proof.
  intros Hwf Hacyc Hsex. apply Forall_forall.
  intros h [i Hi]%list_elem_of_lookup_1.
  destruct (independent_phylogenies_spec σ g Hwf) as (_ & Hgraphs & _).
  destruct (Hgraphs i h Hi)
    as (c & _ & _ & Hclass & Hnodes & _ & Hne & Hedges & Hwfh & _).
  assert (is_asexual h = true) as Hsexh.
  { apply is_asexual_true. intros n Hn.
    apply NoDup_all_equal; [apply predecessors_NoDup, Hwfh|].
    intros a b Ha%elem_of_predecessors%Hedges Hb%elem_of_predecessors%Hedges.
    apply (unique_parent g a b n (proj1 Hwf) Hsex); tauto. }
  assert (acyclic h) as Hacych.
  { apply (acyclic_sub g h); [|done]. by intros u v [? _]%Hedges. }
  assert (weakly_connected h) as Hconn.
  { intros u v Hu%Hnodes Hv%Hnodes.
    apply (rtc_linked_subgraph g h c u v Hedges); [|done|].
    - intros a b Ha Hab. apply (Hclass a Ha). by apply rtc_once.
    - by apply (Hclass u Hu). }
  destruct (is_weakly_connected_spec h (proj1 Hwfh) Hne) as [_ Hnum].
  apply Hnum in Hconn. unfold nx.number_weakly_connected_components in Hconn.
  rewrite <- (roots_components_length h (proj1 Hwfh) Hacych Hsexh) in Hconn.
  split_and!; [done..|].
  destruct (get_root_ids h) as [|r [|r' rs]] eqn:Hroots;
    [simpl in Hconn; lia| |simpl in Hconn; lia].
  exists r. split; [done|].
  assert (r ∈ get_root_ids h) as Hr by (rewrite Hroots; left).
  apply get_root_ids_nodes in Hr as [Hrh Hpred].
  apply Hnodes in Hrh as Hrc.
  apply list_elem_of_filter. split; [|by apply Hclass].
  destruct (predecessors g r) as [|u us] eqn:Hpg; [done|]. exfalso.
  assert (edge g u r) as Hur.
  { apply elem_of_predecessors. rewrite Hpg. left. }
  assert (edge h u r) as Hur'.
  { apply Hedges. split_and!; [done| |done].
    apply (Hclass r Hrc). apply rtc_once. by right. }
  apply elem_of_predecessors in Hur'. rewrite Hpred in Hur'.
  by apply elem_of_nil in Hur'.
Qed.

Lemma independent_phylogenies_are_trees_witness :
  Forall (λ h,
      is_asexual h = true ∧ acyclic h ∧
      ∃ r, get_root_ids h = [r] ∧ r ∈ get_root_ids chain_ABCD)
    (get_independent_phylogenies chain_store chain_ABCD).1.
Proof.
  apply independent_phylogenies_are_trees;
    [apply chain_ABCD_wf|apply chain_ABCD_acyclic|reflexivity].
Defined.

(** ** The checks of [abstract_asexual_lineage] *)

(** X20.  [abstract_asexual_lineage] makes its checks in this order: the
    input must be an asexual lineage, then all taxa must carry the listed
    attributes, then the list must name none of [node_state], [members],
    [state_id], which are reported in this order.  So a reserved name is
    reported only if all taxa carry it as an attribute.  A graph whose
    number of roots is not one, such as the graph without nodes, is
    refused at once, whatever else is asked. *)
Theorem abstract_asexual_lineage_checks
    (σ : store) (lineage : DiGraph loc) (attribute_list : list string)
    (origin_time_attr destruction_time_attr : string) (fuel : nat) :
  (length (get_root_ids lineage) ≠ 1 →
     is_asexual_lineage fuel lineage = Ret false) ∧
  (is_asexual_lineage fuel lineage = Ret false →
     abstract_asexual_lineage fuel σ lineage attribute_list
                              origin_time_attr destruction_time_attr
     = Raise NotAsexualLineage) ∧
  (is_asexual_lineage fuel lineage = Ret true →
     (all_taxa_have_attributes σ lineage attribute_list = false →
        abstract_asexual_lineage fuel σ lineage attribute_list
                                 origin_time_attr destruction_time_attr
        = Raise AttributesNotUniversal) ∧
     (all_taxa_have_attributes σ lineage attribute_list = true →
        ("node_state" ∈ attribute_list →
           abstract_asexual_lineage fuel σ lineage attribute_list
                                    origin_time_attr destruction_time_attr
           = Raise (ReservedAttribute "node_state")) ∧
        ("node_state" ∉ attribute_list → "members" ∈ attribute_list →
           abstract_asexual_lineage fuel σ lineage attribute_list
                                    origin_time_attr destruction_time_attr
           = Raise (ReservedAttribute "members")) ∧
        ("node_state" ∉ attribute_list → "members" ∉ attribute_list →
         "state_id" ∈ attribute_list →
           abstract_asexual_lineage fuel σ lineage attribute_list
                                    origin_time_attr destruction_time_attr
           = Raise (ReservedAttribute "state_id")))).
Proof.
  unfold abstract_asexual_lineage. split_and!.
  - intros Hroots. unfold is_asexual_lineage.
    by rewrite (bool_decide_eq_true_2 _ Hroots).
  - by intros ->.
  - intros ->. cbn [mbind outcome_bind negb]. split.
    + by intros ->.
    + intros ->. cbn [negb]. split_and!.
      * intros Hns. by rewrite (bool_decide_eq_true_2 _ Hns).
      * intros Hns Hmem.
        by rewrite (bool_decide_eq_false_2 _ Hns), (bool_decide_eq_true_2 _ Hmem).
      * intros Hns Hmem Hsid.
        by rewrite (bool_decide_eq_false_2 _ Hns), (bool_decide_eq_false_2 _ Hmem),
          (bool_decide_eq_true_2 _ Hsid).
Qed.

(** ** Annotating more than once *)

Section annotate_filter.
Context (σ : store) (g : DiGraph loc) (P : value → Prop)
        `{!∀ n, Decision (P n)}.
Hypothesis Hwf : world_wf σ g.

Lemma annotate_filter_lookup :
  world_wf (annotate_ids (filter (λ p : value * nat, P p.1) (nodes g)) σ) g ∧
  length (annotate_ids (filter (λ p : value * nat, P p.1) (nodes g)) σ)
    = length σ ∧
  (∀ n l, (n, l) ∈ nodes g →
     annotate_ids (filter (λ p : value * nat, P p.1) (nodes g)) σ !!! l
     = if decide (P n) then <["id" := n]> (σ !!! l : gmap string value)
       else σ !!! l) ∧
  (∀ l, l ∉ (nodes g).*2 →
     annotate_ids (filter (λ p : value * nat, P p.1) (nodes g)) σ !! l
     = σ !! l).
Proof using Hwf.
  destruct (annotated_query_spec σ g P Hwf)
    as (Hd & Hin & Hout & Hother & Hlen & Hwf').
  split_and!; [done..| |done].
  intros n l Hnl. apply list_lookup_total_correct.
  destruct (decide (P n)) as [Hp|Hp].
  - apply Hin, Hd. done.
  - rewrite (Hout n l Hnl).
    + apply list_lookup_lookup_total_lt. apply Hwf.
      apply list_elem_of_fmap. by exists (n, l).
    + intros [_ ?]%Hd. done.
Qed.
End annotate_filter.

Lemma annotate_filter_twice (σ : store) (g : DiGraph loc)
    (P Q : value → Prop) `{!∀ n, Decision (P n)} `{!∀ n, Decision (Q n)} :
  world_wf σ g →
  ∀ l, annotate_ids (filter (λ p : value * nat, Q p.1) (nodes g))
         (annotate_ids (filter (λ p : value * nat, P p.1) (nodes g)) σ) !! l
       = match list_find (λ p : value * nat, p.2 = l) (nodes g) with
         | Some (_, (n, _)) =>
             Some (if decide (P n ∨ Q n)
                   then <["id" := n]> (σ !!! l : gmap string value)
                   else σ !!! l)
         | None => σ !! l
         end.
Proof.
  intros Hwf l.
  destruct (annotate_filter_lookup σ g P Hwf) as (Hwf1 & Hlen1 & Hin1 & Hout1).
  destruct (annotate_filter_lookup _ g Q Hwf1) as (Hwf2 & Hlen2 & Hin2 & Hout2).
  destruct (list_find _ (nodes g)) as [[i [n l']]|] eqn:Hfind.
  - apply list_find_Some in Hfind as (Hi & Hl & _). simpl in Hl. subst l'.
    assert ((n, l) ∈ nodes g) as Hnl by (by eapply list_elem_of_lookup_2).
    rewrite list_lookup_lookup_total_lt.
    + f_equal. rewrite (Hin2 n l Hnl), (Hin1 n l Hnl).
      destruct (decide (P n)), (decide (Q n));
        rewrite ?decide_True by tauto; rewrite ?decide_False by tauto;
        [by rewrite insert_insert_eq|done..].
    + rewrite Hlen2, Hlen1. apply Hwf. apply list_elem_of_fmap.
      by exists (n, l).
  - apply list_find_None in Hfind. rewrite Forall_forall in Hfind.
    assert (l ∉ (nodes g).*2) as Hout.
    { intros ([n l'] & -> & Hin)%list_elem_of_fmap. by apply (Hfind _ Hin). }
    by rewrite Hout2, Hout1.
Qed.

(** X21.  The queries that write [id] can be repeated and reordered:
    [get_roots] and [get_leaf_taxa] return the nodes that [get_root_ids]
    and [get_leaf_taxa_ids] list, a second call returns the same and leaves
    every object as the first call left it, and calling one and then the
    other leaves the same objects in either order. *)
Theorem annotating_queries_repeat (σ : store) (g : DiGraph loc) :
  world_wf σ g →
  (get_roots σ g).1.*1 = get_root_ids g ∧
  (get_leaf_taxa σ g).1.*1 = get_leaf_taxa_ids g ∧
  get_roots (get_roots σ g).2 g = get_roots σ g ∧
  get_leaf_taxa (get_leaf_taxa σ g).2 g = get_leaf_taxa σ g ∧
  (get_leaf_taxa (get_roots σ g).2 g).2 = (get_roots (get_leaf_taxa σ g).2 g).2.
Proof.
  intros Hwf. unfold get_roots, get_leaf_taxa. cbn [fst snd].
  set (P := λ n : value, length (predecessors g n) = 0).
  set (Q := λ n : value, length (successors g n) = 0).
  assert (∀ (R : value → Prop) `{!∀ n, Decision (R n)},
            annotate_ids (filter (λ p : value * nat, R p.1) (nodes g))
              (annotate_ids (filter (λ p : value * nat, R p.1) (nodes g)) σ)
            = annotate_ids (filter (λ p : value * nat, R p.1) (nodes g)) σ)
    as Hidem.
  { intros R HR. apply list_eq. intros l.
    rewrite (annotate_filter_twice σ g R R Hwf l).
    destruct (annotate_filter_lookup σ g R Hwf) as (_ & Hlen1 & Hin1 & Hout1).
    destruct (list_find _ (nodes g)) as [[i [n l']]|] eqn:Hfind.
    - apply list_find_Some in Hfind as (Hi & Hl & _). simpl in Hl. subst l'.
      assert ((n, l) ∈ nodes g) as Hnl by (by eapply list_elem_of_lookup_2).
      rewrite list_lookup_lookup_total_lt.
      + f_equal. rewrite (Hin1 n l Hnl).
        destruct (decide (R n));
          [by rewrite decide_True by tauto|by rewrite decide_False by tauto].
      + rewrite Hlen1. apply Hwf. apply list_elem_of_fmap. by exists (n, l).
    - apply list_find_None in Hfind. rewrite Forall_forall in Hfind.
      rewrite Hout1; [done|].
      intros ([n l'] & -> & Hin)%list_elem_of_fmap. by apply (Hfind _ Hin). }
  split_and!.
  - exact (fst_filter_fst P (nodes g)).
  - exact (fst_filter_fst Q (nodes g)).
  - f_equal. exact (Hidem P _).
  - f_equal. exact (Hidem Q _).
  - apply list_eq. intros l.
    etrans; [exact (annotate_filter_twice σ g P Q Hwf l)|].
    symmetry. etrans; [exact (annotate_filter_twice σ g Q P Hwf l)|].
    destruct (list_find _ (nodes g)) as [[i [n l']]|]; [|done].
    f_equal. destruct (decide (P n ∨ Q n));
      [by rewrite decide_True by tauto|by rewrite decide_False by tauto].
Qed.

Lemma annotating_queries_repeat_witness :
  (get_roots chain_store chain_ABCD).1.*1 = get_root_ids chain_ABCD ∧
  (get_leaf_taxa chain_store chain_ABCD).1.*1 = get_leaf_taxa_ids chain_ABCD ∧
  get_roots (get_roots chain_store chain_ABCD).2 chain_ABCD
    = get_roots chain_store chain_ABCD ∧
  get_leaf_taxa (get_leaf_taxa chain_store chain_ABCD).2 chain_ABCD
    = get_leaf_taxa chain_store chain_ABCD ∧
  (get_leaf_taxa (get_roots chain_store chain_ABCD).2 chain_ABCD).2
    = (get_roots (get_leaf_taxa chain_store chain_ABCD).2 chain_ABCD).2.
Proof. apply annotating_queries_repeat, chain_ABCD_wf. Defined.

(** ** Extracting twice *)

Lemma filter_all {A} (P : A → Prop) `{!∀ x, Decision (P x)} (l : list A) :
  (∀ x, x ∈ l → P x) → filter P l = l.
Proof.
  induction l as [|x l IH]; intros Hall; [done|].
  rewrite filter_cons, decide_True by (apply Hall; left).
  f_equal. apply IH. intros y Hy. apply Hall. by right.
Qed.

(** X23.  Extracting twice changes nothing: the lineage extracted at a taxon from
    the lineage extracted at that taxon has the same nodes in the same
    order, the same edges, and attribute dictionaries with the same
    contents. *)
Theorem extract_asexual_lineage_idempotent (σ : store) (g : DiGraph loc)
    (taxa_id : value) (fuel : nat) :
  world_wf σ g → acyclic g → is_asexual g = true → taxa_id ∈ node_ids g →
  length (nodes g) ≤ fuel →
  ∃ lin σ' lin2 σ'',
    extract_asexual_lineage fuel σ g taxa_id = Ret (lin, σ') ∧
    extract_asexual_lineage fuel σ' lin taxa_id = Ret (lin2, σ'') ∧
    node_ids lin2 = node_ids lin ∧ edges lin2 = edges lin ∧
    (∀ n, n ∈ node_ids lin → node_attrs σ'' lin2 n = node_attrs σ' lin n).
Proof.
  intros Hwf Hacyc Hsex Hin Hfuel.
  destruct (predecessors_trail_terminates g fuel taxa_id (proj1 Hwf) Hacyc Hin
              Hfuel) as [t Ht].
  set (lin := (subgraph_copy σ g t).1).
  set (σ' := (subgraph_copy σ g t).2).
  assert (∀ n, n ∈ t → n ∈ node_ids g) as Ht_nodes.
  { by eapply back_trail_nodes. }
  assert (∀ n, n ∈ node_ids lin ↔ n ∈ t) as Hlin_nodes.
  { by apply (extracted_node_ids σ g taxa_id fuel t). }
  assert (∀ n, n ∈ t ↔ rtc (edge g) n taxa_id) as Hanc.
  { by apply (back_trail_ancestors σ g taxa_id fuel t). }
  assert (world_wf σ' lin) as Hwf' by (by apply subgraph_copy_wf).
  assert (acyclic lin) as Hacyc'.
  { apply (acyclic_sub g lin); [|done].
    by intros u v [? _]%subgraph_copy_edges. }
  assert (is_asexual lin = true) as Hsex'.
  { by apply (extracted_is_asexual σ g taxa_id fuel t). }
  assert (taxa_id ∈ node_ids lin) as Hin'.
  { apply Hlin_nodes, Hanc. done. }
  assert (length (nodes lin) ≤ fuel) as Hfuel'.
  { etrans; [|exact Hfuel]. unfold lin, subgraph_copy. cbn [fst nodes].
    rewrite length_zip_with, length_fmap, length_seq.
    etrans; [apply Nat.le_min_l|]. apply length_filter. }
  destruct (predecessors_trail_terminates lin fuel taxa_id (proj1 Hwf') Hacyc'
              Hin' Hfuel') as [t2 Ht2].
  assert (∀ n, n ∈ t2 → n ∈ node_ids lin) as Ht2_nodes.
  { by eapply back_trail_nodes. }
  assert (∀ n, n ∈ node_ids lin → n ∈ t2) as Hall.
  { intros n Hn%Hlin_nodes%Hanc.
    apply (back_trail_ancestors σ' lin taxa_id fuel t2 Hwf' Hsex' Hin' Ht2).
    revert n Hn. apply rtc_ind_l; [done|].
    intros x y Hxy Hy IH. eapply rtc_l; [|exact IH].
    apply subgraph_copy_edges. split_and!; [done|..]; apply Hanc; [|done].
    by eapply rtc_l. }
  exists lin, σ', (subgraph_copy σ' lin t2).1, (subgraph_copy σ' lin t2).2.
  split_and!.
  - unfold extract_asexual_lineage.
    rewrite (bool_decide_eq_true_2 _ Hin), Hsex. cbn [negb].
    rewrite (ancestor_walk_trail g fuel [] taxa_id
             : ancestor_walk fuel g [taxa_id] = _), Ht. reflexivity.
  - unfold extract_asexual_lineage.
    rewrite (bool_decide_eq_true_2 _ Hin'), Hsex'. cbn [negb].
    rewrite (ancestor_walk_trail lin fuel [] taxa_id
             : ancestor_walk fuel lin [taxa_id] = _), Ht2. reflexivity.
  - rewrite subgraph_copy_node_ids. by apply filter_all.
  - change (edges (subgraph_copy σ' lin t2).1)
      with (filter (λ e : value * value, e.1 ∈ t2 ∧ e.2 ∈ t2) (edges lin)).
    apply filter_all. intros [u v] Huv.
    apply (proj1 Hwf') in Huv as [Hu Hv]. split; by apply Hall.
  - intros n Hn. apply subgraph_copy_attrs; [done|done|by apply Hall].
Qed.

Lemma extract_asexual_lineage_idempotent_witness :
  ∃ lin σ' lin2 σ'',
    extract_asexual_lineage 4 chain_store chain_ABCD (VStr "C") = Ret (lin, σ') ∧
    extract_asexual_lineage 4 σ' lin (VStr "C") = Ret (lin2, σ'') ∧
    node_ids lin2 = node_ids lin ∧ edges lin2 = edges lin ∧
    (∀ n, n ∈ node_ids lin → node_attrs σ'' lin2 n = node_attrs σ' lin n).
Proof.
  apply extract_asexual_lineage_idempotent.
  - apply chain_ABCD_wf.
  - apply chain_ABCD_acyclic.
  - reflexivity.
  - by_compute.
  - vm_compute. lia.
Defined.
